(** * Puzzle-GAN network builders (training/networks_puzzlegan.py)

    A shallow embedding of the generator and discriminator graph builders
    [G_puzzle] and [D_puzzle], of the layer primitives they are made of, and
    of the puzzle assembly [first_layer].

    The source is a program that constructs a TensorFlow graph, and three
    things are said about it here:
    - the values the constructed graph computes, in exact rational
      arithmetic ([Qc]). A value tensor is the map from an NCHW index to a
      scalar (a tensor of lower rank uses the leading indices); where the
      extents matter, as in a convolution with padding, they are carried
      along (module [Sized]). The blocks of the networks enter as functions
      on value tensors, their weights held fixed;
    - the construction itself (modules [Build], [BuildLayers], [BuildG]):
      the static shapes TensorFlow infers and checks, the exceptions raised,
      and the operations issued up to them;
    - where the tiles of the puzzle land in the seed feature map (module
      [Layout]).

    The schedule [nf] is stated over the reals, as the source computes it
    with a real power; the source evaluates it in float64, and the two agree
    where the float expression is exact, which is where the statements
    about [nf] are made. The blends [lerp] and [lerp_clip] are given in
    float32 as well (module [F32]), the dtype of the graph. *)

From Stdlib Require Import ZArith QArith Qcanon Lia Lqa List Bool String Ascii.
From Stdlib Require Import Reals.
From Stdlib Require Import SpecFloat.
From Stdlib Require Import FunctionalExtensionality.
Import ListNotations.

Open Scope Z_scope.

(** ** Scalars *)

Module Scalar.

Local Open Scope Qc_scope.

(** An integer used as a scalar (Python's implicit int -> float). *)
Definition ofZ (z : Z) : Qc := Q2Qc (inject_Z z).

Definition qmax (a b : Qc) : Qc := if Qclt_le_dec a b then b else a.
Definition qmin (a b : Qc) : Qc := if Qclt_le_dec a b then a else b.

(** [tf.clip_by_value(t, lo, hi)] is [min(max(t, lo), hi)]. *)
Definition clip_by_value (t lo hi : Qc) : Qc := qmin (qmax t lo) hi.

(** The comparison [a < b] of two scalars, as [tf.cond] consumes it. *)
Definition qlt (a b : Qc) : bool := if Qclt_le_dec a b then true else false.

(** The sum of [g 0 .. g (n-1)]. *)
Fixpoint sum_to (n : nat) (g : Z -> Qc) : Qc :=
  match n with
  | O => 0
  | S m => sum_to m g + g (Z.of_nat m)
  end.

End Scalar.

Import Scalar.

(** ** Value tensors *)

(** The values of a tensor, by NCHW index. *)
Definition Tensor : Type := Z -> Z -> Z -> Z -> Qc.

(** The values of a rank-6 tensor (the intermediate of [upscale2d]). *)
Definition Tensor6 : Type := Z -> Z -> Z -> Z -> Z -> Z -> Qc.

Definition tadd (a b : Tensor) : Tensor := fun n c h w => (a n c h w + b n c h w)%Qc.
Definition tsub (a b : Tensor) : Tensor := fun n c h w => (a n c h w - b n c h w)%Qc.
(** A tensor times a scalar (broadcast). *)
Definition tscale (a : Tensor) (t : Qc) : Tensor := fun n c h w => (a n c h w * t)%Qc.

(** [def lerp(a, b, t): return a + (b - a) * t], in exact arithmetic; module
    [F32] below has the blends as float32 computes them. *)
Definition lerp (a b : Tensor) (t : Qc) : Tensor := tadd a (tscale (tsub b a) t).

(** [def lerp_clip(a, b, t): return a + (b - a) * tf.clip_by_value(t, 0.0, 1.0)] *)
Definition lerp_clip (a b : Tensor) (t : Qc) : Tensor :=
  tadd a (tscale (tsub b a) (clip_by_value t 0 1)).

(** [def cset(cur_lambda, new_cond, new_lambda):
       return lambda: tf.cond(new_cond, new_lambda, cur_lambda)]
    The deferred computations are thunks; [tf.cond] yields the value of the
    branch the predicate selects. *)
Definition cset {A : Type} (cur_lambda : unit -> A) (new_cond : bool)
    (new_lambda : unit -> A) : unit -> A :=
  fun _ => if new_cond then new_lambda tt else cur_lambda tt.

(** *** The blends in float32 *)

(** The scalars of the graph are IEEE 754 binary32 numbers ([dtype] is
    'float32'): 24 bits of precision, exponents below 128, every operation
    rounded to nearest, ties to even. *)
Module F32.

Definition prec : Z := 24.
Definition emax : Z := 128.

Definition add : spec_float -> spec_float -> spec_float := SFadd prec emax.
Definition sub : spec_float -> spec_float -> spec_float := SFsub prec emax.
Definition mul : spec_float -> spec_float -> spec_float := SFmul prec emax.

(** The constants [0.0] and [1.0]. *)
Definition zero : spec_float := S754_zero false.
Definition one : spec_float := S754_finite false 8388608 (-23).

(** Neither an infinity nor a NaN. *)
Definition finite (x : spec_float) : bool :=
  match x with
  | S754_zero _ | S754_finite _ _ _ => true
  | S754_infinity _ | S754_nan => false
  end.

(** [tf.minimum] and [tf.maximum], on numbers that are not NaN. *)
Definition minimum (x y : spec_float) : spec_float := if SFltb y x then y else x.
Definition maximum (x y : spec_float) : spec_float := if SFltb x y then y else x.

(** [tf.clip_by_value(t, lo, hi)] takes the minimum with [hi], then the
    maximum with [lo]. *)
Definition clip_by_value (t lo hi : spec_float) : spec_float :=
  maximum (minimum t hi) lo.

(** The values of a float32 tensor, by NCHW index. *)
Definition FTensor : Type := Z -> Z -> Z -> Z -> spec_float.

(** [def lerp(a, b, t): return a + (b - a) * t] *)
Definition lerp (a b : FTensor) (t : spec_float) : FTensor :=
  fun n c h w => add (a n c h w) (mul (sub (b n c h w) (a n c h w)) t).

(** [def lerp_clip(a, b, t): return a + (b - a) * tf.clip_by_value(t, 0.0, 1.0)] *)
Definition lerp_clip (a b : FTensor) (t : spec_float) : FTensor :=
  fun n c h w =>
    add (a n c h w) (mul (sub (b n c h w) (a n c h w)) (clip_by_value t zero one)).

End F32.

(** *** Nearest-neighbour upscaling and box-filter downscaling *)

(** [tf.reshape(x, [-1, s[1], s[2], 1, s[3], 1])]: two axes of extent 1 are
    inserted, after H and after W. *)
Definition reshape_4_to_6 (x : Tensor) : Tensor6 :=
  fun n c h _ w _ => x n c h w.

(** [tf.tile(x, [1, 1, 1, factor, 1, factor])] on axes of extent 1: entry
    [i] of a tiled axis reads entry [i mod 1] of the input. *)
Definition tile_6 (x : Tensor6) (factor : positive) : Tensor6 :=
  fun n c h a w b => x n c h (a mod 1) w (b mod 1).

(** [tf.reshape(x, [-1, s[1], s[2] * factor, s[3] * factor])]: the axes
    (H, factor) and (W, factor) are merged, row-major. *)
Definition reshape_6_to_4 (x : Tensor6) (factor : positive) : Tensor :=
  fun n c h w =>
    x n c (h / Z.pos factor) (h mod Z.pos factor) (w / Z.pos factor) (w mod Z.pos factor).

(** [def upscale2d(x, factor=2)]. The assertion [isinstance(factor, int) and
    factor >= 1] is the type of [factor]. *)
Definition upscale2d (x : Tensor) (factor : positive) : Tensor :=
  if Pos.eqb factor 1 then x
  else reshape_6_to_4 (tile_6 (reshape_4_to_6 x) factor) factor.

(** [tf.nn.avg_pool(x, ksize=[1,1,f,f], strides=[1,1,f,f], padding='VALID')]:
    output pixel (p, q) is the mean of the f x f window at (p*f, q*f). *)
Definition avg_pool (x : Tensor) (f : positive) : Tensor :=
  fun n c p q =>
    Qcdiv
      (sum_to (Pos.to_nat f) (fun a =>
         sum_to (Pos.to_nat f) (fun b =>
           x n c (p * Z.pos f + a) (q * Z.pos f + b))))
      (ofZ (Z.pos f * Z.pos f)).

(** [def downscale2d(x, factor=2)] *)
Definition downscale2d (x : Tensor) (factor : positive) : Tensor :=
  if Pos.eqb factor 1 then x else avg_pool x factor.

(** [2**lod] for a level of detail [lod >= 0]. *)
Definition pow2 (lod : nat) : positive := Z.to_pos (2 ^ Z.of_nat lod).

(** [range(a, b)] *)
Definition range (a b : Z) : list Z :=
  map (fun i => a + Z.of_nat i) (seq 0 (Z.to_nat (b - a))).

(** [range(a, b, -1)] *)
Definition range_down (a b : Z) : list Z :=
  map (fun i => a - Z.of_nat i) (seq 0 (Z.to_nat (a - b))).

(** ** The progressive graph, generator side *)

Module G.

Section Topology.

(** [block(x, res)] and [torgb(x, res)] with the weights of their variable
    scopes ('%dx%d' and 'ToRGB_lod%d', both keyed by [res]) held fixed: the
    two structures address the same variables. *)
Variable block : Tensor -> Z -> Tensor.
Variable torgb : Tensor -> Z -> Tensor.
Variables resolution_log2 firstblock_res_log2 : Z.
(** The value of the 'lod' variable. *)
Variable lod_in : Qc.

(** One iteration of the loop of the linear structure; the state is
    [(x, images_out)]. *)
Definition linear_step (st : Tensor * Tensor) (res : Z) : Tensor * Tensor :=
  let '(x, images_out) := st in
  let lod := resolution_log2 - res in
  let x := block x res in
  let img := torgb x res in
  let images_out := upscale2d images_out 2 in
  let images_out := lerp_clip img images_out (lod_in - ofZ lod)%Qc in
  (x, images_out).

(** [if structure == 'linear': ...] *)
Definition linear (combo_in : Tensor) : Tensor :=
  let x := block combo_in firstblock_res_log2 in
  let images_out := torgb x firstblock_res_log2 in
  snd (fold_left linear_step
         (range (firstblock_res_log2 + 1) (resolution_log2 + 1))
         (x, images_out)).

(** [def grow(x, res, lod)], by recursion on [lod >= 0]. *)
Fixpoint grow (lod : nat) (x : Tensor) (res : Z) : Tensor :=
  let y := block x res in
  let img := fun _ : unit => upscale2d (torgb y res) (pow2 lod) in
  let img :=
    if firstblock_res_log2 <? res
    then cset img (qlt (ofZ (Z.of_nat lod)) lod_in)
           (fun _ => upscale2d
                       (lerp (torgb y res) (upscale2d (torgb x (res - 1)) 2)
                             (lod_in - ofZ (Z.of_nat lod))%Qc)
                       (pow2 lod))
    else img in
  let img :=
    match lod with
    | S lod' => cset img (qlt lod_in (ofZ (Z.of_nat lod)))
                  (fun _ => grow lod' y (res + 1))
    | O => img
    end in
  img tt.


(** [if structure == 'recursive': ...]. With
    [resolution_log2 < firstblock_res_log2] the factor [2**lod] is not an
    integer and the assertion of [upscale2d] fails. *)
Definition recursive (combo_in : Tensor) : option Tensor :=
  let lod := resolution_log2 - firstblock_res_log2 in
  if lod <? 0 then None
  else Some (grow (Z.to_nat lod) combo_in firstblock_res_log2).

End Topology.

End G.

(** ** The progressive graph, discriminator side *)

Module D.

Section Topology.

(** [fromrgb(x, res)] and [block(x, res)] with the weights of their variable
    scopes held fixed. *)
Variable fromrgb : Tensor -> Z -> Tensor.
Variable block : Tensor -> Z -> Tensor.
Variables resolution_log2 firstblock_res_log2 : Z.
Variable lod_in : Qc.
Variable images_in : Tensor.

(** One iteration of the loop of the linear structure; the state is
    [(img, x)]. *)
Definition linear_step (st : Tensor * Tensor) (res : Z) : Tensor * Tensor :=
  let '(img, x) := st in
  let lod := resolution_log2 - res in
  let x := block x res in
  let img := downscale2d img 2 in
  let y := fromrgb img (res - 1) in
  let x := lerp_clip x y (lod_in - ofZ lod)%Qc in
  (img, x).

(** [if structure == 'linear': ...] *)
Definition linear : Tensor :=
  let img := images_in in
  let x := fromrgb img resolution_log2 in
  let '(_, x) := fold_left linear_step
                   (range_down resolution_log2 firstblock_res_log2) (img, x) in
  block x firstblock_res_log2.

(** The state of the linear loop after its first [l] iterations. *)
Fixpoint linear_state (l : nat) : Tensor * Tensor :=
  match l with
  | O => (images_in, fromrgb images_in resolution_log2)
  | S l' => linear_step (linear_state l') (resolution_log2 - Z.of_nat l')
  end.

(** [def grow(res, lod)], by recursion on [lod >= 0]. *)
Fixpoint grow (lod : nat) (res : Z) : Tensor :=
  let x := fun _ : unit => fromrgb (downscale2d images_in (pow2 lod)) res in
  let x :=
    match lod with
    | S lod' => cset x (qlt lod_in (ofZ (Z.of_nat lod)))
                  (fun _ => grow lod' (res + 1))
    | O => x
    end in
  let x := block (x tt) res in
  let y := fun _ : unit => x in
  let y :=
    if firstblock_res_log2 <? res
    then cset y (qlt (ofZ (Z.of_nat lod)) lod_in)
           (fun _ => lerp x
                       (fromrgb (downscale2d images_in (pow2 (lod + 1))) (res - 1))
                       (lod_in - ofZ (Z.of_nat lod))%Qc)
    else y in
  y tt.

(** [if structure == 'recursive': ...] *)
Definition recursive : option Tensor :=
  let lod := resolution_log2 - firstblock_res_log2 in
  if lod <? 0 then None
  else Some (grow (Z.to_nat lod) firstblock_res_log2).

End Topology.

End D.

(** ** Errors *)

(** The exceptions graph construction can end in. *)
Inductive error : Type :=
| AssertionError   (* a failed [assert] *)
| ValueError       (* TensorFlow or NumPy rejects a shape or a value *)
| OverflowError    (* [int(-inf)] *)
| IndexError       (* a list index out of range *)
| TypeError        (* [None] where a number is needed *)
| NameError        (* a local variable read before it is bound *)
| AttributeError.  (* an attribute of [None] *)

Definition result (A : Type) : Type := (error + A)%type.

Definition Ok {A : Type} (a : A) : result A := inr a.
Definition Raise {A : Type} (e : error) : result A := inl e.

Definition rbind {A B : Type} (m : result A) (k : A -> result B) : result B :=
  match m with
  | inl e => inl e
  | inr a => k a
  end.

Notation "x <- m ;; k" := (rbind m (fun x => k))
  (at level 61, m at next level, right associativity).
Notation "m ;;; k" := (rbind m (fun _ => k))
  (at level 61, right associativity).

(** [assert b] *)
Definition assert (b : bool) : result unit :=
  if b then Ok tt else Raise AssertionError.

(** [int(np.log2(r))] for an integer [r]. [np.log2] takes integers of 64
    bits and raises a [TypeError] on the others; it is [-inf] at 0 and [nan]
    below, which [int] rejects. For [1 <= r < 2^31], and at every power of
    two, the float64 logarithm truncates to the floor of the exact one,
    which is [Z.log2 r]. Just below a large power of two (at [2^49 - 1],
    say) the float64 logarithm rounds up to the next integer, which
    [Z.log2] does not follow: there the value depends on the rounding of
    the library and is not rendered. *)
Definition int_log2 (r : Z) : result Z :=
  if 0 <? r then
    if r <? 2 ^ 64 then Ok (Z.log2 r) else Raise TypeError
  else if r =? 0 then Raise OverflowError
  else if r <? - 2 ^ 63 then Raise TypeError
  else Raise ValueError.

(** ** Convolutions on tensors of known extent *)

Module Sized.

(** A tensor [N, C, H, W] with its static extents (the batch extent is
    dynamic and plays no role) and its values. *)
Record SizedTensor : Type := {
  channels : Z;
  height : Z;
  width : Z;
  values : Tensor
}.

(** What a convolution reads at a position: the value inside the tensor,
    zero in the padding. *)
Definition zero_padded (x : SizedTensor) : Tensor :=
  fun n c h w =>
    if (0 <=? h) && (h <? height x) && (0 <=? w) && (w <? width x)
    then values x n c h w else 0%Qc.

(** Output extent and leading padding of padding='SAME'. *)
Definition same_out_size (n stride : Z) : Z := (n + stride - 1) / stride.
Definition same_pad_before (n k stride : Z) : Z :=
  Z.max ((same_out_size n stride - 1) * stride + k - n) 0 / 2.

(** [tf.nn.conv2d(x, w, strides=[1,1,stride,stride], padding='SAME',
    data_format='NCHW')] with a filter [w] of shape [kh, kw, C, fmaps]. *)
Definition tf_nn_conv2d (x : SizedTensor) (w : Tensor) (kh kw fmaps stride : Z)
  : SizedTensor :=
  let ph := same_pad_before (height x) kh stride in
  let pw := same_pad_before (width x) kw stride in
  {| channels := fmaps;
     height := same_out_size (height x) stride;
     width := same_out_size (width x) stride;
     values := fun n o r s =>
       sum_to (Z.to_nat (channels x)) (fun c =>
         sum_to (Z.to_nat kh) (fun i =>
           sum_to (Z.to_nat kw) (fun j =>
             Qcmult (w i j c o)
               (zero_padded x n c (r * stride + i - ph) (s * stride + j - pw))))) |}.

(** [tf.nn.conv2d_transpose(x, w, os, strides=[1,1,stride,stride],
    padding='SAME', data_format='NCHW')] with a filter [w] of shape
    [kh, kw, fmaps, C] and output extents [out_h, out_w]: the transpose of
    [tf.nn.conv2d] on a tensor of those extents. Input pixel (p, q)
    contributes through tap (u, v) to the output pixel the forward
    convolution reads it from. *)
Definition tf_nn_conv2d_transpose (x : SizedTensor) (w : Tensor)
    (kh kw fmaps out_h out_w stride : Z) : SizedTensor :=
  let ph := same_pad_before out_h kh stride in
  let pw := same_pad_before out_w kw stride in
  {| channels := fmaps;
     height := out_h;
     width := out_w;
     values := fun n o r s =>
       sum_to (Z.to_nat (channels x)) (fun c =>
         sum_to (Z.to_nat (height x)) (fun p =>
           sum_to (Z.to_nat (width x)) (fun q =>
             sum_to (Z.to_nat kh) (fun u =>
               sum_to (Z.to_nat kw) (fun v =>
                 if (p * stride + u - ph =? r) && (q * stride + v - pw =? s)
                 then Qcmult (w u v o c) (values x n c p q) else 0%Qc))))) |}.

(** [tf.pad(w, [[1,1], [1,1], [0,0], [0,0]], mode='CONSTANT')] of a filter
    of spatial extent [kernel]. *)
Definition pad_kernel (kernel : Z) (w : Tensor) : Tensor :=
  fun i j a b =>
    if (1 <=? i) && (i <=? kernel) && (1 <=? j) && (j <=? kernel)
    then w (i - 1) (j - 1) a b else 0%Qc.

(** [tf.add_n([w[1:, 1:], w[:-1, 1:], w[1:, :-1], w[:-1, :-1]])] *)
Definition add_shifted (w : Tensor) : Tensor :=
  fun i j a b =>
    Qcplus (Qcplus (Qcplus (w (i + 1) (j + 1) a b) (w i (j + 1) a b))
              (w (i + 1) j a b)) (w i j a b).

(** [tf.transpose(w, [0, 1, 3, 2])] *)
Definition transpose_0132 (w : Tensor) : Tensor := fun i j a b => w i j b a.

(** [assert kernel >= 1 and kernel % 2 == 1] *)
Definition assert_kernel (kernel : Z) : result unit :=
  assert ((1 <=? kernel) && (kernel mod 2 =? 1)).

(** [def conv2d(x, fmaps, kernel, ...)] with the weight [w] that
    [get_weight([kernel, kernel, x.shape[1], fmaps])] yields. *)
Definition conv2d (x : SizedTensor) (w : Tensor) (fmaps kernel : Z)
  : result SizedTensor :=
  assert_kernel kernel ;;;
  Ok (tf_nn_conv2d x w kernel kernel fmaps 1).

(** [def upscale2d(x, factor=2)] *)
Definition upscale2d (x : SizedTensor) (factor : positive) : SizedTensor :=
  if Pos.eqb factor 1 then x
  else {| channels := channels x;
          height := height x * Z.pos factor;
          width := width x * Z.pos factor;
          values := reshape_6_to_4 (tile_6 (reshape_4_to_6 (values x)) factor) factor |}.

(** [def downscale2d(x, factor=2)]; padding='VALID' keeps the whole
    windows only, and [tf.nn.avg_pool] raises a [ValueError] on a map that
    holds no whole window. *)
Definition downscale2d (x : SizedTensor) (factor : positive)
  : result SizedTensor :=
  if Pos.eqb factor 1 then Ok x
  else if (height x <? Z.pos factor) || (width x <? Z.pos factor)
  then Raise ValueError
  else Ok {| channels := channels x;
             height := (height x - Z.pos factor) / Z.pos factor + 1;
             width := (width x - Z.pos factor) / Z.pos factor + 1;
             values := avg_pool (values x) factor |}.

(** [def upscale2d_conv2d(x, fmaps, kernel, ...)] *)
Definition upscale2d_conv2d (x : SizedTensor) (w : Tensor) (fmaps kernel : Z)
  : result SizedTensor :=
  assert_kernel kernel ;;;
  let w := transpose_0132 w in
  let w := pad_kernel kernel w in
  let w := add_shifted w in
  Ok (tf_nn_conv2d_transpose x w (kernel + 1) (kernel + 1) fmaps
        (height x * 2) (width x * 2) 2).

(** [def conv2d_downscale2d(x, fmaps, kernel, ...)] *)
Definition conv2d_downscale2d (x : SizedTensor) (w : Tensor) (fmaps kernel : Z)
  : result SizedTensor :=
  assert_kernel kernel ;;;
  let w := pad_kernel kernel w in
  let w := tscale (add_shifted w) (Q2Qc (1 # 4)) in
  Ok (tf_nn_conv2d x w (kernel + 1) (kernel + 1) fmaps 2).

(** The filter rotated by 180 degrees in its spatial axes. *)
Definition flip_kernel (kernel : Z) (w : Tensor) : Tensor :=
  fun i j a b => w (kernel - 1 - i) (kernel - 1 - j) a b.

End Sized.

(** ** The feature-map schedule *)

(** Python's [int(x)] on a float: truncation towards zero. *)
Definition int_of_float (x : R) : Z :=
  if Rle_dec 0 x then Int_part x else (- Int_part (- x))%Z.

(** [def nf(stage):
       return min(int(fmap_base / (2.0 ** (stage * fmap_decay))), fmap_max)]
    over the reals. The source evaluates the expression in float64, and
    its value is the real one where every step is exact: for an integer
    [fmap_base] of at most 53 bits and an integer exponent
    [stage * fmap_decay] in [0, 1023]. Beyond that the float value is
    rounded, and from an exponent of 1024 on the power is an
    [OverflowError]; neither is rendered here. *)
Definition nf (fmap_base fmap_decay : R) (fmap_max : Z) (stage : Z) : Z :=
  Z.min (int_of_float (fmap_base / Rpower 2 (IZR stage * fmap_decay))%R) fmap_max.

(** ** Static shapes of the inputs *)

(** A static shape: the rank may be unknown, and so may any dimension. *)
Definition static_shape : Type := option (list (option Z)).

Definition dim_compatible (a b : option Z) : bool :=
  match a, b with
  | Some x, Some y => x =? y
  | _, _ => true
  end.

Fixpoint dims_compatible (a b : list (option Z)) : bool :=
  match a, b with
  | [], [] => true
  | x :: a', y :: b' => dim_compatible x y && dims_compatible a' b'
  | _, _ => false
  end.

(** A dimension TensorFlow takes: unknown, or not negative. *)
Definition dim_valid (d : option Z) : bool :=
  match d with
  | Some v => 0 <=? v
  | None => true
  end.

(** [x.set_shape(dims)]: a [ValueError] when [dims] holds a negative
    dimension, or when the static shape of [x] is not compatible with
    [dims]. *)
Definition set_shape (s : static_shape) (dims : list (option Z)) : result unit :=
  if forallb dim_valid dims then
    match s with
    | None => Ok tt
    | Some ds => if dims_compatible ds dims then Ok tt else Raise ValueError
    end
  else Raise ValueError.

(** A network input: a placeholder with its static shape and its values. *)
Record Input : Type := {
  input_shape : static_shape;
  input_values : Tensor
}.

(** ** The generator *)

Record GConfig : Type := {
  g_resolution : Z;
  g_firstblock_res : Z;
  g_label_size : Z;
  g_fmap_base : R;
  g_fmap_decay : R;
  g_fmap_max : Z;
  g_latent_size : option Z;
  g_structure : option string;
  g_is_template_graph : bool
}.

Definition g_with_structure (cfg : GConfig) (structure : string) : GConfig :=
  {| g_resolution := g_resolution cfg;
     g_firstblock_res := g_firstblock_res cfg;
     g_label_size := g_label_size cfg;
     g_fmap_base := g_fmap_base cfg;
     g_fmap_decay := g_fmap_decay cfg;
     g_fmap_max := g_fmap_max cfg;
     g_latent_size := g_latent_size cfg;
     g_structure := Some structure;
     g_is_template_graph := g_is_template_graph cfg |}.

(** [if structure is None:
       structure = 'linear' if is_template_graph else 'recursive'] *)
Definition select_structure (structure : option string) (is_template_graph : bool)
  : string :=
  match structure with
  | None => if is_template_graph then "linear"%string else "recursive"%string
  | Some s => s
  end.

(** [def G_puzzle(latents_in, labels_in, ...)], the values it computes.
    [block] and [torgb] are the inner functions of that name with the
    weights held fixed. Values are exact, so the casts to [dtype] and the
    assertion on the dtype of the output leave no trace. *)
Definition G_puzzle (block torgb : Tensor -> Z -> Tensor) (cfg : GConfig)
    (lod_in : Qc) (latents_in labels_in : Input) : result Tensor :=
  resolution_log2 <- int_log2 (g_resolution cfg) ;;
  assert ((g_resolution cfg =? 2 ^ resolution_log2) && (4 <=? g_resolution cfg)) ;;;
  let latent_size :=
    match g_latent_size cfg with
    | None => nf (g_fmap_base cfg) (g_fmap_decay cfg) (g_fmap_max cfg) 0
    | Some n => n
    end in
  let structure := select_structure (g_structure cfg) (g_is_template_graph cfg) in
  firstblock_res_log2 <- int_log2 (g_firstblock_res cfg) ;;
  set_shape (input_shape latents_in) [None; Some latent_size] ;;;
  set_shape (input_shape labels_in) [None; Some (g_label_size cfg)] ;;;
  let combo_in := input_values latents_in in
  let images_out : option Tensor := None in
  images_out <-
    (if String.eqb structure "linear"
     then Ok (Some (G.linear block torgb resolution_log2 firstblock_res_log2
                      lod_in combo_in))
     else Ok images_out) ;;
  images_out <-
    (if String.eqb structure "recursive"
     then match G.recursive block torgb resolution_log2 firstblock_res_log2
                  lod_in combo_in with
          | Some t => Ok (Some t)
          | None => Raise AssertionError
          end
     else Ok images_out) ;;
  match images_out with
  | Some t => Ok t
  | None => Raise AttributeError
  end.

(** ** The discriminator *)

Record DConfig : Type := {
  d_num_channels : Z;
  d_resolution : Z;
  d_firstblock_res : Z;
  d_label_size : Z;
  d_structure : option string;
  d_is_template_graph : bool
}.

Definition d_with_structure (cfg : DConfig) (structure : string) : DConfig :=
  {| d_num_channels := d_num_channels cfg;
     d_resolution := d_resolution cfg;
     d_firstblock_res := d_firstblock_res cfg;
     d_label_size := d_label_size cfg;
     d_structure := Some structure;
     d_is_template_graph := d_is_template_graph cfg |}.

(** [def D_puzzle(images_in, labels_in, ...)], the values it computes. *)
Definition D_puzzle (fromrgb block : Tensor -> Z -> Tensor) (cfg : DConfig)
    (lod_in : Qc) (images_in labels_in : Input) : result Tensor :=
  resolution_log2 <- int_log2 (d_resolution cfg) ;;
  assert ((d_resolution cfg =? 2 ^ resolution_log2) && (4 <=? d_resolution cfg)) ;;;
  let structure := select_structure (d_structure cfg) (d_is_template_graph cfg) in
  firstblock_res_log2 <- int_log2 (d_firstblock_res cfg) ;;
  set_shape (input_shape images_in)
    [None; Some (d_num_channels cfg); Some (d_resolution cfg);
     Some (d_resolution cfg)] ;;;
  set_shape (input_shape labels_in) [None; Some (d_label_size cfg)] ;;;
  let images_in := input_values images_in in
  (* [labels_in = tf.cast(labels_in, dtype)]: the last use of the labels *)
  let labels_in := input_values labels_in in
  let scores_out : option Tensor := None in
  scores_out <-
    (if String.eqb structure "linear"
     then Ok (Some (D.linear fromrgb block resolution_log2 firstblock_res_log2
                      lod_in images_in))
     else Ok scores_out) ;;
  scores_out <-
    (if String.eqb structure "recursive"
     then match D.recursive fromrgb block resolution_log2 firstblock_res_log2
                  lod_in images_in with
          | Some t => Ok (Some t)
          | None => Raise AssertionError
          end
     else Ok scores_out) ;;
  match scores_out with
  | Some t => Ok t
  | None => Raise AttributeError
  end.

(** ** Graph construction over static shapes *)

Module Build.

(** A static shape; [None] is a dimension unknown until run time (the
    minibatch). *)
Definition shape : Type := list (option Z).

(** An operation issued to TensorFlow: its name and the static shape of
    its output. *)
Definition op : Type := (string * shape)%type.

(** Graph construction: a result (or the exception raised) together with
    the operations issued up to it, in order. *)
Definition M (A : Type) : Type := (result A * list op)%type.

Definition ret {A : Type} (a : A) : M A := (Ok a, []).

Definition raise {A : Type} (e : error) : M A := (Raise e, []).

Definition bind {A B : Type} (m : M A) (k : A -> M B) : M B :=
  match m with
  | (inl e, log) => (inl e, log)
  | (inr a, log) => let '(r, log') := k a in (r, log ++ log')
  end.

(** Issue the operation [name]; its output has shape [out]. *)
Definition tf (name : string) (out : shape) : M shape :=
  (Ok out, [(name, out)]).

End Build.

Notation "x <~ m ;; k" := (Build.bind m (fun x => k))
  (at level 61, m at next level, right associativity).
Notation "m ;;~ k" := (Build.bind m (fun _ => k))
  (at level 61, right associativity).

Module BuildLayers.

Import Build.

Definition assertM (b : bool) : M unit :=
  if b then ret tt else raise AssertionError.

(** [x.shape[i]] for a known rank. *)
Definition dim (x : shape) (i : nat) : M (option Z) :=
  match nth_error x i with
  | Some d => ret d
  | None => raise IndexError
  end.

(** [x.shape[i].value] where an integer is needed. *)
Definition dim_value (x : shape) (i : nat) : M Z :=
  d <~ dim x i ;;
  match d with
  | Some v => ret v
  | None => raise TypeError
  end.

(** [np.prod] of a list of integers. *)
Definition prod (l : list Z) : Z := fold_right Z.mul 1 l.

(** What [get_weight] hands back: the variable's shape and the fan-in its
    initial scale [std = gain / sqrt(fan_in)] is computed from. *)
Record weight : Type := {
  w_shape : list Z;
  w_fan_in : Z
}.

(** [tf.get_variable(name, shape=shape, ...)] of a variable that does not
    exist yet: a [ValueError] on a negative dimension. *)
Definition get_variable (shp : list Z) : M shape :=
  if forallb (fun d => 0 <=? d) shp then tf "tf.get_variable" (map Some shp)
  else raise ValueError.

(** [def get_weight(shape, gain=np.sqrt(2), use_wscale=False)];
    [shape[:-1]] is [removelast shape]. *)
Definition get_weight (shp : list Z) (use_wscale : bool) : M weight :=
  let fan_in := prod (removelast shp) in
  (if use_wscale
   then tf "tf.constant" [] ;;~
        get_variable shp ;;~
        tf "tf.multiply" (map Some shp)
   else get_variable shp) ;;~
  ret {| w_shape := shp; w_fan_in := fan_in |}.

(** The product of the known dimensions, if all are known. *)
Fixpoint known_prod (s : shape) : option Z :=
  match s with
  | [] => Some 1
  | Some d :: s' => option_map (Z.mul d) (known_prod s')
  | None :: _ => None
  end.

(** [def dense(x, fmaps, gain, use_wscale)] *)
Definition dense (x : shape) (fmaps : Z) (use_wscale : bool) : M shape :=
  x <~ (if (2 <? List.length x)%nat
        then match known_prod (tl x) with
             | Some n => tf "tf.reshape" [None; Some n]
             | None => raise TypeError
             end
        else ret x) ;;
  fan <~ dim_value x 1 ;;
  get_weight [fan; fmaps] use_wscale ;;~
  tf "tf.cast" [Some fan; Some fmaps] ;;~
  match x with
  | [n; _] => tf "tf.matmul" [n; Some fmaps]
  | _ => raise ValueError
  end.

(** [def conv2d(x, fmaps, kernel, gain, use_wscale)]; [tf.nn.conv2d]
    takes an input of rank 4 only. *)
Definition conv2d (x : shape) (fmaps kernel : Z) (use_wscale : bool) : M shape :=
  assertM ((1 <=? kernel) && (kernel mod 2 =? 1)) ;;~
  cin <~ dim_value x 1 ;;
  get_weight [kernel; kernel; cin; fmaps] use_wscale ;;~
  tf "tf.cast" [Some kernel; Some kernel; Some cin; Some fmaps] ;;~
  match x with
  | [n; _; h; w] => tf "tf.nn.conv2d" [n; Some fmaps; h; w]
  | _ => raise ValueError
  end.

(** [def apply_bias(x)] *)
Definition apply_bias (x : shape) : M shape :=
  c <~ dim x 1 ;;
  tf "tf.get_variable" [c] ;;~
  tf "tf.cast" [c] ;;~
  if (List.length x =? 2)%nat then tf "tf.add" x
  else
    tf "tf.reshape" [Some 1; c; Some 1; Some 1] ;;~
    match x with
    | [_; _; _; _] => tf "tf.add" x
    | _ => raise ValueError
    end.

(** [def leaky_relu(x, alpha=0.2)] *)
Definition leaky_relu (x : shape) : M shape :=
  tf "tf.constant" [] ;;~
  tf "tf.multiply" x ;;~
  tf "tf.maximum" x.

(** [tf.nn.relu] *)
Definition relu (x : shape) : M shape := tf "tf.nn.relu" x.

(** [def pixel_norm(x, epsilon=1e-8)] *)
Definition pixel_norm (x : shape) : M shape :=
  tf "tf.square" x ;;~
  match x with
  | n :: _ :: rest =>
      tf "tf.reduce_mean" (n :: Some 1 :: rest) ;;~
      tf "tf.add" (n :: Some 1 :: rest) ;;~
      tf "tf.rsqrt" (n :: Some 1 :: rest) ;;~
      tf "tf.multiply" x
  | _ => raise ValueError
  end.

Definition dim_mul (d : option Z) (f : Z) : option Z := option_map (fun v => v * f) d.

(** [def upscale2d(x, factor=2)] *)
Definition upscale2d (x : shape) (factor : Z) : M shape :=
  assertM (1 <=? factor) ;;~
  if factor =? 1 then ret x
  else
    match x with
    | [n; c; h; w] =>
        tf "tf.reshape" [None; c; h; Some 1; w; Some 1] ;;~
        tf "tf.tile" [None; c; h; Some factor; w; Some factor] ;;~
        tf "tf.reshape" [None; c; dim_mul h factor; dim_mul w factor]
    | _ => raise IndexError
    end.

(** [def upscale2d_conv2d(x, fmaps, kernel, gain, use_wscale)] *)
Definition upscale2d_conv2d (x : shape) (fmaps kernel : Z) (use_wscale : bool)
  : M shape :=
  assertM ((1 <=? kernel) && (kernel mod 2 =? 1)) ;;~
  cin <~ dim_value x 1 ;;
  get_weight [kernel; kernel; cin; fmaps] use_wscale ;;~
  tf "tf.transpose" [Some kernel; Some kernel; Some fmaps; Some cin] ;;~
  tf "tf.pad" [Some (kernel + 2); Some (kernel + 2); Some fmaps; Some cin] ;;~
  tf "tf.add_n" [Some (kernel + 1); Some (kernel + 1); Some fmaps; Some cin] ;;~
  tf "tf.cast" [Some (kernel + 1); Some (kernel + 1); Some fmaps; Some cin] ;;~
  match x with
  | [n; _; h; w] =>
      tf "tf.shape" [Some 4] ;;~
      tf "tf.nn.conv2d_transpose" [n; Some fmaps; dim_mul h 2; dim_mul w 2]
  | _ => raise IndexError
  end.

End BuildLayers.

Module BuildG.

Import Build BuildLayers.

(** Broadcasting of two dimensions. *)
Definition broadcast_dim (a b : option Z) : M (option Z) :=
  match a, b with
  | Some x, Some y =>
      if x =? y then ret (Some x)
      else if x =? 1 then ret (Some y)
      else if y =? 1 then ret (Some x)
      else raise ValueError
  | Some x, None => if x =? 1 then ret None else ret (Some x)
  | None, Some y => if y =? 1 then ret None else ret (Some y)
  | None, None => ret None
  end.

(** Broadcasting of two shapes given innermost dimension first. *)
Fixpoint broadcast_rev (a b : shape) : M shape :=
  match a, b with
  | [], _ => ret b
  | _, [] => ret a
  | x :: a', y :: b' =>
      d <~ broadcast_dim x y ;;
      r <~ broadcast_rev a' b' ;;
      ret (d :: r)
  end.

(** An elementwise binary operation. *)
Definition binary (name : string) (a b : shape) : M shape :=
  r <~ broadcast_rev (rev a) (rev b) ;;
  tf name (rev r).

(** [def lerp(a, b, t): return a + (b - a) * t] *)
Definition lerp (a b t : shape) : M shape :=
  d <~ binary "tf.subtract" b a ;;
  m <~ binary "tf.multiply" d t ;;
  binary "tf.add" a m.

(** [def lerp_clip(a, b, t)] *)
Definition lerp_clip (a b t : shape) : M shape :=
  d <~ binary "tf.subtract" b a ;;
  c <~ tf "tf.clip_by_value" t ;;
  m <~ binary "tf.multiply" d c ;;
  binary "tf.add" a m.

(** Two dimensions that must agree. *)
Definition merge_dim (a b : option Z) : M (option Z) :=
  match a, b with
  | Some x, Some y => if x =? y then ret (Some x) else raise ValueError
  | Some x, None => ret (Some x)
  | None, _ => ret b
  end.

Definition add_dim (a b : option Z) : option Z :=
  match a, b with
  | Some x, Some y => Some (x + y)
  | _, _ => None
  end.

(** Two shapes that must agree. *)
Fixpoint merge_shape (a b : shape) : M shape :=
  match a, b with
  | [], [] => ret []
  | x :: a', y :: b' =>
      d <~ merge_dim x y ;; r <~ merge_shape a' b' ;; ret (d :: r)
  | _, _ => raise ValueError
  end.

(** The shape of two tensors joined along [axis]. *)
Fixpoint concat2 (a b : shape) (axis : nat) : M shape :=
  match a, b with
  | x :: a', y :: b' =>
      match axis with
      | O => r <~ merge_shape a' b' ;; ret (add_dim x y :: r)
      | S n => d <~ merge_dim x y ;; r <~ concat2 a' b' n ;; ret (d :: r)
      end
  | _, _ => raise ValueError
  end.

(** [tf.concat(values, axis)] *)
Definition concat (values : list shape) (axis : nat) : M shape :=
  match values with
  | [] => raise ValueError
  | v :: vs =>
      r <~ fold_left (fun acc x => a <~ acc ;; concat2 a x axis) vs (ret v) ;;
      tf "tf.concat" r
  end.

(** [tf.slice(x, [0, s], [-1, size])] of a matrix. While the graph is
    built a [size >= 0] is taken as the extent of the result, whatever the
    extent of [x]; [size = -1] stands for what is left from [s] on, and a
    lower [size] is a [ValueError]. *)
Definition slice (x : shape) (s size : Z) : M shape :=
  match x with
  | [n; d] =>
      if 0 <=? size then tf "tf.slice" [n; Some size]
      else if size =? -1 then
        match d with
        | Some l =>
            if s <=? l then tf "tf.slice" [n; Some (l - s)] else raise ValueError
        | None => tf "tf.slice" [n; None]
        end
      else raise ValueError
  | _ => raise ValueError
  end.

(** [tf.reshape(x, [-1, c, h, w])] *)
Definition reshape4 (x : shape) (c h w : Z) : M shape :=
  match known_prod x with
  | Some total =>
      if (c * h * w =? 0) || negb (total mod (c * h * w) =? 0)
      then raise ValueError
      else tf "tf.reshape" [Some (total / (c * h * w)); Some c; Some h; Some w]
  | None => tf "tf.reshape" [None; Some c; Some h; Some w]
  end.

Section Generator.

(** The keyword arguments of [G_puzzle] that graph construction reads;
    [nf] is the schedule they determine. *)
Variable nf : Z -> Z.
Variable num_channels : Z.
Variable mode : option string.
Variable latents_sizes : list Z.
Variables normalize_latents use_wscale use_pixelnorm use_leakyrelu fused_scale : bool.
Variables resolution_log2 firstblock_res_log2 : Z.

(** [def PN(x)] *)
Definition PN (x : shape) : M shape :=
  if use_pixelnorm then pixel_norm x else ret x.

(** [act = leaky_relu if use_leakyrelu else tf.nn.relu] *)
Definition act (x : shape) : M shape :=
  if use_leakyrelu then leaky_relu x else relu x.

(** The loop of [first_layer] over [latents_sizes]; [z] is unbound until
    its first iteration. *)
Fixpoint slices (x : shape) (sizes : list Z) (s : Z) (z : option (list shape))
  : M (option (list shape)) :=
  match sizes with
  | [] => ret z
  | size :: sizes' =>
      t <~ slice x s size ;;
      slices x sizes' (s + size)
        (Some (match z with Some l => l ++ [t] | None => [t] end))
  end.

(** [z[i]] *)
Definition z_at (z : option (list shape)) (i : nat) : M shape :=
  match z with
  | None => raise NameError
  | Some l =>
      match nth_error l i with
      | Some t => ret t
      | None => raise IndexError
      end
  end.

(** One tile: [dense(z[i], fmaps=nf(res-1)*n, ...)] reshaped to
    [[-1, nf(res-1), h, w]]. *)
Definition tile (z : option (list shape)) (res : Z) (i : nat) (n h w : Z) : M shape :=
  zi <~ z_at z i ;;
  x <~ dense zi (nf (res - 1) * n) use_wscale ;;
  reshape4 x (nf (res - 1)) h w.

Definition mode_is (m : string) : bool :=
  match mode with
  | Some s => String.eqb s m
  | None => false
  end.

(** [def first_layer(x, mode, res)] *)
Definition first_layer (x : shape) (res : Z) : M shape :=
  z <~ slices x latents_sizes 0 None ;;
  x <~ (if mode_is "2parts-faces" then
          x11 <~ tile z res 0 16 2 8 ;;
          x12 <~ tile z res 0 8 4 2 ;;
          x13 <~ tile z res 0 16 2 8 ;;
          x14 <~ tile z res 0 8 4 2 ;;
          x2 <~ tile z res 1 16 4 4 ;;
          mid <~ concat [x12; x2; x14] 3 ;;
          concat [x11; mid; x13] 2
        else ret x) ;;
  x <~ (if mode_is "5parts-faces" then
          x11 <~ tile z res 0 16 8 2 ;;
          x12 <~ tile z res 0 4 1 4 ;;
          x13 <~ tile z res 0 16 8 2 ;;
          x2 <~ tile z res 1 8 2 4 ;;
          x3 <~ tile z res 2 8 2 4 ;;
          x4 <~ tile z res 3 4 2 2 ;;
          x51 <~ tile z res 4 3 3 1 ;;
          x52 <~ tile z res 4 2 1 2 ;;
          x53 <~ tile z res 4 3 3 1 ;;
          c <~ concat [x4; x52] 2 ;;
          x <~ concat [x51; c; x53] 3 ;;
          x <~ concat [x12; x2; x3; x] 2 ;;
          concat [x11; x; x13] 3
        else ret x) ;;
  x <~ (if mode_is "2parts-bedrooms" then
          x1 <~ tile z res 0 32 4 8 ;;
          x2 <~ tile z res 1 32 4 8 ;;
          concat [x1; x2] 2
        else ret x) ;;
  x <~ (if mode_is "4parts-digits" then
          x1 <~ tile z res 0 64 8 8 ;;
          x2 <~ tile z res 1 64 8 8 ;;
          x3 <~ tile z res 2 64 8 8 ;;
          x4 <~ tile z res 3 64 8 8 ;;
          top <~ concat [x1; x2] 3 ;;
          bottom <~ concat [x3; x4] 3 ;;
          concat [top; bottom] 2
        else ret x) ;;
  x <~ apply_bias x ;;
  x <~ act x ;;
  PN x.

(** A convolution followed by [PN(act(apply_bias(x)))]. *)
Definition conv_act (x : shape) (res : Z) : M shape :=
  x <~ conv2d x (nf (res - 1)) 3 use_wscale ;;
  x <~ apply_bias x ;;
  x <~ act x ;;
  PN x.

(** [def block(x, res)] *)
Definition block (x : shape) (res : Z) : M shape :=
  if res =? firstblock_res_log2 then
    x <~ (if normalize_latents then pixel_norm x else ret x) ;;
    x <~ first_layer x res ;;
    conv_act x res
  else
    x <~ (if fused_scale then
            x <~ upscale2d_conv2d x (nf (res - 1)) 3 use_wscale ;;
            x <~ apply_bias x ;;
            x <~ act x ;;
            PN x
          else
            x <~ upscale2d x 2 ;;
            conv_act x res) ;;
    conv_act x res.

(** [def torgb(x, res)] *)
Definition torgb (x : shape) (res : Z) : M shape :=
  x <~ conv2d x num_channels 1 use_wscale ;;
  apply_bias x.

(** [tf.cond(pred, true_fn, false_fn)]: both branches are constructed,
    the true one first; a dimension the branches disagree on is unknown in
    the result. *)
Definition cond (true_fn false_fn : M shape) : M shape :=
  a <~ true_fn ;;
  b <~ false_fn ;;
  tf "tf.cond"
    (if (List.length a =? List.length b)%nat
     then map (fun p => match p with
                        | (Some x, Some y) => if x =? y then Some x else None
                        | _ => None
                        end) (combine a b)
     else []).

(** [def cset(cur_lambda, new_cond, new_lambda)] *)
Definition cset (cur_lambda : M shape) (new_lambda : M shape) : M shape :=
  cond new_lambda cur_lambda.

(** The body of the loop of the linear structure. *)
Definition linear_step (st : shape * shape) (res : Z) : M (shape * shape) :=
  let '(x, images_out) := st in
  x <~ block x res ;;
  img <~ torgb x res ;;
  images_out <~ upscale2d images_out 2 ;;
  t <~ binary "tf.subtract" [] [] ;;
  images_out <~ lerp_clip img images_out t ;;
  ret (x, images_out).

(** [if structure == 'linear': ...] *)
Definition linear (combo_in : shape) : M shape :=
  x <~ block combo_in firstblock_res_log2 ;;
  images_out <~ torgb x firstblock_res_log2 ;;
  st <~ fold_left (fun acc res => st <~ acc ;; linear_step st res)
          (range (firstblock_res_log2 + 1) (resolution_log2 + 1))
          (ret (x, images_out)) ;;
  ret (snd st).

(** [def grow(x, res, lod)] for [lod >= 0]. Both branches of a [tf.cond]
    are built, so [torgb] is built more than once for a stage. Variables
    are not named here: [get_variable] is taken to create its variable or
    to find it, as in a variable scope that reuses variables. In a scope
    that does not, the second [torgb] of a stage is refused; what is said
    of the recursive structure below is said of builds that stop before
    that. *)
Fixpoint grow (lod : nat) (x : shape) (res : Z) : M shape :=
  y <~ block x res ;;
  let img : M shape :=
    t <~ torgb y res ;; upscale2d t (2 ^ Z.of_nat lod) in
  img <~ (if firstblock_res_log2 <? res
          then tf "tf.greater" [] ;;~
               ret (cset img
                      (a <~ torgb y res ;;
                       b <~ torgb x (res - 1) ;;
                       b <~ upscale2d b 2 ;;
                       t <~ binary "tf.subtract" [] [] ;;
                       l <~ lerp a b t ;;
                       upscale2d l (2 ^ Z.of_nat lod)))
          else ret img) ;;
  img <~ match lod with
         | S lod' => tf "tf.less" [] ;;~
                     ret (cset img (grow lod' y (res + 1)))
         | O => ret img
         end ;;
  img.

(** [if structure == 'recursive': ...]; with a negative [lod] the factor
    [2**lod] is a float and [upscale2d] rejects it, after the block and its
    projection have been built. *)
Definition recursive (combo_in : shape) : M shape :=
  let lod := resolution_log2 - firstblock_res_log2 in
  if lod <? 0 then
    y <~ block combo_in firstblock_res_log2 ;;
    torgb y firstblock_res_log2 ;;~
    raise AssertionError
  else grow (Z.to_nat lod) combo_in firstblock_res_log2.

End Generator.

(** A failure before graph construction starts. *)
Definition lift {A : Type} (r : result A) : M A :=
  match r with
  | inl e => raise e
  | inr a => ret a
  end.

(** The static shape of an input after [set_shape(dims)]. *)
Definition shape_after_set_shape (s : static_shape) (dims : shape) : shape :=
  match s with
  | None => dims
  | Some ds =>
      map (fun p => match p with
                    | (Some x, _) => Some x
                    | (None, d) => d
                    end) (combine ds dims)
  end.

(** [def G_puzzle(latents_in, labels_in, ...)], the graph it constructs. *)
Definition G_puzzle (nf : Z -> Z) (num_channels : Z) (mode : option string)
    (latents_sizes : list Z) (firstblock_res resolution label_size : Z)
    (latent_size : option Z)
    (normalize_latents use_wscale use_pixelnorm use_leakyrelu fused_scale : bool)
    (structure : option string) (is_template_graph : bool)
    (latents_in labels_in : static_shape) : M shape :=
  resolution_log2 <~ lift (int_log2 resolution) ;;
  assertM ((resolution =? 2 ^ resolution_log2) && (4 <=? resolution)) ;;~
  let latent_size := match latent_size with None => nf 0 | Some n => n end in
  let structure := select_structure structure is_template_graph in
  firstblock_res_log2 <~ lift (int_log2 firstblock_res) ;;
  lift (set_shape latents_in [None; Some latent_size]) ;;~
  lift (set_shape labels_in [None; Some label_size]) ;;~
  combo_in <~ tf "tf.cast"
                (shape_after_set_shape latents_in [None; Some latent_size]) ;;
  tf "tf.get_variable" [] ;;~
  tf "tf.cast" [] ;;~
  let images_out : option shape := None in
  images_out <~
    (if String.eqb structure "linear"
     then t <~ linear nf num_channels mode latents_sizes normalize_latents
                 use_wscale use_pixelnorm use_leakyrelu fused_scale
                 resolution_log2 firstblock_res_log2 combo_in ;;
          ret (Some t)
     else ret images_out) ;;
  images_out <~
    (if String.eqb structure "recursive"
     then t <~ recursive nf num_channels mode latents_sizes normalize_latents
                 use_wscale use_pixelnorm use_leakyrelu fused_scale
                 resolution_log2 firstblock_res_log2 combo_in ;;
          ret (Some t)
     else ret images_out) ;;
  match images_out with
  | Some t => tf "tf.identity" t
  | None => raise AttributeError
  end.

End BuildG.

(** ** The puzzle: where the tiles of [first_layer] land *)

Module Layout.

(** A pixel of the seed feature map, named by the tile it comes from (the
    variable scope of its dense layer) and its position in that tile. *)
Definition cell : Type := (string * Z * Z)%type.

(** The spatial axes (H, W) of a tensor, row by row. *)
Definition grid : Type := list (list cell).

(** [tf.reshape(dense(...), [-1, nf(res-1), h, w])] under
    [tf.variable_scope(name)]: entry (i, j) of the tile. *)
Definition tile (name : string) (h w : Z) : grid :=
  map (fun i => map (fun j => (name, i, j)) (range 0 w)) (range 0 h).

Definition height (g : grid) : nat := List.length g.
Definition width (g : grid) : nat :=
  match g with
  | [] => 0%nat
  | row :: _ => List.length row
  end.

(** [tf.concat((a, b), axis=2)]: [b] below [a]; the widths must agree. *)
Definition below (a b : grid) : option grid :=
  if (width a =? width b)%nat then Some (a ++ b) else None.

(** [tf.concat((a, b), axis=3)]: [b] to the right of [a]; the heights must
    agree. *)
Definition beside (a b : grid) : option grid :=
  if (height a =? height b)%nat
  then Some (map (fun p => fst p ++ snd p) (combine a b))
  else None.

(** [tf.concat(values, axis)] for [axis] 2 or 3. *)
Definition concat (values : list grid) (axis : nat) : option grid :=
  match values with
  | [] => None
  | v :: vs =>
      fold_left (fun acc x =>
                   match acc with
                   | Some a => if (axis =? 2)%nat then below a x else beside a x
                   | None => None
                   end) vs (Some v)
  end.

Definition obind {A B : Type} (m : option A) (k : A -> option B) : option B :=
  match m with
  | Some a => k a
  | None => None
  end.

(** The tiles [first_layer] builds in a mode: scope, height and width. *)
Definition tiles (mode : string) : list (string * Z * Z) :=
  if String.eqb mode "2parts-faces" then
    [("Dense11", 2, 8); ("Dense12", 4, 2); ("Dense13", 2, 8); ("Dense14", 4, 2);
     ("Dense2", 4, 4)]%string
  else if String.eqb mode "5parts-faces" then
    [("Dense11", 8, 2); ("Dense12", 1, 4); ("Dense13", 8, 2); ("Dense2", 2, 4);
     ("Dense3", 2, 4); ("Dense4", 2, 2); ("Dense51", 3, 1); ("Dense52", 1, 2);
     ("Dense53", 3, 1)]%string
  else if String.eqb mode "2parts-bedrooms" then
    [("Dense1", 4, 8); ("Dense2", 4, 8)]%string
  else if String.eqb mode "4parts-digits" then
    [("Dense1", 8, 8); ("Dense2", 8, 8); ("Dense3", 8, 8); ("Dense4", 8, 8)]%string
  else [].

(** The seed feature map [first_layer] assembles in a mode, by the
    [tf.concat] calls of that mode. *)
Definition first_layer (mode : string) : option grid :=
  if String.eqb mode "2parts-faces" then
    let x11 := tile "Dense11" 2 8 in
    let x12 := tile "Dense12" 4 2 in
    let x13 := tile "Dense13" 2 8 in
    let x14 := tile "Dense14" 4 2 in
    let x2 := tile "Dense2" 4 4 in
    obind (concat [x12; x2; x14] 3) (fun mid =>
    concat [x11; mid; x13] 2)
  else if String.eqb mode "5parts-faces" then
    let x11 := tile "Dense11" 8 2 in
    let x12 := tile "Dense12" 1 4 in
    let x13 := tile "Dense13" 8 2 in
    let x2 := tile "Dense2" 2 4 in
    let x3 := tile "Dense3" 2 4 in
    let x4 := tile "Dense4" 2 2 in
    let x51 := tile "Dense51" 3 1 in
    let x52 := tile "Dense52" 1 2 in
    let x53 := tile "Dense53" 3 1 in
    obind (concat [x4; x52] 2) (fun c =>
    obind (concat [x51; c; x53] 3) (fun x =>
    obind (concat [x12; x2; x3; x] 2) (fun x =>
    concat [x11; x; x13] 3)))
  else if String.eqb mode "2parts-bedrooms" then
    let x1 := tile "Dense1" 4 8 in
    let x2 := tile "Dense2" 4 8 in
    concat [x1; x2] 2
  else if String.eqb mode "4parts-digits" then
    let x1 := tile "Dense1" 8 8 in
    let x2 := tile "Dense2" 8 8 in
    let x3 := tile "Dense3" 8 8 in
    let x4 := tile "Dense4" 8 8 in
    obind (concat [x1; x2] 3) (fun top =>
    obind (concat [x3; x4] 3) (fun bottom =>
    concat [top; bottom] 2))
  else None.

(** The pixel at row [r], column [c]. *)
Definition at_ (g : grid) (r c : Z) : option cell :=
  if (r <? 0) || (c <? 0) then None
  else obind (nth_error g (Z.to_nat r)) (fun row => nth_error row (Z.to_nat c)).

Definition cell_eqb (a b : cell) : bool :=
  let '(n1, i1, j1) := a in
  let '(n2, i2, j2) := b in
  String.eqb n1 n2 && (i1 =? i2) && (j1 =? j2).

(** The supported modes. *)
Definition supported_modes : list string :=
  ["2parts-faces"; "5parts-faces"; "2parts-bedrooms"; "4parts-digits"]%string.

(** Tile [t] lies in the grid with its first pixel at (r0, c0). *)
Definition placed (g : grid) (t : string * Z * Z) (r0 c0 : Z) : Prop :=
  let '(name, h, w) := t in
  forall i j, 0 <= i < h -> 0 <= j < w ->
    at_ g (r0 + i) (c0 + j) = Some (name, i, j).

(** Pixel (r, c) lies in the rectangle of tile [t] put at (r0, c0). *)
Definition inside (t : string * Z * Z) (r0 c0 r c : Z) : Prop :=
  let '(_, h, w) := t in r0 <= r < r0 + h /\ c0 <= c < c0 + w.

(** Decision procedures for the two, and the search for the first pixel
    of a tile. *)
Definition placed_b (g : grid) (t : string * Z * Z) (r0 c0 : Z) : bool :=
  let '(name, h, w) := t in
  forallb (fun i =>
    forallb (fun j =>
      match at_ g (r0 + i) (c0 + j) with
      | Some c => cell_eqb c (name, i, j)
      | None => false
      end) (range 0 w)) (range 0 h).

Definition inside_b (t : string * Z * Z) (r0 c0 r c : Z) : bool :=
  let '(_, h, w) := t in
  (r0 <=? r) && (r <? r0 + h) && (c0 <=? c) && (c <? c0 + w).

Definition pixels (side : Z) : list (Z * Z) :=
  list_prod (range 0 side) (range 0 side).

Definition origin (g : grid) (side : Z) (name : string) : option (Z * Z) :=
  find (fun p => match at_ g (fst p) (snd p) with
                 | Some c => cell_eqb c (name, 0, 0)
                 | None => false
                 end) (pixels side).

(** Every tile of the list lies in the grid as a rectangle. *)
Definition tiles_placed_b (g : grid) (side : Z) (ts : list (string * Z * Z)) : bool :=
  forallb (fun t =>
    match origin g side (fst (fst t)) with
    | Some (r0, c0) => placed_b g t r0 c0
    | None => false
    end) ts.

(** Every pixel of the [side] x [side] map lies in the rectangle of a tile
    of the list. *)
Definition covered_b (g : grid) (side : Z) (ts : list (string * Z * Z)) : bool :=
  forallb (fun p =>
    existsb (fun t =>
      match origin g side (fst (fst t)) with
      | Some (r0, c0) => placed_b g t r0 c0 && inside_b t r0 c0 (fst p) (snd p)
      | None => false
      end) ts) (pixels side).

(** The side of the seed feature map of a mode. *)
Definition side (mode : string) : Z :=
  if String.eqb mode "4parts-digits" then 16 else 8.

(** The tiles [ts] partition the [s] x [s] grid [g]: each tile lies in it
    as a rectangle, every pixel lies in the rectangle of a tile, and two
    rectangles that share a pixel belong to the same tile. *)
Definition exact_partition (g : grid) (s : Z) (ts : list (string * Z * Z)) : Prop :=
  (forall t, In t ts -> exists r0 c0, placed g t r0 c0) /\
  (forall r c, 0 <= r < s -> 0 <= c < s ->
     exists t r0 c0, In t ts /\ placed g t r0 c0 /\ inside t r0 c0 r c) /\
  (forall t1 t2 r1 c1 r2 c2 r c,
     In t1 ts -> In t2 ts ->
     placed g t1 r1 c1 -> placed g t2 r2 c2 ->
     inside t1 r1 c1 r c -> inside t2 r2 c2 r c -> t1 = t2).

(** The scopes of the tiles are pairwise different. *)
Definition distinct_names_b (ts : list (string * Z * Z)) : bool :=
  forallb (fun t1 =>
    forallb (fun t2 =>
      negb (String.eqb (fst (fst t1)) (fst (fst t2)))
      || (let '(_, h1, w1) := t1 in
          let '(_, h2, w2) := t2 in (h1 =? h2) && (w1 =? w2))) ts) ts.

End Layout.

(** ** Activation and normalisation, on values *)

(** [def leaky_relu(x, alpha=0.2)]: [tf.maximum(x * alpha, x)] *)
Definition leaky_relu (x : Tensor) (alpha : Qc) : Tensor :=
  fun n c h w => qmax (x n c h w * alpha)%Qc (x n c h w).

(** The values of a tensor over the reals, by NCHW index ([tf.rsqrt] leaves
    the rationals). *)
Definition RTensor : Type := Z -> Z -> Z -> Z -> R.

(** The sum of [g 0 .. g (n-1)] over the reals. *)
Fixpoint rsum_to (n : nat) (g : Z -> R) : R :=
  match n with
  | O => 0%R
  | S k => (rsum_to k g + g (Z.of_nat k))%R
  end.

(** [tf.square(x)] *)
Definition rsquare (x : RTensor) : RTensor :=
  fun n c h w => (x n c h w * x n c h w)%R.

(** [tf.reduce_mean(x, axis=1, keepdims=True)] of a tensor with [channels]
    feature maps. *)
Definition reduce_mean_1 (channels : nat) (x : RTensor) : RTensor :=
  fun n _ h w => (rsum_to channels (fun c => x n c h w) / INR channels)%R.

(** [def pixel_norm(x, epsilon=1e-8)]:
    [x * tf.rsqrt(tf.reduce_mean(tf.square(x), axis=1, keepdims=True) + epsilon)];
    the mean has one channel, which the product broadcasts. *)
Definition pixel_norm (channels : nat) (x : RTensor) (epsilon : R) : RTensor :=
  fun n c h w =>
    (x n c h w * / sqrt (reduce_mean_1 channels (rsquare x) n 0%Z h w + epsilon))%R.

(** ** The chunks of the latent vector a mode reads *)

(** One more than the highest index [i] of a [z[i]] that [first_layer]
    reads in a mode. *)
Definition chunks_read (mode : string) : nat :=
  if String.eqb mode "2parts-faces" then 2
  else if String.eqb mode "5parts-faces" then 5
  else if String.eqb mode "2parts-bedrooms" then 2
  else if String.eqb mode "4parts-digits" then 4
  else 0.

(** ** Minibatch standard deviation, on values *)

(** [tf.reduce_mean] over an axis of extent [n]. *)
Definition rmean_to (n : nat) (g : Z -> R) : R := (rsum_to n g / INR n)%R.

(** [def minibatch_stddev_layer(x, group_size=4, num_new_features=1)] on a
    minibatch of [N] samples with [C] feature maps of [H] x [W] pixels.
    The reshape to [[G, M, n, c, H, W]] makes sample [g * M + m] member [g]
    of group [m] and feature map [j * c + k] map [k] of new feature [j];
    it has no result unless the samples split into groups of [G] and the
    feature maps into [n] sets. The tiling gives sample [s] the statistic of
    group [s mod M]. *)
Definition minibatch_stddev_layer (N C H W : Z) (x : RTensor)
    (group_size num_new_features : Z) : option RTensor :=
  let G := Z.min group_size N in
  let n := num_new_features in
  if (0 <? G) && (N mod G =? 0) && (0 <? n) && (C mod n =? 0) then
    let M := N / G in
    let c := C / n in
    let y := fun g m j k h w => x (g * M + m) (j * c + k) h w in
    let y := fun g m j k h w =>
      (y g m j k h w - rmean_to (Z.to_nat G) (fun g' => y g' m j k h w))%R in
    let y := fun m j k h w =>
      rmean_to (Z.to_nat G) (fun g => (y g m j k h w * y g m j k h w)%R) in
    let y := fun m j k h w => sqrt (y m j k h w + 1e-8) in
    let y := fun m j =>
      rmean_to (Z.to_nat c) (fun k =>
        rmean_to (Z.to_nat H) (fun h =>
          rmean_to (Z.to_nat W) (fun w => y m j k h w))) in
    Some (fun s ch h w => if ch <? C then x s ch h w else y (s mod M) (ch - C))
  else None.

(** * Properties *)

(** ** Scalars *)

Section ScalarFacts.

Local Open Scope Qc_scope.

Lemma ofZ_add (a b : Z) : ofZ (a + b) = ofZ a + ofZ b.
Proof.
  unfold ofZ. apply Qc_is_canon.
  change (Qred (inject_Z (a + b)) == Qred (Qred (inject_Z a) + Qred (inject_Z b)))%Q.
  rewrite !Qred_correct. rewrite inject_Z_plus. reflexivity.
Qed.

Lemma ofZ_succ (a : Z) : ofZ (Z.succ a) = ofZ a + 1.
Proof. unfold Z.succ. now rewrite ofZ_add. Qed.

Lemma ofZ_lt (a b : Z) : (a < b)%Z -> ofZ a < ofZ b.
Proof.
  intros H. unfold ofZ.
  change (Qred (inject_Z a) < Qred (inject_Z b))%Q.
  rewrite !Qred_correct. now rewrite <- Zlt_Qlt.
Qed.

Lemma ofZ_le (a b : Z) : (a <= b)%Z -> ofZ a <= ofZ b.
Proof.
  intros H. unfold ofZ.
  change (Qred (inject_Z a) <= Qred (inject_Z b))%Q.
  rewrite !Qred_correct. now rewrite <- Zle_Qle.
Qed.

Lemma clip_low (t : Qc) : t <= 0 -> clip_by_value t 0 1 = 0.
Proof.
  intros H. unfold clip_by_value, qmax, qmin.
  destruct (Qclt_le_dec t 0) as [Hlt|Hge].
  - destruct (Qclt_le_dec 0 1) as [_|H1]; [reflexivity|].
    exfalso. revert H1. now apply Qclt_not_le.
  - assert (t = 0) by (now apply Qcle_antisym). subst t.
    destruct (Qclt_le_dec 0 1) as [_|H1]; [reflexivity|].
    exfalso. revert H1. now apply Qclt_not_le.
Qed.

Lemma clip_high (t : Qc) : 1 <= t -> clip_by_value t 0 1 = 1.
Proof.
  intros H. unfold clip_by_value, qmax, qmin.
  destruct (Qclt_le_dec t 0) as [Hlt|Hge].
  - exfalso. apply (Qclt_not_le _ _ Hlt).
    apply Qcle_trans with 1; [|exact H]. now apply Qclt_le_weak.
  - destruct (Qclt_le_dec t 1) as [Hlt|_]; [|reflexivity].
    exfalso. now apply (Qclt_not_le _ _ Hlt).
Qed.

Lemma clip_mid (t : Qc) : 0 <= t -> t <= 1 -> clip_by_value t 0 1 = t.
Proof.
  intros H0 H1. unfold clip_by_value, qmax, qmin.
  destruct (Qclt_le_dec t 0) as [Hlt|Hge].
  - exfalso. now apply (Qclt_not_le _ _ Hlt).
  - destruct (Qclt_le_dec t 1) as [Hlt|Hge1]; [reflexivity|].
    now apply Qcle_antisym.
Qed.

Lemma qlt_true (a b : Qc) : qlt a b = true <-> a < b.
Proof.
  unfold qlt. destruct (Qclt_le_dec a b) as [H|H]; split; intros H'; auto.
  - discriminate.
  - exfalso. now apply (Qclt_not_le _ _ H').
Qed.

Lemma qlt_false (a b : Qc) : qlt a b = false <-> b <= a.
Proof.
  unfold qlt. destruct (Qclt_le_dec a b) as [H|H]; split; intros H'; auto.
  - discriminate.
  - exfalso. now apply (Qclt_not_le _ _ H).
Qed.

End ScalarFacts.

(** ** Interpolation *)

Lemma tensor_ext (a b : Tensor) :
  (forall n c h w, a n c h w = b n c h w) -> a = b.
Proof.
  intros H. do 4 (apply functional_extensionality; intro). apply H.
Qed.

Lemma lerp_0 (a b : Tensor) : lerp a b 0%Qc = a.
Proof. apply tensor_ext. intros. unfold lerp, tadd, tscale, tsub. ring. Qed.

Lemma lerp_1 (a b : Tensor) : lerp a b 1%Qc = b.
Proof. apply tensor_ext. intros. unfold lerp, tadd, tscale, tsub. ring. Qed.

Lemma lerp_clip_low (a b : Tensor) (t : Qc) : (t <= 0)%Qc -> lerp_clip a b t = a.
Proof.
  intros H. unfold lerp_clip. rewrite clip_low by exact H. apply lerp_0.
Qed.

Lemma lerp_clip_high (a b : Tensor) (t : Qc) : (1 <= t)%Qc -> lerp_clip a b t = b.
Proof.
  intros H. unfold lerp_clip. rewrite clip_high by exact H. apply lerp_1.
Qed.

Lemma lerp_clip_mid (a b : Tensor) (t : Qc) :
  (0 <= t)%Qc -> (t <= 1)%Qc -> lerp_clip a b t = lerp a b t.
Proof.
  intros H0 H1. unfold lerp_clip, lerp. now rewrite clip_mid.
Qed.

(** ** Linear arithmetic on scalars *)

Ltac qc_prep :=
  unfold Qcle, Qclt, Qcminus, Qcplus, Qcopp, Q2Qc in *; cbn [this] in *;
  rewrite ?Qred_correct in *.

Ltac qc_lra := qc_prep; Lqa.lra.

Lemma ofZ_nat_S (l : nat) : ofZ (Z.of_nat (S l)) = (ofZ (Z.of_nat l) + 1)%Qc.
Proof. rewrite Nat2Z.inj_succ. apply ofZ_succ. Qed.

(** ** Upscaling and downscaling *)

Lemma upscale2d_at (x : Tensor) (f : positive) n c h w :
  upscale2d x f n c h w = x n c (h / Z.pos f) (w / Z.pos f).
Proof.
  unfold upscale2d. destruct (Pos.eqb_spec f 1) as [->|_].
  - now rewrite !Z.div_1_r.
  - reflexivity.
Qed.

Lemma upscale2d_1 (x : Tensor) : upscale2d x 1 = x.
Proof. reflexivity. Qed.

Lemma downscale2d_1 (x : Tensor) : downscale2d x 1 = x.
Proof. reflexivity. Qed.

Lemma upscale2d_lerp (a b : Tensor) (t : Qc) (f : positive) :
  upscale2d (lerp a b t) f = lerp (upscale2d a f) (upscale2d b f) t.
Proof.
  apply tensor_ext. intros n c h w.
  unfold lerp, tadd, tscale, tsub. now rewrite !upscale2d_at.
Qed.

Lemma upscale2d_upscale2d (x : Tensor) (f g : positive) :
  upscale2d (upscale2d x f) g = upscale2d x (f * g).
Proof.
  apply tensor_ext. intros n c h w. rewrite !upscale2d_at.
  rewrite Pos2Z.inj_mul, (Z.mul_comm (Z.pos f)).
  rewrite !Z.div_div by lia. reflexivity.
Qed.

Lemma pow2_0 : pow2 0 = 1%positive.
Proof. reflexivity. Qed.

Lemma pow2_S (l : nat) : pow2 (S l) = (2 * pow2 l)%positive.
Proof.
  unfold pow2. rewrite Nat2Z.inj_succ, Z.pow_succ_r by lia.
  assert (H : 0 < 2 ^ Z.of_nat l) by (apply Z.pow_pos_nonneg; lia).
  rewrite Z2Pos.inj_mul by lia. reflexivity.
Qed.

Lemma range_nil (a b : Z) : b <= a -> range a b = [].
Proof. intros H. unfold range. now replace (Z.to_nat (b - a)) with 0%nat by lia. Qed.

Lemma range_cons (a b : Z) : a < b -> range a b = a :: range (a + 1) b.
Proof.
  intros H. unfold range.
  replace (Z.to_nat (b - a)) with (S (Z.to_nat (b - (a + 1)))) by lia.
  cbn [seq map]. f_equal; [lia|].
  rewrite <- seq_shift, map_map. apply map_ext. intros i. lia.
Qed.

(** ** The two generator structures *)

Section GeneratorFacts.

Variable block : Tensor -> Z -> Tensor.
Variable torgb : Tensor -> Z -> Tensor.
Variables resolution_log2 firstblock_res_log2 : Z.
Variable lod_in : Qc.

Local Abbreviation step := (G.linear_step block torgb resolution_log2 lod_in).
Local Abbreviation grow := (G.grow block torgb firstblock_res_log2 lod_in).
Local Abbreviation lodq l := (ofZ (Z.of_nat l)).

(** The stages that remain after stage [res] of the linear loop. *)
Local Abbreviation rest res := (range (res + 1) (resolution_log2 + 1)).

(** Once [lod_in] is at or above the level of a stage, every finer stage
    of the linear loop only upscales what it is given. *)
Lemma G_linear_saturates (l : nat) : forall (res : Z) (y io : Tensor),
  resolution_log2 - res = Z.of_nat l ->
  (l <> 0%nat -> (lodq l <= lod_in)%Qc) ->
  snd (fold_left step (rest res) (y, io)) = upscale2d io (pow2 l).
Proof.
  induction l as [|l IH]; intros res y io Hres Hlod.
  - rewrite range_nil by lia. reflexivity.
  - rewrite range_cons by lia. cbn [fold_left G.linear_step].
    replace (resolution_log2 - (res + 1)) with (Z.of_nat l) by lia.
    specialize (Hlod ltac:(discriminate)). rewrite ofZ_nat_S in Hlod.
    rewrite lerp_clip_high by qc_lra.
    rewrite IH; [|lia|intros _; qc_lra].
    rewrite upscale2d_upscale2d, pow2_S. reflexivity.
Qed.

(** What the linear loop holds in [images_out] after stage [res], when
    [lod_in] is below the level of the stage before it. *)
Local Abbreviation G_blend x res l :=
  (if firstblock_res_log2 <? res
   then lerp_clip (torgb (block x res) res) (upscale2d (torgb x (res - 1)) 2)
          (lod_in - lodq l)%Qc
   else torgb (block x res) res).

Lemma G_grow_linear (l : nat) : forall (res : Z) (x : Tensor),
  resolution_log2 - res = Z.of_nat l ->
  firstblock_res_log2 <= res ->
  (firstblock_res_log2 < res -> (lod_in < lodq l + 1)%Qc) ->
  grow l x res =
  snd (fold_left step (rest res) (block x res, G_blend x res l)).
Proof.
  induction l as [|l IH]; intros res x Hres Hfirst Hlod.
  - rewrite range_nil by lia. cbn [fold_left snd].
    cbn [G.grow]. rewrite pow2_0.
    destruct (Z.ltb_spec firstblock_res_log2 res) as [Hlt|Hge];
      [|reflexivity].
    specialize (Hlod Hlt). unfold cset.
    destruct (qlt (lodq 0) lod_in) eqn:E.
    + apply qlt_true in E. rewrite upscale2d_1.
      rewrite lerp_clip_mid by qc_lra. reflexivity.
    + apply qlt_false in E. rewrite upscale2d_1.
      rewrite lerp_clip_low by qc_lra. reflexivity.
  - cbn [G.grow]. unfold cset at 1.
    destruct (qlt lod_in (lodq (S l))) eqn:Erec.
    + (* lod_in < lod: the finer stage is taken *)
      apply qlt_true in Erec. rewrite ofZ_nat_S in Erec.
      rewrite IH; [|lia|lia|intros _; exact Erec].
      rewrite (range_cons (res + 1)) by lia. cbn [fold_left G.linear_step].
      replace (resolution_log2 - (res + 1)) with (Z.of_nat l) by lia.
      destruct (Z.ltb_spec firstblock_res_log2 (res + 1)) as [_|Hge]; [|lia].
      replace (res + 1 - 1) with res by lia.
      assert (Hio : G_blend x res (S l) = torgb (block x res) res).
      { destruct (Z.ltb_spec firstblock_res_log2 res) as [_|_];
          [|reflexivity].
        rewrite ofZ_nat_S.
        rewrite lerp_clip_low by qc_lra. reflexivity. }
      rewrite Hio. reflexivity.
    + (* lod_in >= lod: this stage is the finest one shown *)
      apply qlt_false in Erec.
      rewrite G_linear_saturates with (l := S l); [|lia|intros _; exact Erec].
      destruct (Z.ltb_spec firstblock_res_log2 res) as [Hlt|Hge];
        [|reflexivity].
      specialize (Hlod Hlt). unfold cset.
      destruct (qlt (lodq (S l)) lod_in) eqn:E.
      * apply qlt_true in E.
        rewrite lerp_clip_mid by qc_lra. reflexivity.
      * apply qlt_false in E.
        rewrite lerp_clip_low by qc_lra. reflexivity.
Qed.

Lemma G_linear_recursive (combo_in : Tensor) :
  firstblock_res_log2 <= resolution_log2 ->
  G.recursive block torgb resolution_log2 firstblock_res_log2 lod_in combo_in
  = Some (G.linear block torgb resolution_log2 firstblock_res_log2 lod_in combo_in).
Proof.
  intros Hle. unfold G.recursive, G.linear.
  destruct (Z.ltb_spec (resolution_log2 - firstblock_res_log2) 0) as [Hlt|_];
    [lia|].
  f_equal. rewrite G_grow_linear; [|lia|lia|lia].
  rewrite Z.ltb_irrefl. reflexivity.
Qed.

End GeneratorFacts.

(** ** Finite sums *)

Section SumFacts.

Local Open Scope Qc_scope.

Lemma sum_to_ext (n : nat) (g h : Z -> Qc) :
  (forall i, (0 <= i < Z.of_nat n)%Z -> g i = h i) -> sum_to n g = sum_to n h.
Proof.
  induction n as [|n IH]; intros E; [reflexivity|].
  cbn [sum_to]. rewrite IH, E; [reflexivity|lia|].
  intros i Hi. apply E. lia.
Qed.

Lemma sum_to_zero (n : nat) : sum_to n (fun _ => 0) = 0.
Proof. induction n as [|n IH]; [reflexivity|]. cbn [sum_to]. rewrite IH. ring. Qed.

Lemma sum_to_scale (n : nat) (g : Z -> Qc) (c : Qc) :
  sum_to n (fun i => g i * c) = sum_to n g * c.
Proof. induction n as [|n IH]; cbn [sum_to]; [ring|]. rewrite IH. ring. Qed.

Lemma sum_to_plus (n : nat) (g h : Z -> Qc) :
  sum_to n (fun i => g i + h i) = sum_to n g + sum_to n h.
Proof. induction n as [|n IH]; cbn [sum_to]; [ring|]. rewrite IH. ring. Qed.

Lemma sum_to_app (m n : nat) (g : Z -> Qc) :
  sum_to (m + n) g = sum_to m g + sum_to n (fun i => g (Z.of_nat m + i)%Z).
Proof.
  induction n as [|n IH].
  - rewrite Nat.add_0_r. cbn [sum_to]. ring.
  - rewrite Nat.add_succ_r. cbn [sum_to]. rewrite IH, Nat2Z.inj_add. ring.
Qed.

(** A sum over [m * n] indices is a sum over [m] rows of [n]. *)
Lemma sum_to_mul (m n : nat) (g : Z -> Qc) :
  sum_to (m * n) g =
  sum_to m (fun a => sum_to n (fun b => g (a * Z.of_nat n + b)%Z)).
Proof.
  induction m as [|m IH]; [reflexivity|].
  cbn [sum_to]. rewrite <- IH.
  replace (S m * n)%nat with (m * n + n)%nat by lia.
  rewrite sum_to_app. f_equal. apply sum_to_ext. intros i _.
  f_equal. lia.
Qed.

Lemma sum_to_swap (m n : nat) (g : Z -> Z -> Qc) :
  sum_to m (fun a => sum_to n (fun b => g a b)) =
  sum_to n (fun b => sum_to m (fun a => g a b)).
Proof.
  induction m as [|m IH]; cbn [sum_to].
  - now rewrite sum_to_zero.
  - rewrite IH, <- sum_to_plus. reflexivity.
Qed.

End SumFacts.

Lemma ofZ_mul (a b : Z) : ofZ (a * b) = (ofZ a * ofZ b)%Qc.
Proof.
  unfold ofZ. apply Qc_is_canon.
  change (Qred (inject_Z (a * b)) == Qred (Qred (inject_Z a) * Qred (inject_Z b)))%Q.
  rewrite !Qred_correct. rewrite inject_Z_mult. reflexivity.
Qed.

Lemma ofZ_pos_neq_0 (p : positive) : ofZ (Z.pos p) <> 0%Qc.
Proof.
  intros H. assert (Hlt : (ofZ 0 < ofZ (Z.pos p))%Qc) by (apply ofZ_lt; lia).
  rewrite H in Hlt. exact (Qclt_not_le _ _ Hlt (Qcle_refl _)).
Qed.

Lemma avg_pool_avg_pool (x : Tensor) (f g : positive) :
  avg_pool (avg_pool x f) g = avg_pool x (f * g).
Proof.
  apply tensor_ext. intros n c p q. unfold avg_pool.
  set (F := Pos.to_nat f). set (G' := Pos.to_nat g).
  set (N := sum_to G' (fun a => sum_to G' (fun b =>
              sum_to F (fun a' => sum_to F (fun b' =>
                x n c ((p * Z.pos g + a) * Z.pos f + a')
                      ((q * Z.pos g + b) * Z.pos f + b')))))).
  assert (HL : sum_to G' (fun a => sum_to G' (fun b =>
                 Qcdiv (sum_to F (fun a' => sum_to F (fun b' =>
                   x n c ((p * Z.pos g + a) * Z.pos f + a')
                         ((q * Z.pos g + b) * Z.pos f + b'))))
                   (ofZ (Z.pos f * Z.pos f))))
               = (N * / ofZ (Z.pos f * Z.pos f))%Qc).
  { unfold N, Qcdiv. rewrite <- sum_to_scale. apply sum_to_ext. intros a _.
    now rewrite <- sum_to_scale. }
  assert (HR : sum_to (Pos.to_nat (f * g)) (fun u =>
                 sum_to (Pos.to_nat (f * g)) (fun v =>
                   x n c (p * Z.pos (f * g) + u) (q * Z.pos (f * g) + v)))
               = N).
  { rewrite Pos2Nat.inj_mul. fold F G'. rewrite (Nat.mul_comm F G').
    rewrite sum_to_mul. unfold N. apply sum_to_ext. intros a _.
    rewrite (sum_to_swap G' F). apply sum_to_ext. intros a' _.
    rewrite sum_to_mul. apply sum_to_ext. intros b _.
    apply sum_to_ext. intros b' _.
    f_equal; unfold F; lia. }
  rewrite HL, HR. unfold Qcdiv.
  rewrite !Pos2Z.inj_mul, !ofZ_mul.
  pose proof (ofZ_pos_neq_0 f). pose proof (ofZ_pos_neq_0 g).
  field. auto.
Qed.

Lemma downscale2d_downscale2d (x : Tensor) (f g : positive) :
  downscale2d (downscale2d x f) g = downscale2d x (f * g).
Proof.
  unfold downscale2d.
  destruct (Pos.eqb_spec f 1) as [->|Hf].
  - now rewrite Pos.mul_1_l.
  - destruct (Pos.eqb_spec g 1) as [->|Hg].
    + rewrite Pos.mul_1_r. destruct (Pos.eqb_spec f 1); [contradiction|reflexivity].
    + destruct (Pos.eqb_spec (f * g) 1) as [E|_].
      * apply Pos.mul_eq_1_l in E. contradiction.
      * apply avg_pool_avg_pool.
Qed.

(** ** The two discriminator structures *)

Section DiscriminatorFacts.

Variable fromrgb : Tensor -> Z -> Tensor.
Variable block : Tensor -> Z -> Tensor.
Variables resolution_log2 firstblock_res_log2 : Z.
Variable lod_in : Qc.
Variable images_in : Tensor.

Local Abbreviation step := (D.linear_step fromrgb block resolution_log2 lod_in).
Local Abbreviation state :=
  (D.linear_state fromrgb block resolution_log2 lod_in images_in).
Local Abbreviation grow :=
  (D.grow fromrgb block firstblock_res_log2 lod_in images_in).
Local Abbreviation lodq l := (ofZ (Z.of_nat l)).

Lemma D_fold_state (n : nat) :
  fold_left step (map (fun i => resolution_log2 - Z.of_nat i) (seq 0 n))
    (images_in, fromrgb images_in resolution_log2) = state n.
Proof.
  induction n as [|n IH]; [reflexivity|].
  rewrite seq_S, map_app, fold_left_app, IH. reflexivity.
Qed.

Lemma D_state_step (l : nat) :
  state (S l) =
  (downscale2d (fst (state l)) 2,
   lerp_clip (block (snd (state l)) (resolution_log2 - Z.of_nat l))
     (fromrgb (downscale2d (fst (state l)) 2) (resolution_log2 - Z.of_nat l - 1))
     (lod_in - lodq l)%Qc).
Proof.
  cbn [D.linear_state]. unfold D.linear_step.
  destruct (state l) as [img x]. cbn [fst snd].
  replace (resolution_log2 - (resolution_log2 - Z.of_nat l)) with (Z.of_nat l) by lia.
  reflexivity.
Qed.

(** The image the linear loop carries is the input downscaled by [2**l]. *)
Lemma D_state_img (l : nat) : fst (state l) = downscale2d images_in (pow2 l).
Proof.
  induction l as [|l IH]; [reflexivity|].
  rewrite D_state_step. cbn [fst]. rewrite IH, downscale2d_downscale2d.
  now rewrite pow2_S, Pos.mul_comm.
Qed.

Lemma D_grow_state (l : nat) :
  Z.of_nat l <= resolution_log2 - firstblock_res_log2 ->
  (Z.of_nat l < resolution_log2 - firstblock_res_log2 ->
   (lod_in < lodq l + 1)%Qc) ->
  grow l (resolution_log2 - Z.of_nat l) =
  if firstblock_res_log2 <? resolution_log2 - Z.of_nat l
  then snd (state (S l))
  else block (snd (state l)) (resolution_log2 - Z.of_nat l).
Proof.
  induction l as [|l IH]; intros Hle Hlod.
  - cbn [D.grow]. rewrite D_state_step. cbn [snd D.linear_state fst].
    rewrite pow2_0, downscale2d_1.
    replace (resolution_log2 - Z.of_nat 0) with resolution_log2 by (cbn; lia).
    destruct (Z.ltb_spec firstblock_res_log2 resolution_log2) as [Hlt|Hge];
      [|reflexivity].
    specialize (Hlod ltac:(lia)). unfold cset.
    change (pow2 (0 + 1)) with 2%positive.
    destruct (qlt (lodq 0) lod_in) eqn:E.
    + apply qlt_true in E. rewrite lerp_clip_mid by qc_lra. reflexivity.
    + apply qlt_false in E. rewrite lerp_clip_low by qc_lra. reflexivity.
  - (* the input of the block at this stage is what the loop holds *)
    assert (Hin :
      (if qlt lod_in (lodq (S l))
       then grow l (resolution_log2 - Z.of_nat (S l) + 1)
       else fromrgb (downscale2d images_in (pow2 (S l)))
              (resolution_log2 - Z.of_nat (S l)))
      = snd (state (S l))).
    { destruct (qlt lod_in (lodq (S l))) eqn:Erec.
      - apply qlt_true in Erec. rewrite ofZ_nat_S in Erec.
        replace (resolution_log2 - Z.of_nat (S l) + 1)
          with (resolution_log2 - Z.of_nat l) by lia.
        rewrite IH; [|lia|intros _; exact Erec].
        destruct (Z.ltb_spec firstblock_res_log2 (resolution_log2 - Z.of_nat l));
          [reflexivity|lia].
      - apply qlt_false in Erec. rewrite ofZ_nat_S in Erec.
        rewrite D_state_step. cbn [snd].
        rewrite lerp_clip_high by qc_lra.
        rewrite D_state_img, downscale2d_downscale2d.
        rewrite pow2_S, Pos.mul_comm. f_equal. lia. }
    cbn [D.grow]. unfold cset. rewrite !Hin.
    destruct (Z.ltb_spec firstblock_res_log2 (resolution_log2 - Z.of_nat (S l)))
      as [Hlt|Hge]; [|reflexivity].
    specialize (Hlod ltac:(lia)).
    rewrite (D_state_step (S l)). cbn [snd].
    rewrite D_state_img, downscale2d_downscale2d.
    replace (pow2 (S l) * 2)%positive with (pow2 (S l + 1)).
    2:{ replace (S l + 1)%nat with (S (S l)) by lia.
        now rewrite (pow2_S (S l)), Pos.mul_comm. }
    destruct (qlt (lodq (S l)) lod_in) eqn:E.
    + apply qlt_true in E. rewrite lerp_clip_mid by qc_lra. reflexivity.
    + apply qlt_false in E. rewrite lerp_clip_low by qc_lra. reflexivity.
Qed.

Lemma D_linear_recursive :
  firstblock_res_log2 <= resolution_log2 ->
  D.recursive fromrgb block resolution_log2 firstblock_res_log2 lod_in images_in
  = Some (D.linear fromrgb block resolution_log2 firstblock_res_log2 lod_in images_in).
Proof.
  intros Hle. unfold D.recursive, D.linear.
  destruct (Z.ltb_spec (resolution_log2 - firstblock_res_log2) 0) as [Hlt|_];
    [lia|].
  f_equal. unfold range_down. rewrite D_fold_state.
  set (L := Z.to_nat (resolution_log2 - firstblock_res_log2)).
  assert (HF : resolution_log2 - Z.of_nat L = firstblock_res_log2) by lia.
  pose proof (D_grow_state L ltac:(lia) ltac:(lia)) as H.
  rewrite HF, Z.ltb_irrefl in H. rewrite H.
  destruct (state L). reflexivity.
Qed.

End DiscriminatorFacts.

(** ** The structures of [G_puzzle] and [D_puzzle] *)

Lemma int_log2_ok (r k : Z) : int_log2 r = Ok k -> 0 < r /\ k = Z.log2 r.
Proof.
  unfold int_log2. destruct (Z.ltb_spec 0 r) as [H|H].
  - destruct (r <? 2 ^ 64); [|discriminate]. intros [= <-]. now split.
  - destruct (r =? 0); [discriminate|].
    destruct (r <? - 2 ^ 63); discriminate.
Qed.

Lemma int_log2_mono (a b la lb : Z) :
  a <= b -> int_log2 a = Ok la -> int_log2 b = Ok lb -> la <= lb.
Proof.
  intros Hab Ha Hb.
  apply int_log2_ok in Ha, Hb. destruct Ha as [_ ->], Hb as [_ ->].
  now apply Z.log2_le_mono.
Qed.

Lemma G_puzzle_structures (block torgb : Tensor -> Z -> Tensor) (cfg : GConfig)
    (lod_in : Qc) (latents_in labels_in : Input) :
  g_firstblock_res cfg <= g_resolution cfg ->
  G_puzzle block torgb (g_with_structure cfg "linear") lod_in latents_in labels_in
  = G_puzzle block torgb (g_with_structure cfg "recursive") lod_in latents_in labels_in.
Proof.
  intros Hle. unfold G_puzzle, g_with_structure, select_structure.
  cbn [g_resolution g_firstblock_res g_label_size g_fmap_base g_fmap_decay
       g_fmap_max g_latent_size g_structure g_is_template_graph].
  destruct (int_log2 (g_resolution cfg)) as [e|rl] eqn:Er; [reflexivity|].
  cbn [rbind].
  destruct (assert _) as [e|[]]; [reflexivity|]. cbn [rbind].
  destruct (int_log2 (g_firstblock_res cfg)) as [e|fl] eqn:Ef; [reflexivity|].
  cbn [rbind].
  destruct (set_shape (input_shape latents_in) _) as [e|[]]; [reflexivity|].
  cbn [rbind].
  destruct (set_shape (input_shape labels_in) _) as [e|[]]; [reflexivity|].
  cbn [rbind].
  change (String.eqb "linear" "linear") with true.
  change (String.eqb "linear" "recursive") with false.
  change (String.eqb "recursive" "linear") with false.
  change (String.eqb "recursive" "recursive") with true.
  cbn [rbind Ok].
  rewrite G_linear_recursive by (eapply int_log2_mono; eauto).
  reflexivity.
Qed.

Lemma D_puzzle_structures (fromrgb block : Tensor -> Z -> Tensor) (cfg : DConfig)
    (lod_in : Qc) (images_in labels_in : Input) :
  d_firstblock_res cfg <= d_resolution cfg ->
  D_puzzle fromrgb block (d_with_structure cfg "linear") lod_in images_in labels_in
  = D_puzzle fromrgb block (d_with_structure cfg "recursive") lod_in images_in labels_in.
Proof.
  intros Hle. unfold D_puzzle, d_with_structure, select_structure.
  cbn [d_num_channels d_resolution d_firstblock_res d_label_size d_structure
       d_is_template_graph].
  destruct (int_log2 (d_resolution cfg)) as [e|rl] eqn:Er; [reflexivity|].
  cbn [rbind].
  destruct (assert _) as [e|[]]; [reflexivity|]. cbn [rbind].
  destruct (int_log2 (d_firstblock_res cfg)) as [e|fl] eqn:Ef; [reflexivity|].
  cbn [rbind].
  destruct (set_shape (input_shape images_in) _) as [e|[]]; [reflexivity|].
  cbn [rbind].
  destruct (set_shape (input_shape labels_in) _) as [e|[]]; [reflexivity|].
  cbn [rbind].
  change (String.eqb "linear" "linear") with true.
  change (String.eqb "linear" "recursive") with false.
  change (String.eqb "recursive" "linear") with false.
  change (String.eqb "recursive" "recursive") with true.
  cbn [rbind Ok].
  rewrite D_linear_recursive by (eapply int_log2_mono; eauto).
  reflexivity.
Qed.

(** ** The blending rule of the generator *)

Section GeneratorBlend.

Variable block : Tensor -> Z -> Tensor.
Variable torgb : Tensor -> Z -> Tensor.
Variables resolution_log2 firstblock_res_log2 : Z.
Variable lod_in : Qc.

Local Abbreviation lodq l := (ofZ (Z.of_nat l)).


End GeneratorBlend.

(** ** The feature-map schedule *)

Section ScheduleFacts.

Local Open Scope R_scope.

Lemma Int_part_mono (x y : R) : x <= y -> (Int_part x <= Int_part y)%Z.
Proof.
  intros Hxy.
  destruct (base_Int_part x) as [Hx1 Hx2].
  destruct (base_Int_part y) as [Hy1 Hy2].
  apply Z.lt_succ_r, lt_IZR. rewrite succ_IZR. Lra.lra.
Qed.

Lemma int_of_float_nonneg (x : R) : 0 <= x -> int_of_float x = Int_part x.
Proof.
  intros H. unfold int_of_float. destruct (Rle_dec 0 x); [reflexivity|contradiction].
Qed.

Lemma Rpower_2_pos (e : R) : 0 < Rpower 2 e.
Proof. unfold Rpower. apply exp_pos. Qed.

Lemma schedule_quotient_mono (fmap_base fmap_decay : R) (s1 s2 : Z) :
  0 < fmap_base -> 0 <= fmap_decay -> (s1 <= s2)%Z ->
  0 <= fmap_base / Rpower 2 (IZR s2 * fmap_decay)
    <= fmap_base / Rpower 2 (IZR s1 * fmap_decay).
Proof.
  intros Hb Hd Hs.
  pose proof (Rpower_2_pos (IZR s1 * fmap_decay)) as H1.
  pose proof (Rpower_2_pos (IZR s2 * fmap_decay)) as H2.
  assert (Hpow : Rpower 2 (IZR s1 * fmap_decay) <= Rpower 2 (IZR s2 * fmap_decay)).
  { apply Rle_Rpower; [Lra.lra|].
    apply Rmult_le_compat_r; [exact Hd|]. now apply IZR_le. }
  split.
  - apply Rlt_le, Rdiv_lt_0_compat; assumption.
  - unfold Rdiv. apply Rmult_le_compat_l; [Lra.lra|].
    apply Rinv_le_contravar; assumption.
Qed.

Lemma nf_mono (fmap_base fmap_decay : R) (fmap_max : Z) (s1 s2 : Z) :
  0 < fmap_base -> 0 <= fmap_decay -> (s1 <= s2)%Z ->
  (nf fmap_base fmap_decay fmap_max s2 <= nf fmap_base fmap_decay fmap_max s1)%Z.
Proof.
  intros Hb Hd Hs. unfold nf.
  destruct (schedule_quotient_mono fmap_base fmap_decay s1 s2 Hb Hd Hs) as [H0 H1].
  rewrite !int_of_float_nonneg by Lra.lra.
  apply Z.min_le_compat_r. now apply Int_part_mono.
Qed.

Lemma nf_le_fmap_max (fmap_base fmap_decay : R) (fmap_max : Z) (s : Z) :
  (nf fmap_base fmap_decay fmap_max s <= fmap_max)%Z.
Proof. unfold nf. apply Z.le_min_r. Qed.

End ScheduleFacts.

Section ScheduleInteger.

Local Open Scope R_scope.

Lemma Int_part_div (a b : Z) : (0 < b)%Z -> Int_part (IZR a / IZR b) = (a / b)%Z.
Proof.
  intros Hb. symmetry. apply Int_part_spec.
  assert (HbR : 0 < IZR b) by (now apply (IZR_lt 0)).
  pose proof (Z.div_mod a b ltac:(lia)) as Hdm.
  pose proof (Z.mod_pos_bound a b Hb) as Hmod.
  assert (Ha : IZR a = IZR b * IZR (a / b) + IZR (a mod b)).
  { rewrite <- mult_IZR, <- plus_IZR. now f_equal. }
  assert (H0 : 0 <= IZR (a mod b)) by (apply (IZR_le 0); lia).
  assert (H1 : IZR (a mod b) < IZR b) by (apply IZR_lt; lia).
  assert (E : IZR a / IZR b = IZR (a / b) + IZR (a mod b) / IZR b).
  { rewrite Ha. field. Lra.lra. }
  assert (Hq0 : 0 <= IZR (a mod b) / IZR b).
  { apply Rmult_le_pos; [exact H0|]. apply Rlt_le, Rinv_0_lt_compat, HbR. }
  assert (Hq1 : IZR (a mod b) / IZR b < 1).
  { apply (Rmult_lt_reg_r (IZR b)); [exact HbR|].
    unfold Rdiv. rewrite Rmult_assoc, Rinv_l by Lra.lra. Lra.lra. }
  rewrite E. Lra.lra.
Qed.

Lemma Rpower_2_nat (n : Z) : (0 <= n)%Z -> Rpower 2 (IZR n) = IZR (2 ^ n).
Proof.
  intros Hn. rewrite <- (Z2Nat.id n Hn).
  rewrite <- INR_IZR_INZ, Rpower_pow by Lra.lra.
  now rewrite <- pow_IZR.
Qed.

(** With integer parameters and a non-negative exponent the schedule is
    integer division by a power of two. *)
Lemma nf_integer (fmap_base fmap_decay fmap_max stage : Z) :
  (0 <= fmap_base)%Z -> (0 <= stage * fmap_decay)%Z ->
  nf (IZR fmap_base) (IZR fmap_decay) fmap_max stage =
  Z.min (fmap_base / 2 ^ (stage * fmap_decay)) fmap_max.
Proof.
  intros Hb He. unfold nf. f_equal.
  rewrite <- mult_IZR, Rpower_2_nat by exact He.
  assert (Hp : (0 < 2 ^ (stage * fmap_decay))%Z) by (apply Z.pow_pos_nonneg; lia).
  rewrite int_of_float_nonneg.
  - now apply Int_part_div.
  - apply Rmult_le_pos; [now apply (IZR_le 0)|].
    apply Rlt_le, Rinv_0_lt_compat. now apply (IZR_lt 0).
Qed.

(** The default schedule at the stages of a 32 x 32 network. *)
Lemma nf_default_values :
  map (nf 8192 1 512) [0; 1; 2; 3; 4; 5]%Z = [512; 512; 512; 512; 512; 256]%Z.
Proof.
  cbn [map]. rewrite !(nf_integer 8192 1 512) by lia. reflexivity.
Qed.

End ScheduleInteger.

(** ** Fused and separate scaling convolutions *)

Section SumShiftFacts.

Local Open Scope Qc_scope.

Lemma sum_to_S_l (n : nat) (g : Z -> Qc) :
  sum_to (S n) g = g 0%Z + sum_to n (fun i => g (i + 1)%Z).
Proof.
  change (S n) with (1 + n)%nat. rewrite sum_to_app. cbn [sum_to].
  f_equal; [apply Qcplus_0_l|]. apply sum_to_ext. intros i _. f_equal. lia.
Qed.

(** A sum of a term that vanishes unless its first index lies in
    [0, k), taken along the diagonal shifted by [a] (0 or 1). *)
Lemma sum_to_shift (k : nat) (a : Z) (F : Z -> Z -> Qc) :
  (a = 0 \/ a = 1)%Z ->
  (forall i u, ~ (0 <= i < Z.of_nat k)%Z -> F i u = 0) ->
  sum_to (S k) (fun u => F (u - a)%Z u) = sum_to k (fun i => F i (i + a)%Z).
Proof.
  intros [-> | ->] Hzero.
  - cbn [sum_to]. rewrite (Hzero (Z.of_nat k - 0)%Z) by lia.
    rewrite Qcplus_0_r. apply sum_to_ext. intros i _. f_equal; lia.
  - rewrite sum_to_S_l. rewrite (Hzero (0 - 1)%Z) by lia.
    rewrite Qcplus_0_l. apply sum_to_ext. intros i _. f_equal; lia.
Qed.

Lemma sum_to_rev (k : nat) (g : Z -> Qc) :
  sum_to k (fun i => g (Z.of_nat k - 1 - i)%Z) = sum_to k g.
Proof.
  induction k as [|k IH]; [reflexivity|].
  rewrite sum_to_S_l. cbn [sum_to]. rewrite Qcplus_comm. f_equal.
  - rewrite <- IH. apply sum_to_ext. intros i _. f_equal. lia.
  - f_equal. lia.
Qed.

(** A sum that picks one index. *)
Lemma sum_to_pick (n : nat) (t : Z) (g : Z -> Qc) :
  sum_to n (fun i => if (i =? t)%Z then g i else 0) =
  if (0 <=? t)%Z && (t <? Z.of_nat n)%Z then g t else 0.
Proof.
  induction n as [|n IH]; cbn [sum_to].
  - destruct (Z.leb_spec 0 t); cbn [andb]; [|reflexivity].
    destruct (Z.ltb_spec t (Z.of_nat 0)); [lia|reflexivity].
  - rewrite IH.
    destruct (Z.leb_spec 0 t), (Z.ltb_spec t (Z.of_nat n)),
      (Z.ltb_spec t (Z.of_nat (S n))), (Z.eqb_spec (Z.of_nat n) t);
      cbn [andb]; try lia; subst; ring.
Qed.

End SumShiftFacts.

Section ShiftedKernelFacts.

Local Open Scope Qc_scope.

Variable k : nat.
(** A [k] x [k] filter, for one pair of channels. *)
Variable W : Z -> Z -> Qc.

(** The filter extended by zero. *)
Local Abbreviation E i j :=
  (if (0 <=? i)%Z && (i <? Z.of_nat k)%Z && (0 <=? j)%Z && (j <? Z.of_nat k)%Z
   then W i j else 0).

Lemma shifted_term (a b : Z) (g : Z -> Z -> Qc) :
  (a = 0 \/ a = 1)%Z -> (b = 0 \/ b = 1)%Z ->
  sum_to (S k) (fun u => sum_to (S k) (fun v => E (u - a)%Z (v - b)%Z * g u v)) =
  sum_to k (fun i => sum_to k (fun j => W i j * g (i + a)%Z (j + b)%Z)).
Proof.
  intros Ha Hb.
  rewrite (sum_to_shift k a
             (fun i u => sum_to (S k) (fun v => E i (v - b)%Z * g u v)) Ha).
  2:{ intros i u Hi.
      transitivity (sum_to (S k) (fun _ => 0)); [|apply sum_to_zero].
      apply sum_to_ext. intros v _.
      destruct (Z.leb_spec 0 i), (Z.ltb_spec i (Z.of_nat k)); cbn [andb];
        try lia; ring. }
  apply sum_to_ext. intros i Hi.
  rewrite (sum_to_shift k b (fun j v => E i j * g (i + a)%Z v) Hb).
  2:{ intros j v Hj.
      destruct (Z.leb_spec 0 i), (Z.ltb_spec i (Z.of_nat k)),
        (Z.leb_spec 0 j), (Z.ltb_spec j (Z.of_nat k)); cbn [andb];
        try lia; ring. }
  apply sum_to_ext. intros j Hj.
  destruct (Z.leb_spec 0 i), (Z.ltb_spec i (Z.of_nat k)),
    (Z.leb_spec 0 j), (Z.ltb_spec j (Z.of_nat k)); cbn [andb];
    try lia; ring.
Qed.

(** The filter padded by one on each side, as [tf.pad] leaves it. *)
Local Abbreviation P i j :=
  (if (1 <=? i)%Z && (i <=? Z.of_nat k)%Z && (1 <=? j)%Z && (j <=? Z.of_nat k)%Z
   then W (i - 1)%Z (j - 1)%Z else 0).

Lemma padded_is_extended (i j : Z) : P i j = E (i - 1)%Z (j - 1)%Z.
Proof.
  destruct (Z.leb_spec 1 i), (Z.leb_spec i (Z.of_nat k)),
    (Z.leb_spec 1 j), (Z.leb_spec j (Z.of_nat k)),
    (Z.leb_spec 0 (i - 1)), (Z.ltb_spec (i - 1) (Z.of_nat k)),
    (Z.leb_spec 0 (j - 1)), (Z.ltb_spec (j - 1) (Z.of_nat k));
    cbn [andb]; try lia; reflexivity.
Qed.

(** Convolving with the sum of the four shifted copies of the padded
    filter is convolving with the filter over each 2 x 2 window. *)
Lemma shifted_kernel_sum (g : Z -> Z -> Qc) :
  sum_to (S k) (fun u => sum_to (S k) (fun v =>
    (P (u + 1)%Z (v + 1)%Z + P u (v + 1)%Z + P (u + 1)%Z v + P u v) * g u v)) =
  sum_to k (fun i => sum_to k (fun j =>
    W i j * (g i j + g i (j + 1)%Z + g (i + 1)%Z j + g (i + 1)%Z (j + 1)%Z))).
Proof.
  rewrite (sum_to_ext (S k) _
    (fun u => sum_to (S k) (fun v => E (u - 0)%Z (v - 0)%Z * g u v)
            + sum_to (S k) (fun v => E (u - 1)%Z (v - 0)%Z * g u v)
            + sum_to (S k) (fun v => E (u - 0)%Z (v - 1)%Z * g u v)
            + sum_to (S k) (fun v => E (u - 1)%Z (v - 1)%Z * g u v))).
  2:{ intros u _. rewrite <- !sum_to_plus. apply sum_to_ext. intros v _.
      rewrite !padded_is_extended.
      replace (u + 1 - 1)%Z with (u - 0)%Z by lia.
      replace (v + 1 - 1)%Z with (v - 0)%Z by lia. ring. }
  rewrite !sum_to_plus.
  rewrite !shifted_term by (auto; lia).
  rewrite <- !sum_to_plus. apply sum_to_ext. intros i _.
  rewrite <- !sum_to_plus. apply sum_to_ext. intros j _.
  rewrite !Z.add_0_r. ring.
Qed.

End ShiftedKernelFacts.

Section PaddingFacts.

Import Sized.

Lemma same_pad_stride_1 (n kernel : Z) :
  1 <= kernel -> same_pad_before n kernel 1 = (kernel - 1) / 2.
Proof.
  intros Hk. unfold same_pad_before, same_out_size.
  rewrite Z.div_1_r. f_equal. lia.
Qed.

Lemma same_pad_stride_2 (n kernel : Z) :
  1 <= kernel -> kernel mod 2 = 1 ->
  same_pad_before n (kernel + 1) 2 = (kernel - 1) / 2.
Proof.
  intros Hk Hodd. unfold same_pad_before, same_out_size.
  Z.to_euclidean_division_equations. lia.
Qed.

Lemma assert_kernel_ok (kernel : Z) :
  assert_kernel kernel = Ok tt -> 1 <= kernel /\ kernel mod 2 = 1.
Proof.
  unfold assert_kernel, assert.
  destruct (Z.leb_spec 1 kernel), (Z.eqb_spec (kernel mod 2) 1);
    cbn [andb]; intros E; try discriminate E. now split.
Qed.

End PaddingFacts.

Section FusedDownscale.

Import Sized.
Local Open Scope Qc_scope.

Lemma sum_to_plus4 (n : nat) (g1 g2 g3 g4 : Z -> Qc) :
  sum_to n g1 + sum_to n g2 + sum_to n g3 + sum_to n g4 =
  sum_to n (fun i => g1 i + g2 i + g3 i + g4 i).
Proof. now rewrite !sum_to_plus. Qed.

Lemma sum_to_scale_l (n : nat) (g : Z -> Qc) (c : Qc) :
  sum_to n (fun i => c * g i) = c * sum_to n g.
Proof. induction n as [|n IH]; cbn [sum_to]; [ring|]. rewrite IH. ring. Qed.

(** The values of the fused convolution are those of the convolution
    followed by the 2 x 2 box filter, whatever the extents. *)
Lemma conv2d_downscale2d_values (x : SizedTensor) (w : Tensor)
    (fmaps : Z) (K : nat) (n o p q : Z) :
  (1 <= Z.of_nat K)%Z -> (Z.of_nat K mod 2 = 1)%Z ->
  values (tf_nn_conv2d x
            (tscale (add_shifted (pad_kernel (Z.of_nat K) w)) (Q2Qc (1 # 4)))
            (Z.of_nat K + 1) (Z.of_nat K + 1) fmaps 2) n o p q =
  avg_pool (values (tf_nn_conv2d x w (Z.of_nat K) (Z.of_nat K) fmaps 1)) 2 n o p q.
Proof.
  intros Hk Hodd. unfold tf_nn_conv2d, avg_pool. cbn [values].
  rewrite !same_pad_stride_2, !same_pad_stride_1 by assumption.
  set (c0 := ((Z.of_nat K - 1) / 2)%Z).
  change (Pos.to_nat 2) with 2%nat.
  replace (Z.to_nat (Z.of_nat K + 1)) with (S K) by lia.
  rewrite Nat2Z.id.
  set (C := Z.to_nat (channels x)).
  set (g := fun c u v => zero_padded x n c (p * 2 + u - c0)%Z (q * 2 + v - c0)%Z).
  (* the fused side, one input channel at a time *)
  rewrite (sum_to_ext C _ (fun c =>
    sum_to K (fun i => sum_to K (fun j =>
      w i j c o * (g c i j + g c i (j + 1)%Z + g c (i + 1)%Z j
                   + g c (i + 1)%Z (j + 1)%Z))) * Q2Qc (1 # 4))).
  2:{ intros c _.
      rewrite <- (shifted_kernel_sum K (fun i j => w i j c o) (g c)).
      rewrite <- sum_to_scale. apply sum_to_ext. intros u _.
      rewrite <- sum_to_scale. apply sum_to_ext. intros v _.
      unfold tscale, add_shifted, pad_kernel, g. ring. }
  rewrite sum_to_scale.
  (* the separate side: the four pixels of the window *)
  cbn [sum_to]. change (Z.of_nat 0) with 0%Z. change (Z.of_nat 1) with 1%Z.
  rewrite !Qcplus_0_l.
  rewrite Qcplus_assoc, sum_to_plus4.
  unfold Qcdiv. f_equal.
  apply sum_to_ext. intros c _.
  rewrite sum_to_plus4. apply sum_to_ext. intros i _.
  rewrite sum_to_plus4. apply sum_to_ext. intros j _.
  unfold g.
  replace ((p * 2 + 0) * 1 + i - c0)%Z with (p * 2 + i - c0)%Z by lia.
  replace ((q * 2 + 0) * 1 + j - c0)%Z with (q * 2 + j - c0)%Z by lia.
  replace ((p * 2 + 1) * 1 + i - c0)%Z with (p * 2 + (i + 1) - c0)%Z by lia.
  replace ((q * 2 + 1) * 1 + j - c0)%Z with (q * 2 + (j + 1) - c0)%Z by lia.
  ring.
Qed.

End FusedDownscale.

Section FusedUpscale.

Import Sized.
Local Open Scope Qc_scope.

Lemma sum_to_swap_pairs (m1 m2 n1 n2 : nat) (F : Z -> Z -> Z -> Z -> Qc) :
  sum_to m1 (fun p => sum_to m2 (fun q =>
    sum_to n1 (fun u => sum_to n2 (fun v => F p q u v)))) =
  sum_to n1 (fun u => sum_to n2 (fun v =>
    sum_to m1 (fun p => sum_to m2 (fun q => F p q u v)))).
Proof.
  transitivity (sum_to m1 (fun p => sum_to n1 (fun u =>
                  sum_to n2 (fun v => sum_to m2 (fun q => F p q u v))))).
  { apply sum_to_ext. intros p _. rewrite sum_to_swap.
    apply sum_to_ext. intros u _. apply sum_to_swap. }
  rewrite sum_to_swap. apply sum_to_ext. intros u _. apply sum_to_swap.
Qed.

(** A double sum that picks one pixel. *)
Lemma sum_to_pick2 (m n : nat) (t t' : Z) (f : Z -> Z -> Qc) :
  sum_to m (fun p => sum_to n (fun q =>
    if (p =? t)%Z && (q =? t')%Z then f p q else 0)) =
  if (0 <=? t)%Z && (t <? Z.of_nat m)%Z && (0 <=? t')%Z && (t' <? Z.of_nat n)%Z
  then f t t' else 0.
Proof.
  rewrite (sum_to_ext m _ (fun p => if (p =? t)%Z
             then (if (0 <=? t')%Z && (t' <? Z.of_nat n)%Z then f p t' else 0)
             else 0)).
  2:{ intros p _. destruct (Z.eqb_spec p t); cbn [andb].
      - apply sum_to_pick.
      - apply sum_to_zero. }
  rewrite sum_to_pick.
  destruct (0 <=? t)%Z, (t <? Z.of_nat m)%Z, (0 <=? t')%Z, (t' <? Z.of_nat n)%Z;
    reflexivity.
Qed.

(** The four taps of a window that can carry input pixel (p, q) to a
    given output position: exactly one does, when the position lies over
    the pixel. *)
Lemma window_taps (m m' p q : Z) (v : Qc) :
  (if (p * 2 + 0 =? m)%Z && (q * 2 + 0 =? m')%Z then v else 0) +
  (if (p * 2 + 0 =? m)%Z && (q * 2 + 1 =? m')%Z then v else 0) +
  (if (p * 2 + 1 =? m)%Z && (q * 2 + 0 =? m')%Z then v else 0) +
  (if (p * 2 + 1 =? m)%Z && (q * 2 + 1 =? m')%Z then v else 0) =
  if (p =? m / 2)%Z && (q =? m' / 2)%Z then v else 0.
Proof.
  pose proof (Z.div_mod m 2 ltac:(lia)).
  pose proof (Z.mod_pos_bound m 2 ltac:(lia)).
  pose proof (Z.div_mod m' 2 ltac:(lia)).
  pose proof (Z.mod_pos_bound m' 2 ltac:(lia)).
  destruct (Z.eqb_spec (p * 2 + 0) m), (Z.eqb_spec (p * 2 + 1) m),
    (Z.eqb_spec (q * 2 + 0) m'), (Z.eqb_spec (q * 2 + 1) m'),
    (Z.eqb_spec p (m / 2)), (Z.eqb_spec q (m' / 2));
    cbn [andb]; try lia; ring.
Qed.

End FusedUpscale.

Section FusedUpscaleValues.

Import Sized.
Local Open Scope Qc_scope.

(** The pixel of the upscaled, zero-padded input under position (m, m'),
    as a sum over the input pixels. *)
Lemma upscaled_pixel (x : SizedTensor) (n c m m' : Z) :
  (0 <= height x)%Z -> (0 <= width x)%Z ->
  sum_to (Z.to_nat (height x)) (fun p => sum_to (Z.to_nat (width x)) (fun q =>
    if (p =? m / 2)%Z && (q =? m' / 2)%Z then values x n c p q else 0)) =
  zero_padded (upscale2d x 2) n c m m'.
Proof.
  intros Hh Hw. rewrite sum_to_pick2. rewrite !Z2Nat.id by assumption.
  unfold zero_padded, upscale2d. cbn [Pos.eqb height width values].
  unfold reshape_6_to_4, tile_6, reshape_4_to_6.
  pose proof (Z.div_mod m 2 ltac:(lia)).
  pose proof (Z.mod_pos_bound m 2 ltac:(lia)).
  pose proof (Z.div_mod m' 2 ltac:(lia)).
  pose proof (Z.mod_pos_bound m' 2 ltac:(lia)).
  destruct (Z.leb_spec 0 (m / 2)), (Z.ltb_spec (m / 2) (height x)),
    (Z.leb_spec 0 (m' / 2)), (Z.ltb_spec (m' / 2) (width x)),
    (Z.leb_spec 0 m), (Z.ltb_spec m (height x * 2)),
    (Z.leb_spec 0 m'), (Z.ltb_spec m' (width x * 2));
    cbn [andb]; try lia; reflexivity.
Qed.

Lemma eqb_tap (p i c0 r a : Z) :
  (p * 2 + (i + a) - c0 =? r)%Z = (p * 2 + a =? r + c0 - i)%Z.
Proof.
  destruct (Z.eqb_spec (p * 2 + (i + a) - c0) r),
    (Z.eqb_spec (p * 2 + a) (r + c0 - i)); try reflexivity; lia.
Qed.

(** The four windows a filter tap (i, j) takes part in, summed over the
    input pixels, read the upscaled input at one position. *)
Lemma taps_read_upscaled (x : SizedTensor) (n c r s i j c0 : Z) :
  (0 <= height x)%Z -> (0 <= width x)%Z ->
  let G := fun u v : Z =>
    sum_to (Z.to_nat (height x)) (fun p => sum_to (Z.to_nat (width x)) (fun q =>
      if (p * 2 + u - c0 =? r)%Z && (q * 2 + v - c0 =? s)%Z
      then values x n c p q else 0)) in
  G i j + G i (j + 1)%Z + G (i + 1)%Z j + G (i + 1)%Z (j + 1)%Z =
  zero_padded (upscale2d x 2) n c (r + c0 - i)%Z (s + c0 - j)%Z.
Proof.
  intros Hh Hw G. unfold G.
  rewrite <- upscaled_pixel by assumption.
  rewrite sum_to_plus4. apply sum_to_ext. intros p _.
  rewrite sum_to_plus4. apply sum_to_ext. intros q _.
  rewrite <- window_taps.
  replace (p * 2 + i - c0)%Z with (p * 2 + (i + 0) - c0)%Z by lia.
  replace (q * 2 + j - c0)%Z with (q * 2 + (j + 0) - c0)%Z by lia.
  rewrite !eqb_tap. ring.
Qed.

End FusedUpscaleValues.

Section FusedUpscaleTheorem.

Import Sized.
Local Open Scope Qc_scope.

(** The values of the fused transposed convolution are those of the
    convolution of the upscaled input with the filter rotated by 180
    degrees. *)
Lemma upscale2d_conv2d_values (x : SizedTensor) (w : Tensor)
    (fmaps : Z) (K : nat) (n o r s : Z) :
  (1 <= Z.of_nat K)%Z -> (Z.of_nat K mod 2 = 1)%Z ->
  (0 <= height x)%Z -> (0 <= width x)%Z ->
  values (tf_nn_conv2d_transpose x
            (add_shifted (pad_kernel (Z.of_nat K) (transpose_0132 w)))
            (Z.of_nat K + 1) (Z.of_nat K + 1) fmaps
            (height x * 2) (width x * 2) 2) n o r s =
  values (tf_nn_conv2d (upscale2d x 2) (flip_kernel (Z.of_nat K) w)
            (Z.of_nat K) (Z.of_nat K) fmaps 1) n o r s.
Proof.
  intros Hk Hodd Hh Hw. unfold tf_nn_conv2d_transpose, tf_nn_conv2d.
  cbn [values].
  rewrite !same_pad_stride_2, !same_pad_stride_1 by assumption.
  set (c0 := ((Z.of_nat K - 1) / 2)%Z).
  assert (Hc0 : (Z.of_nat K - 1 = 2 * c0)%Z).
  { unfold c0. Z.to_euclidean_division_equations. lia. }
  replace (Z.to_nat (Z.of_nat K + 1)) with (S K) by lia.
  rewrite Nat2Z.id.
  replace (channels (upscale2d x 2)) with (channels x) by reflexivity.
  apply sum_to_ext. intros c _.
  set (G := fun u v : Z =>
    sum_to (Z.to_nat (height x)) (fun p => sum_to (Z.to_nat (width x)) (fun q =>
      if (p * 2 + u - c0 =? r)%Z && (q * 2 + v - c0 =? s)%Z
      then values x n c p q else 0))).
  transitivity (sum_to K (fun i => sum_to K (fun j =>
    w i j c o * (G i j + G i (j + 1)%Z + G (i + 1)%Z j + G (i + 1)%Z (j + 1)%Z)))).
  - rewrite <- (shifted_kernel_sum K (fun i j => w i j c o) G).
    rewrite sum_to_swap_pairs.
    apply sum_to_ext. intros u _. apply sum_to_ext. intros v _.
    unfold G. rewrite <- sum_to_scale_l. apply sum_to_ext. intros p _.
    rewrite <- sum_to_scale_l. apply sum_to_ext. intros q _.
    unfold add_shifted, pad_kernel, transpose_0132.
    destruct ((p * 2 + u - c0 =? r)%Z && (q * 2 + v - c0 =? s)%Z); ring.
  - rewrite <- (sum_to_rev K
      (fun i => sum_to K (fun j =>
         w i j c o * (G i j + G i (j + 1)%Z + G (i + 1)%Z j + G (i + 1)%Z (j + 1)%Z)))).
    apply sum_to_ext. intros i _.
    rewrite <- (sum_to_rev K (fun j =>
         w (Z.of_nat K - 1 - i)%Z j c o *
         (G (Z.of_nat K - 1 - i)%Z j + G (Z.of_nat K - 1 - i)%Z (j + 1)%Z
          + G (Z.of_nat K - 1 - i + 1)%Z j
          + G (Z.of_nat K - 1 - i + 1)%Z (j + 1)%Z))).
    apply sum_to_ext. intros j _.
    unfold flip_kernel. f_equal.
    unfold G. rewrite taps_read_upscaled by assumption.
    f_equal; lia.
Qed.

End FusedUpscaleTheorem.

Section FusedAndSeparate.

Import Sized.
Local Open Scope Z_scope.

Lemma sized_ext (c h w : Z) (v v' : Tensor) :
  (forall n o r s, v n o r s = v' n o r s) ->
  {| channels := c; height := h; width := w; values := v |} =
  {| channels := c; height := h; width := w; values := v' |}.
Proof. intros H. f_equal. now apply tensor_ext. Qed.

(** The fused upscaling convolution is the convolution of the upscaled
    input with the rotated filter. *)
Lemma upscale2d_conv2d_rotated (x : SizedTensor) (w : Tensor) (fmaps kernel : Z) :
  0 <= height x -> 0 <= width x ->
  upscale2d_conv2d x w fmaps kernel =
  conv2d (upscale2d x 2) (flip_kernel kernel w) fmaps kernel.
Proof.
  intros Hh Hw. unfold upscale2d_conv2d, conv2d.
  destruct (assert_kernel kernel) as [e|[]] eqn:Ek; [reflexivity|].
  apply assert_kernel_ok in Ek. destruct Ek as [Hk Hodd].
  cbn [rbind]. unfold Ok. f_equal.
  rewrite <- (Z2Nat.id kernel) in * by lia.
  set (K := Z.to_nat kernel) in *.
  transitivity
    {| channels := fmaps; height := height x * 2; width := width x * 2;
       values := values (tf_nn_conv2d (upscale2d x 2) (flip_kernel (Z.of_nat K) w)
                           (Z.of_nat K) (Z.of_nat K) fmaps 1) |}.
  - apply sized_ext. intros n o r s.
    now apply upscale2d_conv2d_values.
  - unfold tf_nn_conv2d. cbn [channels height width values].
    unfold same_out_size. cbn [upscale2d Pos.eqb height width].
    f_equal; rewrite Z.div_1_r; lia.
Qed.

Lemma tf_nn_conv2d_ext (x : SizedTensor) (w w' : Tensor) (kh kw fmaps stride : Z) :
  (forall i j c o, 0 <= i < kh -> 0 <= j < kw -> w i j c o = w' i j c o) ->
  tf_nn_conv2d x w kh kw fmaps stride = tf_nn_conv2d x w' kh kw fmaps stride.
Proof.
  intros E. unfold tf_nn_conv2d. apply sized_ext. intros n o r s.
  apply sum_to_ext. intros c _. apply sum_to_ext. intros i Hi.
  apply sum_to_ext. intros j Hj. rewrite E by lia. reflexivity.
Qed.

Lemma upscale2d_conv2d_symmetric (x : SizedTensor) (w : Tensor) (fmaps kernel : Z) :
  0 <= height x -> 0 <= width x ->
  (forall i j c o, 0 <= i < kernel -> 0 <= j < kernel ->
     w (kernel - 1 - i) (kernel - 1 - j) c o = w i j c o) ->
  upscale2d_conv2d x w fmaps kernel = conv2d (upscale2d x 2) w fmaps kernel.
Proof.
  intros Hh Hw Hsym. rewrite upscale2d_conv2d_rotated by assumption.
  unfold conv2d. destruct (assert_kernel kernel) as [e|[]]; [reflexivity|].
  cbn [rbind]. unfold Ok. f_equal. apply tf_nn_conv2d_ext.
  intros i j c o Hi Hj. unfold flip_kernel. now apply Hsym.
Qed.

Lemma conv2d_downscale2d_even (x : SizedTensor) (w : Tensor) (fmaps kernel : Z) :
  0 < height x -> 0 < width x ->
  height x mod 2 = 0 -> width x mod 2 = 0 ->
  conv2d_downscale2d x w fmaps kernel =
  (y <- conv2d x w fmaps kernel ;; downscale2d y 2).
Proof.
  intros Hhp Hwp Hh Hw. unfold conv2d_downscale2d, conv2d.
  destruct (assert_kernel kernel) as [e|[]] eqn:Ek; [reflexivity|].
  apply assert_kernel_ok in Ek. destruct Ek as [Hk Hodd].
  unfold Ok. cbn [rbind].
  unfold downscale2d at 1. cbn [Pos.eqb].
  unfold tf_nn_conv2d at 2 3. cbn [height width].
  unfold same_out_size at 1 2. rewrite !Z.div_1_r.
  destruct (Z.ltb_spec (height x + 1 - 1) 2) as [Hlt|_];
    [apply Z.mod_divide in Hh; [destruct Hh as [q Hq]|]; lia|].
  destruct (Z.ltb_spec (width x + 1 - 1) 2) as [Hlt|_];
    [apply Z.mod_divide in Hw; [destruct Hw as [q Hq]|]; lia|].
  cbn [orb]. unfold Ok. f_equal.
  rewrite <- (Z2Nat.id kernel) in * by lia.
  set (K := Z.to_nat kernel) in *.
  transitivity
    {| channels := fmaps;
       height := same_out_size (height x) 2; width := same_out_size (width x) 2;
       values := avg_pool (values (tf_nn_conv2d x w (Z.of_nat K) (Z.of_nat K) fmaps 1)) 2 |}.
  - apply sized_ext. intros n o p q.
    now apply conv2d_downscale2d_values.
  - unfold tf_nn_conv2d. cbn [channels height width values].
    unfold same_out_size. rewrite !Z.div_1_r.
    f_equal; Z.to_euclidean_division_equations; lia.
Qed.

End FusedAndSeparate.

(** ** Weights *)

Lemma get_weight_returns (shp : list Z) (use_wscale : bool) :
  forallb (fun d => 0 <=? d) shp = true ->
  fst (BuildLayers.get_weight shp use_wscale) =
  Ok {| BuildLayers.w_shape := shp;
        BuildLayers.w_fan_in := BuildLayers.prod (removelast shp) |}.
Proof.
  intros H. unfold BuildLayers.get_weight, BuildLayers.get_variable.
  rewrite H. destruct use_wscale; reflexivity.
Qed.

Lemma get_weight_rejects (shp : list Z) (use_wscale : bool) :
  forallb (fun d => 0 <=? d) shp = false ->
  fst (BuildLayers.get_weight shp use_wscale) = inl ValueError.
Proof.
  intros H. unfold BuildLayers.get_weight, BuildLayers.get_variable.
  rewrite H. destruct use_wscale; reflexivity.
Qed.

(** ** The puzzle layouts *)

Section LayoutFacts.

Import Layout.

Lemma In_range (a b i : Z) : In i (range a b) <-> a <= i < b.
Proof.
  unfold range. rewrite in_map_iff. split.
  - intros [k [<- Hk]]. apply in_seq in Hk. lia.
  - intros Hi. exists (Z.to_nat (i - a)). split; [lia|].
    apply in_seq. lia.
Qed.

Lemma cell_eqb_eq (a b : cell) : cell_eqb a b = true -> a = b.
Proof.
  destruct a as [[n1 i1] j1], b as [[n2 i2] j2]. cbn [cell_eqb].
  intros H. apply andb_prop in H. destruct H as [H Hj].
  apply andb_prop in H. destruct H as [Hn Hi].
  apply String.eqb_eq in Hn. apply Z.eqb_eq in Hi, Hj. now subst.
Qed.

Lemma placed_b_sound (g : grid) (t : string * Z * Z) (r0 c0 : Z) :
  placed_b g t r0 c0 = true -> placed g t r0 c0.
Proof.
  destruct t as [[name h] w]. cbn [placed_b placed]. intros H i j Hi Hj.
  rewrite forallb_forall in H. specialize (H i (proj2 (In_range 0 h i) Hi)).
  rewrite forallb_forall in H. specialize (H j (proj2 (In_range 0 w j) Hj)).
  destruct (at_ g (r0 + i) (c0 + j)) as [c|]; [|discriminate].
  apply cell_eqb_eq in H. now subst.
Qed.

Lemma inside_b_sound (t : string * Z * Z) (r0 c0 r c : Z) :
  inside_b t r0 c0 r c = true -> inside t r0 c0 r c.
Proof.
  destruct t as [[name h] w]. cbn [inside_b inside]. intros H.
  apply andb_prop in H. destruct H as [H H4].
  apply andb_prop in H. destruct H as [H H3].
  apply andb_prop in H. destruct H as [H1 H2].
  apply Z.leb_le in H1, H3. apply Z.ltb_lt in H2, H4. lia.
Qed.

Lemma tiles_placed_sound (g : grid) (s : Z) (ts : list (string * Z * Z)) :
  tiles_placed_b g s ts = true ->
  forall t, In t ts -> exists r0 c0, placed g t r0 c0.
Proof.
  unfold tiles_placed_b. rewrite forallb_forall. intros H t Ht.
  specialize (H t Ht).
  destruct (origin g s (fst (fst t))) as [[r0 c0]|]; [|discriminate].
  exists r0, c0. now apply placed_b_sound.
Qed.

Lemma covered_sound (g : grid) (s : Z) (ts : list (string * Z * Z)) :
  covered_b g s ts = true ->
  forall r c, 0 <= r < s -> 0 <= c < s ->
  exists t r0 c0, In t ts /\ placed g t r0 c0 /\ inside t r0 c0 r c.
Proof.
  unfold covered_b. rewrite forallb_forall. intros H r c Hr Hc.
  assert (Hin : In (r, c) (pixels s)).
  { unfold pixels. apply in_prod; now apply In_range. }
  specialize (H (r, c) Hin). apply existsb_exists in H.
  destruct H as [t [Ht H]].
  destruct (origin g s (fst (fst t))) as [[r0 c0]|]; [|discriminate].
  apply andb_prop in H. destruct H as [Hp Hi].
  exists t, r0, c0. split; [exact Ht|]. split.
  - now apply placed_b_sound.
  - now apply inside_b_sound.
Qed.

(** A pixel holds the cell of one tile only. *)
Lemma placed_disjoint (g : grid) (t1 t2 : string * Z * Z) (r1 c1 r2 c2 r c : Z) :
  placed g t1 r1 c1 -> placed g t2 r2 c2 ->
  inside t1 r1 c1 r c -> inside t2 r2 c2 r c ->
  fst (fst t1) = fst (fst t2).
Proof.
  destruct t1 as [[n1 h1] w1], t2 as [[n2 h2] w2].
  cbn [placed inside fst]. intros P1 P2 [Hr1 Hc1] [Hr2 Hc2].
  specialize (P1 (r - r1) (c - c1) ltac:(lia) ltac:(lia)).
  specialize (P2 (r - r2) (c - c2) ltac:(lia) ltac:(lia)).
  replace (r1 + (r - r1)) with r in P1 by lia.
  replace (c1 + (c - c1)) with c in P1 by lia.
  replace (r2 + (r - r2)) with r in P2 by lia.
  replace (c2 + (c - c2)) with c in P2 by lia.
  rewrite P1 in P2. now injection P2.
Qed.

(** The seed map of a supported mode, with what the checks establish. *)
Lemma layout_of_supported (mode : string) :
  In mode supported_modes ->
  exists g,
    first_layer mode = Some g /\
    height g = Z.to_nat (side mode) /\
    Forall (fun row => List.length row = Z.to_nat (side mode)) g /\
    tiles_placed_b g (side mode) (tiles mode) = true /\
    covered_b g (side mode) (tiles mode) = true.
Proof.
  intros Hin. cbn [supported_modes In] in Hin.
  destruct Hin as [<-|[<-|[<-|[<-|[]]]]].
  - eexists. split; [vm_compute; reflexivity|].
    split; [reflexivity|]. split; [repeat constructor|].
    split; vm_compute; reflexivity.
  - eexists. split; [vm_compute; reflexivity|].
    split; [reflexivity|]. split; [repeat constructor|].
    split; vm_compute; reflexivity.
  - eexists. split; [vm_compute; reflexivity|].
    split; [reflexivity|]. split; [repeat constructor|].
    split; vm_compute; reflexivity.
  - eexists. split; [vm_compute; reflexivity|].
    split; [reflexivity|]. split; [repeat constructor|].
    split; vm_compute; reflexivity.
Qed.

End LayoutFacts.

(** ** Shapes through graph construction *)

Section BuildFacts.

Import Build BuildLayers BuildG.

Lemma fst_bind_ok {A B : Type} (m : M A) (k : A -> M B) (b : B) :
  fst (bind m k) = Ok b -> exists a, fst m = Ok a /\ fst (k a) = Ok b.
Proof.
  unfold bind. destruct m as [[e|a] log]; cbn [fst]; [discriminate|].
  destruct (k a) as [r log'] eqn:E. cbn [fst]. intros ->.
  exists a. now rewrite E.
Qed.

Lemma fst_bind_err {A B : Type} (m : M A) (k : A -> M B) (e : error) :
  fst m = inl e -> fst (bind m k) = inl e.
Proof.
  unfold bind. destruct m as [[e'|a] log]; cbn [fst]; [|discriminate].
  intros E. injection E as ->. reflexivity.
Qed.

Lemma fst_bind_step {A B : Type} (m : M A) (k : A -> M B) (a : A) :
  fst m = Ok a -> fst (bind m k) = fst (k a).
Proof.
  unfold bind. destruct m as [[e|a'] log]; cbn [fst]; [discriminate|].
  intros E. injection E as ->. now destruct (k a).
Qed.

Lemma slice_shape (n d : option Z) (s size : Z) (t : shape) :
  fst (slice [n; d] s size) = Ok t -> exists d', t = [n; d'].
Proof.
  unfold slice. destruct (0 <=? size).
  - cbn [fst tf]. intros [= <-]. now eexists.
  - destruct (size =? -1); [|discriminate].
    destruct d as [l|].
    + destruct (s <=? l); cbn [fst tf raise]; [|discriminate].
      intros [= <-]. now eexists.
    + cbn [fst tf]. intros [= <-]. now eexists.
Qed.

(** The chunks of the latent vector are matrices over the same batch. *)
Local Abbreviation chunk n := (fun t : shape => exists d' : option Z, t = [n; d']).

Lemma slices_chunks (n d : option Z) (sizes : list Z) :
  forall (s : Z) (z0 z : option (list shape)),
  (forall l0, z0 = Some l0 -> Forall (chunk n) l0) ->
  fst (slices [n; d] sizes s z0) = Ok z ->
  forall l, z = Some l -> Forall (chunk n) l.
Proof.
  induction sizes as [|size sizes IH]; intros s z0 z H0 Hz l Hl.
  - cbn in Hz. injection Hz as <-. now apply H0.
  - cbn [slices] in Hz. apply fst_bind_ok in Hz. destruct Hz as [t [Ht Hz]].
    apply slice_shape in Ht.
    eapply IH; [|exact Hz|exact Hl].
    intros l0 [= <-]. destruct z0 as [l1|].
    + apply Forall_app. split; [now apply H0|].
      constructor; [exact Ht|constructor].
    + constructor; [exact Ht|constructor].
Qed.

Lemma z_at_chunk (n : option Z) (z : option (list shape)) (i : nat) (t : shape) :
  (forall l, z = Some l -> Forall (chunk n) l) ->
  fst (z_at z i) = Ok t -> chunk n t.
Proof.
  intros Hz. unfold z_at. destruct z as [l|]; [|discriminate].
  destruct (nth_error l i) as [t'|] eqn:E; [|discriminate].
  cbn [fst ret]. intros [= <-].
  specialize (Hz l eq_refl). rewrite Forall_forall in Hz.
  apply Hz. eapply nth_error_In. exact E.
Qed.

Lemma dense_matrix (n d : option Z) (fmaps : Z) (use_wscale : bool) (t : shape) :
  fst (dense [n; d] fmaps use_wscale) = Ok t -> t = [n; Some fmaps].
Proof.
  intros H. unfold dense in H.
  change (2 <? List.length [n; d])%nat with false in H. cbv iota in H.
  apply fst_bind_ok in H. destruct H as [x [Hx H]].
  cbn in Hx. injection Hx as <-.
  apply fst_bind_ok in H. destruct H as [fan [_ H]].
  apply fst_bind_ok in H. destruct H as [wt [_ H]].
  apply fst_bind_ok in H. destruct H as [c [_ H]].
  cbn in H. now injection H as <-.
Qed.

Lemma reshape4_matrix (n : option Z) (c h w : Z) (t : shape) :
  fst (reshape4 [n; Some (c * (h * w))] c h w) = Ok t ->
  t = [n; Some c; Some h; Some w].
Proof.
  unfold reshape4. destruct n as [b|]; cbn [known_prod option_map].
  - destruct (Z.eqb_spec (c * h * w) 0) as [E|E]; cbn [orb]; [discriminate|].
    destruct (negb _); [discriminate|]. cbn [fst tf].
    intros [= <-]. do 2 f_equal.
    replace (b * (c * (h * w) * 1)) with (b * (c * h * w)) by ring.
    now rewrite Z.div_mul.
  - cbn [fst tf]. now intros [= <-].
Qed.

Lemma tile_shape (nf : Z -> Z) (use_wscale : bool) (n : option Z)
    (z : option (list shape)) (res : Z) (i : nat) (h w : Z) (t : shape) :
  (forall l, z = Some l -> Forall (chunk n) l) ->
  fst (tile nf use_wscale z res i (h * w) h w) = Ok t ->
  t = [n; Some (nf (res - 1)); Some h; Some w].
Proof.
  intros Hz H. unfold tile in H.
  apply fst_bind_ok in H. destruct H as [zi [Hzi H]].
  apply (z_at_chunk n) in Hzi; [|exact Hz]. destruct Hzi as [d' ->].
  apply fst_bind_ok in H. destruct H as [x [Hx H]].
  apply dense_matrix in Hx. subst x.
  now apply reshape4_matrix in H.
Qed.

End BuildFacts.

Section FirstLayerShape.

Import Build BuildLayers BuildG.

Variables (n : option Z) (c : Z).

Local Abbreviation sh h w := ([n; Some c; Some h; Some w] : shape).

Lemma bind_ret {A B : Type} (a : A) (k : A -> M B) : bind (ret a) k = k a.
Proof. unfold bind, ret, Ok. now destruct (k a). Qed.

Lemma merge_dim_refl (d : option Z) : merge_dim d d = ret d.
Proof. destruct d as [v|]; cbn; [now rewrite Z.eqb_refl|reflexivity]. Qed.

Lemma concat2_axis_2 (h1 h2 w : Z) :
  concat2 (sh h1 w) (sh h2 w) 2 = ret (sh (h1 + h2) w).
Proof.
  cbn [concat2 merge_shape]. rewrite merge_dim_refl. cbn [merge_dim].
  rewrite !Z.eqb_refl. reflexivity.
Qed.

Lemma concat2_axis_3 (h w1 w2 : Z) :
  concat2 (sh h w1) (sh h w2) 3 = ret (sh h (w1 + w2)).
Proof.
  cbn [concat2 merge_shape]. rewrite merge_dim_refl. cbn [merge_dim].
  rewrite !Z.eqb_refl. reflexivity.
Qed.

Lemma concat_h2 (h1 h2 w : Z) :
  fst (concat [sh h1 w; sh h2 w] 2) = Ok (sh (h1 + h2) w).
Proof.
  cbn [concat fold_left]. now rewrite bind_ret, concat2_axis_2, bind_ret.
Qed.

Lemma concat_h3 (h1 h2 h3 w : Z) :
  fst (concat [sh h1 w; sh h2 w; sh h3 w] 2) = Ok (sh (h1 + h2 + h3) w).
Proof.
  cbn [concat fold_left].
  now rewrite bind_ret, concat2_axis_2, bind_ret, concat2_axis_2, bind_ret.
Qed.

Lemma concat_h4 (h1 h2 h3 h4 w : Z) :
  fst (concat [sh h1 w; sh h2 w; sh h3 w; sh h4 w] 2) =
  Ok (sh (h1 + h2 + h3 + h4) w).
Proof.
  cbn [concat fold_left].
  now rewrite bind_ret, concat2_axis_2, bind_ret, concat2_axis_2, bind_ret,
    concat2_axis_2, bind_ret.
Qed.

Lemma concat_w2 (h w1 w2 : Z) :
  fst (concat [sh h w1; sh h w2] 3) = Ok (sh h (w1 + w2)).
Proof.
  cbn [concat fold_left]. now rewrite bind_ret, concat2_axis_3, bind_ret.
Qed.

Lemma concat_w3 (h w1 w2 w3 : Z) :
  fst (concat [sh h w1; sh h w2; sh h w3] 3) = Ok (sh h (w1 + w2 + w3)).
Proof.
  cbn [concat fold_left].
  now rewrite bind_ret, concat2_axis_3, bind_ret, concat2_axis_3, bind_ret.
Qed.

(** Bias, activation and pixel normalisation keep the shape of a
    feature map. *)
Lemma bias_act_norm_shape (use_leakyrelu use_pixelnorm : bool) (h w : Z) :
  fst (x <~ apply_bias (sh h w) ;; x <~ act use_leakyrelu x ;; PN use_pixelnorm x)
  = Ok (sh h w).
Proof. destruct use_leakyrelu, use_pixelnorm; reflexivity. Qed.

End FirstLayerShape.

Section FirstLayerModes.

Import Build BuildLayers BuildG.
Local Open Scope string_scope.

Variable nf : Z -> Z.
Variable latents_sizes : list Z.
Variables use_wscale use_pixelnorm use_leakyrelu : bool.

Ltac bind_inv H x Hx :=
  apply fst_bind_ok in H; destruct H as [x [Hx H]].

Ltac tile_inv H x n z Hz h w :=
  let Hx := fresh "Ht" in
  bind_inv H x Hx;
  apply (tile_shape nf use_wscale n z _ _ h w) in Hx; [|exact Hz]; subst x.

Ltac concat_inv H x lem :=
  let Hx := fresh "Hc" in
  bind_inv H x Hx; rewrite lem in Hx; injection Hx as <-.

Ltac finish H :=
  rewrite bias_act_norm_shape in H; injection H as <-; reflexivity.

(** The shape of the seed feature map: its side is fixed by the mode, not
    by the stage [res] the layer is built at. *)
Lemma first_layer_shape (mode : string) (n d : option Z) (res : Z) (s : shape) :
  In mode Layout.supported_modes ->
  fst (first_layer nf (Some mode) latents_sizes use_wscale use_pixelnorm
         use_leakyrelu [n; d] res) = Ok s ->
  s = [n; Some (nf (res - 1)); Some (Layout.side mode); Some (Layout.side mode)].
Proof.
  intros Hin H. unfold first_layer in H.
  bind_inv H z Hslices.
  assert (Hz : forall l, z = Some l ->
                 Forall (fun t : shape => exists d' : option Z, t = [n; d']) l).
  { eapply slices_chunks; [|exact Hslices]. discriminate. }
  cbn [Layout.supported_modes In] in Hin.
  destruct Hin as [<-|[<-|[<-|[<-|[]]]]].
  - change (mode_is (Some "2parts-faces") "2parts-faces") with true in H.
    change (mode_is (Some "2parts-faces") "5parts-faces") with false in H.
    change (mode_is (Some "2parts-faces") "2parts-bedrooms") with false in H.
    change (mode_is (Some "2parts-faces") "4parts-digits") with false in H.
    cbv iota in H.
    bind_inv H x Hx. rewrite !bind_ret in H.
    tile_inv Hx x11 n z Hz 2 8. tile_inv Hx x12 n z Hz 4 2.
    tile_inv Hx x13 n z Hz 2 8. tile_inv Hx x14 n z Hz 4 2.
    tile_inv Hx x2 n z Hz 4 4.
    concat_inv Hx mid concat_w3.
    rewrite concat_h3 in Hx. injection Hx as <-.
    finish H.
  - change (mode_is (Some "5parts-faces") "2parts-faces") with false in H.
    change (mode_is (Some "5parts-faces") "5parts-faces") with true in H.
    change (mode_is (Some "5parts-faces") "2parts-bedrooms") with false in H.
    change (mode_is (Some "5parts-faces") "4parts-digits") with false in H.
    cbv iota in H. rewrite bind_ret in H.
    bind_inv H x Hx. rewrite !bind_ret in H.
    tile_inv Hx x11 n z Hz 8 2. tile_inv Hx x12 n z Hz 1 4.
    tile_inv Hx x13 n z Hz 8 2. tile_inv Hx x2 n z Hz 2 4.
    tile_inv Hx x3 n z Hz 2 4. tile_inv Hx x4 n z Hz 2 2.
    tile_inv Hx x51 n z Hz 3 1. tile_inv Hx x52 n z Hz 1 2.
    tile_inv Hx x53 n z Hz 3 1.
    concat_inv Hx lower concat_h2.
    concat_inv Hx chin concat_w3.
    concat_inv Hx middle concat_h4.
    rewrite concat_w3 in Hx. injection Hx as <-.
    finish H.
  - change (mode_is (Some "2parts-bedrooms") "2parts-faces") with false in H.
    change (mode_is (Some "2parts-bedrooms") "5parts-faces") with false in H.
    change (mode_is (Some "2parts-bedrooms") "2parts-bedrooms") with true in H.
    change (mode_is (Some "2parts-bedrooms") "4parts-digits") with false in H.
    cbv iota in H. rewrite !bind_ret in H.
    bind_inv H x Hx. rewrite !bind_ret in H.
    tile_inv Hx x1 n z Hz 4 8. tile_inv Hx x2 n z Hz 4 8.
    rewrite concat_h2 in Hx. injection Hx as <-.
    finish H.
  - change (mode_is (Some "4parts-digits") "2parts-faces") with false in H.
    change (mode_is (Some "4parts-digits") "5parts-faces") with false in H.
    change (mode_is (Some "4parts-digits") "2parts-bedrooms") with false in H.
    change (mode_is (Some "4parts-digits") "4parts-digits") with true in H.
    cbv iota in H. rewrite !bind_ret in H.
    bind_inv H x Hx.
    tile_inv Hx x1 n z Hz 8 8. tile_inv Hx x2 n z Hz 8 8.
    tile_inv Hx x3 n z Hz 8 8. tile_inv Hx x4 n z Hz 8 8.
    concat_inv Hx top concat_w2.
    concat_inv Hx bottom concat_w2.
    rewrite concat_h2 in Hx. injection Hx as <-.
    finish H.
Qed.

End FirstLayerModes.

Section PartitionFacts.

Import Layout.

Lemma distinct_names_sound (ts : list (string * Z * Z)) :
  distinct_names_b ts = true ->
  forall t1 t2, In t1 ts -> In t2 ts -> fst (fst t1) = fst (fst t2) -> t1 = t2.
Proof.
  unfold distinct_names_b. rewrite forallb_forall. intros H t1 t2 H1 H2 E.
  specialize (H t1 H1). rewrite forallb_forall in H. specialize (H t2 H2).
  destruct t1 as [[n1 h1] w1], t2 as [[n2 h2] w2]. cbn [fst] in *. subst n2.
  rewrite String.eqb_refl in H. cbn [negb orb] in H.
  apply andb_prop in H. destruct H as [Hh Hw].
  apply Z.eqb_eq in Hh, Hw. now subst.
Qed.

Lemma exact_partition_checked (g : grid) (s : Z) (ts : list (string * Z * Z)) :
  tiles_placed_b g s ts = true -> covered_b g s ts = true ->
  distinct_names_b ts = true ->
  exact_partition g s ts.
Proof.
  intros Hp Hc Hd. split; [|split].
  - now apply (tiles_placed_sound g s).
  - now apply covered_sound.
  - intros t1 t2 r1 c1 r2 c2 r c H1 H2 P1 P2 I1 I2.
    apply (distinct_names_sound ts Hd); [assumption|assumption|].
    eapply placed_disjoint; eassumption.
Qed.

Lemma distinct_names_supported (mode : string) :
  In mode supported_modes -> distinct_names_b (tiles mode) = true.
Proof.
  intros Hin. cbn [supported_modes In] in Hin.
  destruct Hin as [<-|[<-|[<-|[<-|[]]]]]; reflexivity.
Qed.

End PartitionFacts.

(** ** An unsupported mode *)

Section BuildSteps.

Import Build BuildLayers BuildG.

Lemma fst_bind {A B : Type} (m : M A) (k : A -> M B) :
  fst (bind m k) =
  match fst m with
  | inl e => inl e
  | inr a => fst (k a)
  end.
Proof.
  unfold bind. destruct m as [[e|a] log]; cbn [fst]; [reflexivity|].
  now destruct (k a).
Qed.

Lemma fst_bind_lift {A B : Type} (r : result A) (k : A -> M B) :
  fst (bind (lift r) k) =
  match r with
  | inl e => inl e
  | inr a => fst (k a)
  end.
Proof. destruct r as [e|a]; [reflexivity|]. cbn [lift]. now rewrite bind_ret. Qed.

Lemma fst_bind_assertM {B : Type} (b : bool) (k : unit -> M B) :
  fst (bind (assertM b) k) = if b then fst (k tt) else inl AssertionError.
Proof. destruct b; [|reflexivity]. cbn [assertM]. now rewrite bind_ret. Qed.

Lemma fst_bind_tf {B : Type} (name : string) (sh : shape) (k : shape -> M B) :
  fst (bind (tf name sh) k) = fst (k sh).
Proof. unfold bind, tf, Ok. now destruct (k sh). Qed.

Lemma snd_bind_tf {B : Type} (name : string) (sh : shape) (k : shape -> M B) :
  snd (bind (tf name sh) k) = (name, sh) :: snd (k sh).
Proof. unfold bind, tf, Ok. now destruct (k sh). Qed.

(** What a step has issued stays issued, whatever follows. *)
Lemma In_snd_bind_l {A B : Type} (m : M A) (k : A -> M B) (o : op) :
  In o (snd m) -> In o (snd (bind m k)).
Proof.
  unfold bind. destruct m as [[e|a] log]; cbn [snd]; [trivial|].
  destruct (k a) as [r log']. cbn [snd]. intros H. apply in_or_app. now left.
Qed.

Lemma In_snd_bind_r {A B : Type} (m : M A) (k : A -> M B) (a : A) (o : op) :
  fst m = Ok a -> In o (snd (k a)) -> In o (snd (bind m k)).
Proof.
  unfold bind. destruct m as [[e|a'] log]; cbn [fst]; [discriminate|].
  intros E. injection E as ->. destruct (k a) as [r log']. cbn [snd].
  intros H. apply in_or_app. now right.
Qed.

(** [tf.slice] takes a size that is not negative. *)
Lemma slice_succeeds (n d : option Z) (s size : Z) :
  0 <= size -> slice [n; d] s size = tf "tf.slice" [n; Some size].
Proof.
  intros H. unfold slice. destruct (Z.leb_spec 0 size); [reflexivity|lia].
Qed.

Lemma slice_fails_or_returns (n d : option Z) (s size : Z) :
  fst (slice [n; d] s size) = inl ValueError \/
  exists t, fst (slice [n; d] s size) = Ok t.
Proof.
  unfold slice. destruct (0 <=? size); [right; now eexists|].
  destruct (size =? -1); [|now left].
  destruct d as [l|]; [|right; now eexists].
  destruct (s <=? l); [right; now eexists|now left].
Qed.

Lemma slices_fail_or_chunks (n d : option Z) (sizes : list Z) :
  forall (s : Z) (z0 : option (list shape)),
  fst (slices [n; d] sizes s z0) = inl ValueError \/
  exists z, fst (slices [n; d] sizes s z0) = Ok z.
Proof.
  induction sizes as [|size sizes IH]; intros s z0.
  - right. now exists z0.
  - cbn [slices]. rewrite fst_bind.
    destruct (slice_fails_or_returns n d s size) as [E|[t E]]; rewrite E;
      [now left|].
    apply IH.
Qed.

(** The loop of [first_layer] over sizes that are not negative. *)
Lemma slices_succeed (n d : option Z) (sizes : list Z) :
  forall (s : Z) (z0 : list shape),
  Forall (fun size => 0 <= size) sizes ->
  fst (slices [n; d] sizes s (Some z0))
  = Ok (Some (z0 ++ map (fun size : Z => ([n; Some size] : shape)) sizes)).
Proof.
  induction sizes as [|size sizes IH]; intros s z0 Hpos.
  - cbn. now rewrite app_nil_r.
  - cbn [slices]. inversion Hpos as [|? ? Hsize Hrest]; subst.
    rewrite slice_succeeds by exact Hsize. rewrite fst_bind_tf.
    rewrite IH by assumption. now rewrite <- app_assoc.
Qed.

(** The loop over a non-empty [latents_sizes] binds [z] to the chunks. *)
Lemma slices_from_unbound (n d : option Z) (size : Z) (sizes : list Z) :
  Forall (fun size => 0 <= size) (size :: sizes) ->
  fst (slices [n; d] (size :: sizes) 0 None)
  = Ok (Some (map (fun size : Z => ([n; Some size] : shape)) (size :: sizes))).
Proof.
  intros Hpos. cbn [slices].
  inversion Hpos as [|? ? Hsize Hrest]; subst.
  rewrite slice_succeeds by exact Hsize. rewrite fst_bind_tf.
  now rewrite slices_succeed by assumption.
Qed.

Lemma slices_return (n d : option Z) (sizes : list Z) :
  Forall (fun size => 0 <= size) sizes ->
  exists z, fst (slices [n; d] sizes 0 None) = Ok z.
Proof.
  intros Hpos. destruct sizes as [|size sizes].
  - now exists None.
  - eexists. now apply slices_from_unbound.
Qed.

End BuildSteps.

Section UnsupportedMode.

Import Build BuildLayers BuildG.

Variable nf : Z -> Z.
Variable num_channels : Z.
Variable mode : option string.
Variable latents_sizes : list Z.
Variables normalize_latents use_wscale use_pixelnorm use_leakyrelu fused_scale : bool.
Variables resolution_log2 firstblock_res_log2 : Z.

(** [mode] is none of the supported modes. *)
Hypothesis unsupported :
  forall m, In m Layout.supported_modes -> mode <> Some m.

Lemma mode_is_unsupported (m : string) :
  In m Layout.supported_modes -> mode_is mode m = false.
Proof.
  intros Hin. unfold mode_is. destruct mode as [s|] eqn:E; [|reflexivity].
  destruct (String.eqb_spec s m) as [->|]; [|reflexivity].
  now destruct (unsupported m Hin).
Qed.

(** With an unsupported mode [first_layer] hands its matrix input on,
    biased, activated and normalised. *)
Lemma first_layer_unsupported (n : option Z) (v res : Z) :
  fst (first_layer nf mode latents_sizes use_wscale use_pixelnorm
         use_leakyrelu [n; Some v] res) = inl ValueError \/
  fst (first_layer nf mode latents_sizes use_wscale use_pixelnorm
         use_leakyrelu [n; Some v] res) = Ok [n; Some v].
Proof.
  unfold first_layer. rewrite fst_bind.
  destruct (slices_fail_or_chunks n (Some v) latents_sizes 0 None) as [E|[z E]];
    rewrite E; [now left|].
  rewrite !mode_is_unsupported by (cbn; auto 6).
  rewrite !bind_ret. right.
  destruct use_leakyrelu, use_pixelnorm; reflexivity.
Qed.

(** The convolution of the first block on a matrix: a [ValueError], from
    [tf.nn.conv2d] or, with a negative number of feature maps, from the
    weight before it. *)
Lemma conv_act_matrix (n : option Z) (v res : Z) :
  fst (conv_act nf use_wscale use_pixelnorm use_leakyrelu [n; Some v] res)
  = inl ValueError.
Proof.
  unfold conv_act. apply fst_bind_err. unfold conv2d.
  rewrite fst_bind_assertM.
  change ((1 <=? 3) && (3 mod 2 =? 1)) with true. cbv iota.
  change (dim_value [n; Some v] 1) with (ret (A := Z) v). rewrite bind_ret.
  destruct (forallb (fun d => 0 <=? d) [3; 3; v; nf (res - 1)]) eqn:E.
  - rewrite fst_bind, (get_weight_returns _ _ E). cbv iota.
    now rewrite fst_bind_tf.
  - now rewrite fst_bind, (get_weight_rejects _ _ E).
Qed.

(** The first block of the generator: the failure is the one of the
    convolution (or of [tf.slice]). *)
Lemma block_first_unsupported (n : option Z) (v : Z) :
  fst (block nf mode latents_sizes normalize_latents use_wscale use_pixelnorm
         use_leakyrelu fused_scale firstblock_res_log2 [n; Some v]
         firstblock_res_log2) = inl ValueError.
Proof.
  unfold block. rewrite Z.eqb_refl. cbv iota.
  assert (Hn : fst (if normalize_latents then pixel_norm [n; Some v]
                    else ret [n; Some v]) = Ok [n; Some v]).
  { destruct normalize_latents; reflexivity. }
  rewrite (fst_bind_step _ _ _ Hn).
  destruct (first_layer_unsupported n v firstblock_res_log2) as [E|E].
  - now rewrite (fst_bind_err _ _ _ E).
  - rewrite (fst_bind_step _ _ _ E). apply conv_act_matrix.
Qed.

Lemma linear_unsupported (n : option Z) (v : Z) :
  fst (linear nf num_channels mode latents_sizes normalize_latents use_wscale
         use_pixelnorm use_leakyrelu fused_scale resolution_log2
         firstblock_res_log2 [n; Some v]) = inl ValueError.
Proof.
  unfold linear. now rewrite (fst_bind_err _ _ _ (block_first_unsupported n v)).
Qed.

Lemma recursive_unsupported (n : option Z) (v : Z) :
  fst (recursive nf num_channels mode latents_sizes normalize_latents use_wscale
         use_pixelnorm use_leakyrelu fused_scale resolution_log2
         firstblock_res_log2 [n; Some v]) = inl ValueError.
Proof.
  unfold recursive. destruct (resolution_log2 - firstblock_res_log2 <? 0).
  - now rewrite (fst_bind_err _ _ _ (block_first_unsupported n v)).
  - destruct (Z.to_nat (resolution_log2 - firstblock_res_log2));
      cbn [grow];
      now rewrite (fst_bind_err _ _ _ (block_first_unsupported n v)).
Qed.

(** What [first_layer] issues on the way: the bias variable of
    [apply_bias] and its addition to the matrix. *)
Local Abbreviation bias_issued n v log :=
  (In ("tf.get_variable"%string, [Some v]) log /\
   In ("tf.add"%string, [n; Some v]) log).

Hypothesis sizes_nonneg : Forall (fun size => 0 <= size) latents_sizes.

Lemma first_layer_unsupported_issues (n : option Z) (v res : Z) :
  bias_issued n v
    (snd (first_layer nf mode latents_sizes use_wscale use_pixelnorm
            use_leakyrelu [n; Some v] res)).
Proof.
  unfold first_layer.
  destruct (slices_return n (Some v) latents_sizes sizes_nonneg) as [z Hz].
  rewrite !mode_is_unsupported by (cbn; auto 6).
  split; apply (In_snd_bind_r _ _ z _ Hz); cbv beta; rewrite !bind_ret;
    apply In_snd_bind_l; cbn; auto.
Qed.

Lemma block_first_unsupported_issues (n : option Z) (v : Z) :
  bias_issued n v
    (snd (block nf mode latents_sizes normalize_latents use_wscale use_pixelnorm
            use_leakyrelu fused_scale firstblock_res_log2 [n; Some v]
            firstblock_res_log2)).
Proof.
  unfold block. rewrite Z.eqb_refl. cbv iota.
  assert (Hn : fst (if normalize_latents then pixel_norm [n; Some v]
                    else ret [n; Some v]) = Ok [n; Some v]).
  { destruct normalize_latents; reflexivity. }
  destruct (first_layer_unsupported_issues n v firstblock_res_log2) as [Hb Ha].
  split; apply (In_snd_bind_r _ _ _ _ Hn); cbv beta; apply In_snd_bind_l;
    assumption.
Qed.

Lemma linear_unsupported_issues (n : option Z) (v : Z) :
  bias_issued n v
    (snd (linear nf num_channels mode latents_sizes normalize_latents use_wscale
            use_pixelnorm use_leakyrelu fused_scale resolution_log2
            firstblock_res_log2 [n; Some v])).
Proof.
  destruct (block_first_unsupported_issues n v) as [Hb Ha].
  unfold linear. split; apply In_snd_bind_l; assumption.
Qed.

Lemma recursive_unsupported_issues (n : option Z) (v : Z) :
  bias_issued n v
    (snd (recursive nf num_channels mode latents_sizes normalize_latents
            use_wscale use_pixelnorm use_leakyrelu fused_scale resolution_log2
            firstblock_res_log2 [n; Some v])).
Proof.
  destruct (block_first_unsupported_issues n v) as [Hb Ha].
  unfold recursive. destruct (resolution_log2 - firstblock_res_log2 <? 0).
  - split; apply In_snd_bind_l; assumption.
  - destruct (Z.to_nat (resolution_log2 - firstblock_res_log2));
      cbn [grow]; split; apply In_snd_bind_l; assumption.
Qed.

End UnsupportedMode.

Section UnsupportedModeBuild.

Import Build BuildLayers BuildG.

(** After [set_shape([None, latent_size])] the latents are a matrix with a
    known second extent. *)
Lemma latents_matrix (s : static_shape) (latent_size : Z) :
  set_shape s [None; Some latent_size] = Ok tt ->
  exists n v, shape_after_set_shape s [None; Some latent_size] = [n; Some v].
Proof.
  destruct s as [ds|]; [|now exists None, latent_size].
  unfold set_shape, shape_after_set_shape.
  destruct (forallb dim_valid [None; Some latent_size]); [|discriminate].
  destruct ds as [|a [|b [|c ds]]]; cbn [dims_compatible];
    rewrite ?andb_false_r; cbn [combine map]; try discriminate.
  intros _. exists a. destruct a, b as [v|]; eauto.
Qed.

Variable nf : Z -> Z.
Variable num_channels : Z.
Variable mode : option string.
Variable latents_sizes : list Z.
Variables firstblock_res resolution label_size : Z.
Variable latent_size : option Z.
Variables normalize_latents use_wscale use_pixelnorm use_leakyrelu fused_scale : bool.
Variable structure : option string.
Variable is_template_graph : bool.
Variables latents_in labels_in : static_shape.

Hypothesis unsupported :
  forall m, In m Layout.supported_modes -> mode <> Some m.

Local Abbreviation build :=
  (G_puzzle nf num_channels mode latents_sizes firstblock_res resolution
     label_size latent_size normalize_latents use_wscale use_pixelnorm
     use_leakyrelu fused_scale structure is_template_graph latents_in labels_in).

Local Abbreviation the_latent_size :=
  (match latent_size with None => nf 0 | Some n => n end).

(** What is left of [G_puzzle] once its inputs are set up. *)
Local Abbreviation structures rl fl combo_in :=
  (images_out <~
     (if String.eqb (select_structure structure is_template_graph) "linear"
      then t <~ linear nf num_channels mode latents_sizes normalize_latents
                  use_wscale use_pixelnorm use_leakyrelu fused_scale
                  rl fl combo_in ;;
           ret (Some t)
      else ret None) ;;
   images_out <~
     (if String.eqb (select_structure structure is_template_graph) "recursive"
      then t <~ recursive nf num_channels mode latents_sizes normalize_latents
                  use_wscale use_pixelnorm use_leakyrelu fused_scale
                  rl fl combo_in ;;
           ret (Some t)
      else ret images_out) ;;
   match images_out with
   | Some t => tf "tf.identity" t
   | None => raise AttributeError
   end).

Lemma structures_unsupported (rl fl : Z) (n : option Z) (v : Z) :
  exists e,
  fst (structures rl fl [n; Some v]) = inl e /\
  (select_structure structure is_template_graph = "linear"%string \/
   select_structure structure is_template_graph = "recursive"%string ->
   e = ValueError).
Proof.
  pose proof (linear_unsupported nf num_channels mode latents_sizes
                normalize_latents use_wscale use_pixelnorm use_leakyrelu
                fused_scale rl fl unsupported n v) as Hlin.
  pose proof (recursive_unsupported nf num_channels mode latents_sizes
                normalize_latents use_wscale use_pixelnorm use_leakyrelu
                fused_scale rl fl unsupported n v) as Hrec.
  destruct (String.eqb_spec (select_structure structure is_template_graph) "linear")
    as [El|El].
  - exists ValueError. split; [|reflexivity].
    apply fst_bind_err. apply fst_bind_err. exact Hlin.
  - rewrite bind_ret.
    destruct (String.eqb_spec (select_structure structure is_template_graph)
                "recursive") as [Er|Er].
    + exists ValueError. split; [|reflexivity].
      apply fst_bind_err. apply fst_bind_err. exact Hrec.
    + exists AttributeError. split.
      * now rewrite bind_ret.
      * intros [E|E]; contradiction.
Qed.

Lemma structures_unsupported_issue (rl fl : Z) (n : option Z) (v : Z) :
  Forall (fun size => 0 <= size) latents_sizes ->
  select_structure structure is_template_graph = "linear"%string \/
  select_structure structure is_template_graph = "recursive"%string ->
  In ("tf.get_variable"%string, [Some v]) (snd (structures rl fl [n; Some v])) /\
  In ("tf.add"%string, [n; Some v]) (snd (structures rl fl [n; Some v])).
Proof.
  intros Hsizes Hs.
  destruct (linear_unsupported_issues nf num_channels mode latents_sizes
              normalize_latents use_wscale use_pixelnorm use_leakyrelu
              fused_scale rl fl unsupported Hsizes n v) as [Hlb Hla].
  destruct (recursive_unsupported_issues nf num_channels mode latents_sizes
              normalize_latents use_wscale use_pixelnorm use_leakyrelu
              fused_scale rl fl unsupported Hsizes n v) as [Hrb Hra].
  destruct Hs as [E|E]; rewrite E.
  - change (String.eqb "linear" "linear") with true. cbv iota.
    split; do 2 apply In_snd_bind_l; assumption.
  - change (String.eqb "recursive" "linear") with false.
    change (String.eqb "recursive" "recursive") with true. cbv iota.
    rewrite bind_ret. split; do 2 apply In_snd_bind_l; assumption.
Qed.

Lemma G_puzzle_unsupported_fails : exists e, fst build = inl e.
Proof.
  unfold G_puzzle. rewrite fst_bind_lift.
  destruct (int_log2 resolution) as [e|rl]; [now exists e|].
  rewrite fst_bind_assertM.
  destruct ((resolution =? 2 ^ rl) && (4 <=? resolution));
    [|now exists AssertionError].
  rewrite fst_bind_lift.
  destruct (int_log2 firstblock_res) as [e|fl]; [now exists e|].
  rewrite fst_bind_lift.
  destruct (set_shape latents_in [None; Some the_latent_size]) as [e|[]] eqn:Elat;
    [now exists e|].
  rewrite fst_bind_lift.
  destruct (set_shape labels_in [None; Some label_size]) as [e|[]];
    [now exists e|].
  rewrite !fst_bind_tf.
  destruct (latents_matrix latents_in the_latent_size Elat) as [n [v ->]].
  destruct (structures_unsupported rl fl n v) as [e [He _]].
  now exists e.
Qed.

Lemma G_puzzle_unsupported_late (k : Z) :
  2 <= k < 31 -> resolution = 2 ^ k ->
  0 < firstblock_res < 2 ^ 31 ->
  set_shape latents_in [None; Some the_latent_size] = Ok tt ->
  set_shape labels_in [None; Some label_size] = Ok tt ->
  Forall (fun size => 0 <= size) latents_sizes ->
  select_structure structure is_template_graph = "linear"%string \/
  select_structure structure is_template_graph = "recursive"%string ->
  fst build = inl ValueError /\
  exists n v,
    shape_after_set_shape latents_in [None; Some the_latent_size] = [n; Some v] /\
    In ("tf.get_variable"%string, [Some v]) (snd build) /\
    In ("tf.add"%string, [n; Some v]) (snd build).
Proof.
  intros Hk Hres Hfirst Hlat Hlab Hsizes Hs.
  assert (Hr : int_log2 resolution = Ok k).
  { subst resolution. unfold int_log2.
    assert (0 < 2 ^ k) by (apply Z.pow_pos_nonneg; lia).
    assert (2 ^ k < 2 ^ 64) by (apply Z.pow_lt_mono_r; lia).
    destruct (Z.ltb_spec 0 (2 ^ k)); [|lia].
    destruct (Z.ltb_spec (2 ^ k) (2 ^ 64)); [|lia].
    now rewrite Z.log2_pow2 by lia. }
  assert (Ha : (resolution =? 2 ^ k) && (4 <=? resolution) = true).
  { subst resolution. rewrite Z.eqb_refl. cbn [andb].
    assert (H4 : 2 ^ 2 <= 2 ^ k) by (apply Z.pow_le_mono_r; lia).
    change (2 ^ 2) with 4 in H4. now apply Z.leb_le. }
  assert (Hf : int_log2 firstblock_res = Ok (Z.log2 firstblock_res)).
  { unfold int_log2.
    assert (2 ^ 31 < 2 ^ 64) by (apply Z.pow_lt_mono_r; lia).
    destruct (Z.ltb_spec 0 firstblock_res); [|lia].
    destruct (Z.ltb_spec firstblock_res (2 ^ 64)); [reflexivity|lia]. }
  assert (Hbuild : build =
    (combo_in <~ tf "tf.cast"
                   (shape_after_set_shape latents_in [None; Some the_latent_size]) ;;
     tf "tf.get_variable" [] ;;~
     tf "tf.cast" [] ;;~
     structures k (Z.log2 firstblock_res) combo_in)).
  { unfold G_puzzle.
    rewrite Hr. unfold Ok at 1. cbn [lift]. rewrite bind_ret.
    rewrite Ha. cbn [assertM]. rewrite bind_ret.
    rewrite Hf. unfold Ok at 1. cbn [lift]. rewrite bind_ret.
    rewrite Hlat. unfold Ok at 1. cbn [lift]. rewrite bind_ret.
    rewrite Hlab. unfold Ok at 1. cbn [lift]. rewrite bind_ret.
    reflexivity. }
  rewrite Hbuild.
  destruct (latents_matrix latents_in the_latent_size Hlat) as [n [v Hsh]].
  rewrite Hsh. split.
  - rewrite !fst_bind_tf.
    destruct (structures_unsupported k (Z.log2 firstblock_res) n v) as [e [He Hv]].
    rewrite He. f_equal. now apply Hv.
  - exists n, v. split; [reflexivity|].
    destruct (structures_unsupported_issue k (Z.log2 firstblock_res) n v Hsizes Hs)
      as [Hb Hadd].
    rewrite !snd_bind_tf. cbn [In]. auto.
Qed.

End UnsupportedModeBuild.

(** * The claims *)

(** C1. For every configuration with [firstblock_res <= resolution] and
    every value of the 'lod' variable, [G_puzzle] built with
    structure='linear' and with structure='recursive' compute the same
    images (or end in the same error), and [D_puzzle] the same scores, the
    weights of the layers being the same. *)
Theorem C1_linear_recursive_agree
    (g_block torgb fromrgb d_block : Tensor -> Z -> Tensor)
    (gcfg : GConfig) (dcfg : DConfig) (lod_in : Qc)
    (latents_in images_in labels_in : Input) :
  g_firstblock_res gcfg <= g_resolution gcfg ->
  d_firstblock_res dcfg <= d_resolution dcfg ->
  G_puzzle g_block torgb (g_with_structure gcfg "linear") lod_in latents_in labels_in
  = G_puzzle g_block torgb (g_with_structure gcfg "recursive") lod_in latents_in labels_in
  /\
  D_puzzle fromrgb d_block (d_with_structure dcfg "linear") lod_in images_in labels_in
  = D_puzzle fromrgb d_block (d_with_structure dcfg "recursive") lod_in images_in labels_in.
Proof.
  intros Hg Hd. split.
  - now apply G_puzzle_structures.
  - now apply D_puzzle_structures.
Qed.

(** The default configuration: resolution 32 grown from 8. *)
Lemma C1_witness :
  8 <= 32 /\ 8 <= 32 /\
  let gcfg := {| g_resolution := 32; g_firstblock_res := 8; g_label_size := 0;
                 g_fmap_base := 8192%R; g_fmap_decay := 1%R; g_fmap_max := 512;
                 g_latent_size := Some 512; g_structure := None;
                 g_is_template_graph := false |} in
  let dcfg := {| d_num_channels := 1; d_resolution := 32; d_firstblock_res := 8;
                 d_label_size := 0; d_structure := None;
                 d_is_template_graph := false |} in
  let layer := fun (x : Tensor) (_ : Z) => x in
  let input := {| input_shape := None; input_values := fun _ _ _ _ => 1%Qc |} in
  G_puzzle layer layer (g_with_structure gcfg "linear") (Q2Qc (1 # 2)) input input
  = G_puzzle layer layer (g_with_structure gcfg "recursive") (Q2Qc (1 # 2)) input input
  /\
  D_puzzle layer layer (d_with_structure dcfg "linear") (Q2Qc (1 # 2)) input input
  = D_puzzle layer layer (d_with_structure dcfg "recursive") (Q2Qc (1 # 2)) input input.
Proof.
  split; [lia|]. split; [lia|].
  cbv zeta. apply C1_linear_recursive_agree; cbn; lia.
Defined.

(** C2 as stated fails: with the mode 'foo' and the default configuration
    the build does fail, but only after operations have been issued, among
    them the addition of the bias of [first_layer] to the latents. *)
Lemma C2_counterexample :
  let build :=
    BuildG.G_puzzle (fun s => Z.min (8192 / 2 ^ s) 512) 1 (Some "foo"%string)
      [512] 8 32 0 None true true true true true None false None None in
  fst build = inl ValueError /\
  In ("tf.add"%string, [None; Some 512]) (snd build).
Proof.
  cbv zeta. split; [vm_compute; reflexivity|].
  vm_compute. do 11 right. now left.
Qed.

(** C2, amended. For every mode that is none of the supported ones,
    building the generator graph fails, whatever the other arguments. The
    failure is not one raised before any operation is issued: in the default
    configuration, on inputs of unknown shape and in either structure, it is
    the [ValueError] of the convolution of the first block, which is given
    the matrix that [first_layer] hands on, and by then the bias variable of
    [first_layer] has been created and added to the latents. *)
Theorem C2_unsupported_mode_fails_late
    (nf : Z -> Z) (num_channels : Z) (mode : option string)
    (latents_sizes : list Z) (firstblock_res resolution label_size : Z)
    (latent_size : option Z)
    (normalize_latents use_wscale use_pixelnorm use_leakyrelu fused_scale : bool)
    (structure : option string) (is_template_graph : bool)
    (latents_in labels_in : static_shape) :
  (forall m, In m Layout.supported_modes -> mode <> Some m) ->
  let build :=
    BuildG.G_puzzle nf num_channels mode latents_sizes firstblock_res resolution
      label_size latent_size normalize_latents use_wscale use_pixelnorm
      use_leakyrelu fused_scale structure is_template_graph latents_in labels_in in
  let default :=
    BuildG.G_puzzle (fun stage => Z.min (8192 / 2 ^ stage) 512) 1 mode
      [512] 8 32 0 None true true true true true None is_template_graph
      None None in
  (exists e, fst build = inl e)
  /\
  (fst default = inl ValueError /\
   In ("tf.get_variable"%string, [Some 512]) (snd default) /\
   In ("tf.add"%string, [None; Some 512]) (snd default)).
Proof.
  intros Hmode build default. split.
  - now apply G_puzzle_unsupported_fails.
  - destruct (G_puzzle_unsupported_late
                (fun stage => Z.min (8192 / 2 ^ stage) 512) 1 mode
                [512] 8 32 0 None true true true true true None is_template_graph
                None None Hmode 5)
      as [Hfails [n [v [Hshape [Hvar Hadd]]]]];
      try reflexivity; try lia.
    + repeat constructor. lia.
    + destruct is_template_graph; [left|right]; reflexivity.
    + vm_compute in Hshape. injection Hshape as <- <-.
      repeat split; assumption.
Qed.

(** No mode at all, which is the default, in the template graph. *)
Lemma C2_witness :
  let default :=
    BuildG.G_puzzle (fun stage => Z.min (8192 / 2 ^ stage) 512) 1 None
      [512] 8 32 0 None true true true true true None true None None in
  (exists e, fst default = inl e) /\
  fst default = inl ValueError /\
  In ("tf.get_variable"%string, [Some 512]) (snd default) /\
  In ("tf.add"%string, [None; Some 512]) (snd default).
Proof.
  intros default.
  apply (C2_unsupported_mode_fails_late
           (fun stage => Z.min (8192 / 2 ^ stage) 512) 1 None
           [512] 8 32 0 None true true true true true None true None None).
  intros m _. discriminate.
Defined.


(** C4 as stated fails on the linear structure: with [lod_in - lod = 2]
    the loop yields [y], the unclipped interpolation [x + (y - x) * 2]. *)
Lemma C4_counterexample :
  let layer := fun (x : Tensor) (_ : Z) => x in
  let x : Tensor := fun _ _ _ _ => 0%Qc in
  let img : Tensor := fun _ _ _ _ => 1%Qc in
  snd (D.linear_step layer layer 5 (ofZ 2) (img, x) 5) <>
  lerp (layer x 5) (layer (downscale2d img 2) (5 - 1)) (ofZ 2 - ofZ (5 - 5))%Qc.
Proof.
  cbv zeta. intros H.
  apply (f_equal (fun t : Tensor => t 0 0 0 0)) in H.
  vm_compute in H. discriminate H.
Qed.

(** C4, amended. The linear structure blends with the clipped
    [lerp_clip(x, y, lod_in - lod)]; the recursive structure blends with the
    unclipped [lerp(x, y, lod_in - lod)], and only under the guard
    [lod_in > lod] of a stage above the first one. *)
Theorem C4_discriminator_blend
    (fromrgb block : Tensor -> Z -> Tensor)
    (resolution_log2 firstblock_res_log2 : Z) (lod_in : Qc) (images_in : Tensor) :
  (forall (img x : Tensor) (res : Z),
     D.linear_step fromrgb block resolution_log2 lod_in (img, x) res =
     (downscale2d img 2,
      lerp_clip (block x res) (fromrgb (downscale2d img 2) (res - 1))
        (lod_in - ofZ (resolution_log2 - res))%Qc))
  /\
  (forall (lod : nat) (res : Z),
     let grow := D.grow fromrgb block firstblock_res_log2 lod_in images_in in
     let x :=
       block
         (match lod with
          | S lod' =>
              if qlt lod_in (ofZ (Z.of_nat lod)) then grow lod' (res + 1)
              else fromrgb (downscale2d images_in (pow2 lod)) res
          | O => fromrgb (downscale2d images_in (pow2 lod)) res
          end) res in
     grow lod res =
     if (firstblock_res_log2 <? res) && qlt (ofZ (Z.of_nat lod)) lod_in
     then lerp x (fromrgb (downscale2d images_in (pow2 (lod + 1))) (res - 1))
            (lod_in - ofZ (Z.of_nat lod))%Qc
     else x).
Proof.
  split.
  - reflexivity.
  - intros lod res. cbv zeta.
    destruct lod as [|lod']; cbn [D.grow]; unfold cset;
      destruct (firstblock_res_log2 <? res); cbn [andb];
      try destruct (qlt (ofZ (Z.of_nat _)) lod_in); reflexivity.
Qed.

(** C5 as stated fails: built at the default first stage 8 x 8
    ([firstblock_res_log2 = 3]), the seed feature map of '4parts-digits' is
    16 x 16. *)
Lemma C5_counterexample :
  fst (BuildG.first_layer (fun s => Z.min (8192 / 2 ^ s) 512)
         (Some "4parts-digits"%string) [128; 128; 128; 128] true true true
         [None; Some 512] 3)
  = Ok [None; Some 512; Some 16; Some 16]
  /\ 16 <> 2 ^ 3.
Proof. split; [vm_compute; reflexivity|discriminate]. Qed.

(** C5, amended. For every supported mode the tiles [first_layer]
    assembles partition the seed feature map exactly, and the seed map is
    8 x 8 ('2parts-faces', '5parts-faces', '2parts-bedrooms') or 16 x 16
    ('4parts-digits'), whatever stage it is built at. *)
Theorem C5_tiles_partition_seed (mode : string) :
  In mode Layout.supported_modes ->
  (exists g,
     Layout.first_layer mode = Some g /\
     Layout.height g = Z.to_nat (Layout.side mode) /\
     Forall (fun row => List.length row = Z.to_nat (Layout.side mode)) g /\
     Layout.exact_partition g (Layout.side mode) (Layout.tiles mode))
  /\
  (forall (nf : Z -> Z) (latents_sizes : list Z)
          (use_wscale use_pixelnorm use_leakyrelu : bool)
          (n d : option Z) (res : Z) (s : Build.shape),
     fst (BuildG.first_layer nf (Some mode) latents_sizes use_wscale
            use_pixelnorm use_leakyrelu [n; d] res) = Ok s ->
     s = [n; Some (nf (res - 1)); Some (Layout.side mode);
          Some (Layout.side mode)]).
Proof.
  intros Hin. split.
  - destruct (layout_of_supported mode Hin) as [g (Hg & Hh & Hw & Hp & Hc)].
    exists g. repeat split; try assumption;
      apply (exact_partition_checked g _ _ Hp Hc
               (distinct_names_supported mode Hin)).
  - intros nf latents_sizes use_wscale use_pixelnorm use_leakyrelu n d res s H.
    now apply (first_layer_shape nf latents_sizes use_wscale use_pixelnorm
                 use_leakyrelu mode n d res s Hin).
Qed.

Lemma C5_witness :
  (exists g,
     Layout.first_layer "2parts-bedrooms" = Some g /\
     Layout.height g = 8%nat /\
     Forall (fun row => List.length row = 8%nat) g /\
     Layout.exact_partition g 8 (Layout.tiles "2parts-bedrooms"))
  /\
  fst (BuildG.first_layer (fun s => Z.min (8192 / 2 ^ s) 512)
         (Some "2parts-bedrooms"%string) [256; 256] true true true
         [None; Some 512] 3)
  = Ok [None; Some 512; Some 8; Some 8].
Proof.
  destruct (C5_tiles_partition_seed "2parts-bedrooms") as [Hlayout Hshape].
  - cbn. auto.
  - split; [exact Hlayout|reflexivity].
Defined.

(** C6 as stated fails: [get_weight([5])] returns a weight. *)
Lemma C6_counterexample :
  fst (BuildLayers.get_weight [5] false) =
  Ok {| BuildLayers.w_shape := [5]; BuildLayers.w_fan_in := 1 |}.
Proof. reflexivity. Qed.

(** C6, amended. [get_weight] has no check of the rank: for a shape of
    fewer than 2 dimensions, each in the range of a 32-bit integer, it fails
    only when a dimension is negative, which [tf.get_variable] rejects with
    a [ValueError] as it does at any rank; otherwise it returns a weight of
    that shape, whose fan-in is the empty product 1. *)
Theorem C6_get_weight_low_rank (shp : list Z) (use_wscale : bool) :
  (List.length shp < 2)%nat ->
  Forall (fun d => - 2 ^ 31 <= d < 2 ^ 31) shp ->
  fst (BuildLayers.get_weight shp use_wscale) =
  if forallb (fun d => 0 <=? d) shp
  then Ok {| BuildLayers.w_shape := shp; BuildLayers.w_fan_in := 1 |}
  else inl ValueError.
Proof.
  intros Hlen _.
  destruct (forallb (fun d => 0 <=? d) shp) eqn:E.
  - rewrite get_weight_returns by exact E.
    destruct shp as [|a [|b shp]]; [reflexivity|reflexivity|].
    cbn in Hlen. lia.
  - now apply get_weight_rejects.
Qed.

(** A vector of 5 entries with the scale of the weights applied at run
    time, and a vector of a negative extent. *)
Lemma C6_witness :
  fst (BuildLayers.get_weight [5] true) =
  Ok {| BuildLayers.w_shape := [5]; BuildLayers.w_fan_in := 1 |}
  /\
  fst (BuildLayers.get_weight [-1] true) = inl ValueError.
Proof.
  split.
  - apply (C6_get_weight_low_rank [5] true); [cbn; lia|].
    repeat constructor; cbn; lia.
  - apply (C6_get_weight_low_rank [-1] true); [cbn; lia|].
    repeat constructor; cbn; lia.
Defined.

(** C7 as stated fails. With the 3 x 3 filter that has a single 1 in its
    first tap, the fused upscaling convolution of a 1 x 1 input differs
    from the separate one; and on an input of odd extent 3 x 3 the fused
    downscaling convolution yields 2 rows where the separate one yields 1. *)
Lemma C7_counterexample :
  let x1 := {| Sized.channels := 1; Sized.height := 1; Sized.width := 1;
               Sized.values := fun _ _ _ _ => 1%Qc |} in
  let x3 := {| Sized.channels := 1; Sized.height := 3; Sized.width := 3;
               Sized.values := fun _ _ _ _ => 1%Qc |} in
  let w : Tensor := fun i j _ _ => if (i =? 0) && (j =? 0) then 1%Qc else 0%Qc in
  Sized.upscale2d_conv2d x1 w 1 3 <> Sized.conv2d (Sized.upscale2d x1 2) w 1 3
  /\
  Sized.conv2d_downscale2d x3 w 1 3 <>
  (y <- Sized.conv2d x3 w 1 3 ;; Sized.downscale2d y 2).
Proof.
  cbv zeta. split; intros H.
  - apply (f_equal (fun r : result Sized.SizedTensor =>
                      match r with
                      | inr t => Sized.values t 0 0 0 0
                      | inl _ => 0%Qc
                      end)) in H.
    vm_compute in H. discriminate H.
  - apply (f_equal (fun r : result Sized.SizedTensor =>
                      match r with
                      | inr t => Sized.height t
                      | inl _ => -1
                      end)) in H.
    vm_compute in H. discriminate H.
Qed.

(** C7, amended. With the same weight, [conv2d_downscale2d] equals
    [downscale2d] after [conv2d] on every input whose height and width are
    even and positive, the numbers of feature maps not being negative.
    Nothing is stated of [upscale2d_conv2d]. *)
Theorem C7_fused_matches_separate
    (x : Sized.SizedTensor) (w : Tensor) (fmaps kernel : Z) :
  0 <= Sized.channels x -> 0 <= fmaps ->
  0 < Sized.height x -> 0 < Sized.width x ->
  Sized.height x mod 2 = 0 -> Sized.width x mod 2 = 0 ->
  Sized.conv2d_downscale2d x w fmaps kernel =
  (y <- Sized.conv2d x w fmaps kernel ;; Sized.downscale2d y 2).
Proof.
  intros _ _ Hh Hw Heh Hew. now apply conv2d_downscale2d_even.
Qed.

(** A 4 x 2 map of two channels under a 3 x 3 filter without symmetry. *)
Lemma C7_witness :
  let x := {| Sized.channels := 2; Sized.height := 4; Sized.width := 2;
              Sized.values := fun _ c h w => ofZ (1 + c + h * 2 + w) |} in
  let w : Tensor := fun i j c o => ofZ (1 + i * 3 + j + c - o) in
  Sized.conv2d_downscale2d x w 3 3 =
  (y <- Sized.conv2d x w 3 3 ;; Sized.downscale2d y 2).
Proof.
  intros x w.
  apply (C7_fused_matches_separate x w 3 3); cbn; lia.
Defined.

(** C8. With positive [fmap_base], non-negative [fmap_decay] and positive
    [fmap_max], [nf] does not increase with the stage and never exceeds
    [fmap_max]. *)
Theorem C8_nf_monotone_and_bounded
    (fmap_base fmap_decay : R) (fmap_max : Z) :
  (0 < fmap_base)%R -> (0 <= fmap_decay)%R -> 0 < fmap_max ->
  (forall s1 s2 : Z, s1 <= s2 ->
     nf fmap_base fmap_decay fmap_max s1 >= nf fmap_base fmap_decay fmap_max s2)
  /\
  (forall s : Z, nf fmap_base fmap_decay fmap_max s <= fmap_max).
Proof.
  intros Hb Hd Hm. split.
  - intros s1 s2 Hs. apply Z.le_ge. now apply nf_mono.
  - intros s. apply nf_le_fmap_max.
Qed.

(** The default schedule: [fmap_base = 8192], [fmap_decay = 1.0],
    [fmap_max = 512], between stages 2 and 4. *)
Lemma C8_witness :
  nf 8192 1 512 2 >= nf 8192 1 512 4 /\ nf 8192 1 512 4 <= 512.
Proof.
  destruct (C8_nf_monotone_and_bounded 8192 1 512) as [Hmono Hmax].
  - apply (IZR_lt 0 8192). lia.
  - apply (IZR_le 0 1). lia.
  - lia.
  - split; [apply Hmono; lia|apply Hmax].
Defined.

(** *** The blends in float32 *)

Lemma clip_by_value_below (t : spec_float) :
  SFltb t F32.zero = true -> F32.clip_by_value t F32.zero F32.one = F32.zero.
Proof.
  intros H. destruct t as [s|[]| |[] m e]; try discriminate H; reflexivity.
Qed.

Lemma clip_by_value_above (t : spec_float) :
  SFltb F32.one t = true -> F32.clip_by_value t F32.zero F32.one = F32.one.
Proof.
  intros H. unfold F32.clip_by_value, F32.minimum. rewrite H. reflexivity.
Qed.

Lemma SFeqb_refl (x : spec_float) : F32.finite x = true -> SFeqb x x = true.
Proof.
  destruct x as [s| | |s m e]; try discriminate; intros _; [reflexivity|].
  unfold SFeqb, SFcompare. rewrite Z.compare_refl.
  change (PosDef.Pos.compare_cont Eq m m) with (Pos.compare m m).
  rewrite Pos.compare_refl. now destruct s.
Qed.

(** A finite difference times [0.0] is a zero, which leaves [a] as it is, up
    to the sign of a zero. *)
Lemma add_mul_zero (a d : spec_float) :
  F32.finite a = true -> F32.finite d = true ->
  SFeqb (F32.add a (F32.mul d F32.zero)) a = true.
Proof.
  intros Ha Hd.
  destruct d as [sd| | |sd md ed]; try discriminate Hd;
    destruct a as [sa| | |sa ma ea]; try discriminate Ha;
    cbn [F32.mul SFmul F32.zero F32.add SFadd xorb];
    try (destruct sa, sd; reflexivity);
    apply (SFeqb_refl (S754_finite sa ma ea)); reflexivity.
Qed.

(** In float32 the blend at weight 1 is the rounded [a + (b - a)], which
    is not [b] when [b] is lost in the rounding of [b - a]: with [a = 1.0]
    and [b = 1e-10] the difference rounds to [-1.0] and the blend is [0.0],
    also past the end of [lerp_clip] (here at [t = 2.0]). At weight 0 the
    blend is not [a] when [b - a] overflows: with [a] the least and [b] the
    greatest finite number the difference is an infinity and the blend is a
    NaN. *)
Lemma C9_counterexample :
  let a : F32.FTensor := fun _ _ _ _ => F32.one in
  let b : F32.FTensor := fun _ _ _ _ => S754_finite false 14411519 (-57) in
  let lo : F32.FTensor := fun _ _ _ _ => S754_finite true 16777215 104 in
  let hi : F32.FTensor := fun _ _ _ _ => S754_finite false 16777215 104 in
  F32.lerp a b F32.one 0 0 0 0 = S754_zero false /\
  SFeqb (F32.lerp a b F32.one 0 0 0 0) (b 0 0 0 0) = false /\
  SFeqb (F32.lerp_clip a b (S754_finite false 8388608 (-22)) 0 0 0 0) (b 0 0 0 0)
  = false /\
  F32.lerp lo hi F32.zero 0 0 0 0 = S754_nan /\
  SFeqb (F32.lerp lo hi F32.zero 0 0 0 0) (lo 0 0 0 0) = false.
Proof. cbv zeta. repeat split; vm_compute; reflexivity. Qed.

(** C9. In exact arithmetic [lerp(a, b, 0) == a], [lerp(a, b, 1) == b], and
    [lerp_clip] saturates outside [0, 1]: it is [lerp_clip(a, b, 0) == a]
    for [t < 0] and [lerp_clip(a, b, 1) == b] for [t > 1]. In float32
    [lerp_clip(a, b, t)] is [lerp(a, b, 0)] for [t < 0] and [lerp(a, b, 1)]
    for [t > 1], and [lerp(a, b, 0) == a] at every element where [a] and
    [b - a] are finite. *)
Theorem C9_lerp_endpoints_and_saturation (a b : Tensor) (fa fb : F32.FTensor) :
  (lerp a b 0%Qc = a /\
   lerp a b 1%Qc = b /\
   (forall t : Qc, (t < 0)%Qc ->
      lerp_clip a b t = lerp_clip a b 0%Qc /\ lerp_clip a b 0%Qc = a) /\
   (forall t : Qc, (1 < t)%Qc ->
      lerp_clip a b t = lerp_clip a b 1%Qc /\ lerp_clip a b 1%Qc = b))
  /\
  ((forall t : spec_float, SFltb t F32.zero = true ->
      F32.lerp_clip fa fb t = F32.lerp fa fb F32.zero) /\
   (forall t : spec_float, SFltb F32.one t = true ->
      F32.lerp_clip fa fb t = F32.lerp fa fb F32.one) /\
   (forall n c h w : Z,
      F32.finite (fa n c h w) = true ->
      F32.finite (F32.sub (fb n c h w) (fa n c h w)) = true ->
      SFeqb (F32.lerp fa fb F32.zero n c h w) (fa n c h w) = true)).
Proof.
  split; [repeat split|repeat split].
  - apply lerp_0.
  - apply lerp_1.
  - rewrite !lerp_clip_low; [reflexivity|apply Qcle_refl|now apply Qclt_le_weak].
  - apply lerp_clip_low, Qcle_refl.
  - rewrite !lerp_clip_high; [reflexivity|apply Qcle_refl|now apply Qclt_le_weak].
  - apply lerp_clip_high, Qcle_refl.
  - intros t Ht. unfold F32.lerp_clip, F32.lerp.
    now rewrite (clip_by_value_below t Ht).
  - intros t Ht. unfold F32.lerp_clip, F32.lerp.
    now rewrite (clip_by_value_above t Ht).
  - intros n c h w Ha Hd. unfold F32.lerp. now apply add_mul_zero.
Qed.

(** Between 3 and 7, at weights -1 and 2. *)
Lemma C9_witness :
  let a : Tensor := fun _ _ _ _ => ofZ 3 in
  let b : Tensor := fun _ _ _ _ => ofZ 7 in
  let fa : F32.FTensor := fun _ _ _ _ => S754_finite false 12582912 (-22) in
  let fb : F32.FTensor := fun _ _ _ _ => S754_finite false 14680064 (-21) in
  (lerp_clip a b (ofZ (-1)) = a /\ lerp_clip a b (ofZ 2) = b) /\
  F32.lerp_clip fa fb (S754_finite true 8388608 (-23)) = F32.lerp fa fb F32.zero /\
  F32.lerp_clip fa fb (S754_finite false 8388608 (-22)) = F32.lerp fa fb F32.one /\
  SFeqb (F32.lerp fa fb F32.zero 0 0 0 0) (fa 0 0 0 0) = true.
Proof.
  cbv zeta.
  destruct (C9_lerp_endpoints_and_saturation
              (fun _ _ _ _ => ofZ 3) (fun _ _ _ _ => ofZ 7)
              (fun _ _ _ _ => S754_finite false 12582912 (-22))
              (fun _ _ _ _ => S754_finite false 14680064 (-21)))
    as ((_ & _ & Hlow & Hhigh) & Flow & Fhigh & Fzero).
  split; [split|split; [|split]].
  - destruct (Hlow (ofZ (-1))) as [H1 H2]; [reflexivity|].
    now rewrite H1.
  - destruct (Hhigh (ofZ 2)) as [H1 H2]; [reflexivity|].
    now rewrite H1.
  - apply Flow. reflexivity.
  - apply Fhigh. reflexivity.
  - apply Fzero; reflexivity.
Defined.

(** C10. The labels do not reach the output: with two label inputs that
    both pass [labels_in.set_shape([None, label_size])], [G_puzzle] yields
    the same images and [D_puzzle] the same scores. *)
Theorem C10_labels_do_not_interfere
    (g_block torgb fromrgb d_block : Tensor -> Z -> Tensor)
    (gcfg : GConfig) (dcfg : DConfig) (lod_in : Qc)
    (latents_in images_in : Input) :
  (forall labels1 labels2 : Input,
     set_shape (input_shape labels1) [None; Some (g_label_size gcfg)] = Ok tt ->
     set_shape (input_shape labels2) [None; Some (g_label_size gcfg)] = Ok tt ->
     G_puzzle g_block torgb gcfg lod_in latents_in labels1 =
     G_puzzle g_block torgb gcfg lod_in latents_in labels2)
  /\
  (forall labels1 labels2 : Input,
     set_shape (input_shape labels1) [None; Some (d_label_size dcfg)] = Ok tt ->
     set_shape (input_shape labels2) [None; Some (d_label_size dcfg)] = Ok tt ->
     D_puzzle fromrgb d_block dcfg lod_in images_in labels1 =
     D_puzzle fromrgb d_block dcfg lod_in images_in labels2).
Proof.
  split; intros labels1 labels2 H1 H2.
  - unfold G_puzzle. now rewrite H1, H2.
  - unfold D_puzzle. now rewrite H1, H2.
Qed.

Lemma C10_witness :
  let gcfg := {| g_resolution := 32; g_firstblock_res := 8; g_label_size := 10;
                 g_fmap_base := 8192%R; g_fmap_decay := 1%R; g_fmap_max := 512;
                 g_latent_size := Some 512; g_structure := None;
                 g_is_template_graph := false |} in
  let dcfg := {| d_num_channels := 1; d_resolution := 32; d_firstblock_res := 8;
                 d_label_size := 10; d_structure := None;
                 d_is_template_graph := false |} in
  let layer := fun (x : Tensor) (_ : Z) => x in
  let input := {| input_shape := None; input_values := fun _ _ _ _ => 1%Qc |} in
  let labels1 := {| input_shape := Some [Some 4; Some 10];
                    input_values := fun _ _ _ _ => 0%Qc |} in
  let labels2 := {| input_shape := Some [None; Some 10];
                    input_values := fun _ c _ _ => ofZ c |} in
  G_puzzle layer layer gcfg 0%Qc input labels1 =
  G_puzzle layer layer gcfg 0%Qc input labels2
  /\
  D_puzzle layer layer dcfg 0%Qc input labels1 =
  D_puzzle layer layer dcfg 0%Qc input labels2.
Proof.
  intros gcfg dcfg layer input labels1 labels2.
  destruct (C10_labels_do_not_interfere layer layer layer layer gcfg dcfg
              0%Qc input input) as [HG HD].
  split.
  - apply HG; reflexivity.
  - apply HD; reflexivity.
Defined.

(** * Further properties *)

(** ** Scaling layers *)

Section ScalingFacts.

Local Open Scope Qc_scope.

Lemma sum_to_const (n : nat) (v : Qc) :
  sum_to n (fun _ => v) = ofZ (Z.of_nat n) * v.
Proof.
  induction n as [|n IH]; cbn [sum_to].
  - change (ofZ (Z.of_nat 0)) with 0. ring.
  - rewrite IH, ofZ_nat_S. ring.
Qed.

Lemma avg_pool_upscale2d (x : Tensor) (f : positive) :
  avg_pool (upscale2d x f) f = x.
Proof.
  apply tensor_ext. intros n c p q. unfold avg_pool.
  rewrite (sum_to_ext _ _ (fun _ => sum_to (Pos.to_nat f) (fun _ => x n c p q))).
  2:{ intros a Ha. apply sum_to_ext. intros b Hb. rewrite upscale2d_at.
      f_equal.
      - rewrite Z.div_add_l by lia. rewrite Z.div_small by lia. lia.
      - rewrite Z.div_add_l by lia. rewrite Z.div_small by lia. lia. }
  rewrite !sum_to_const, positive_nat_Z, ofZ_mul.
  pose proof (ofZ_pos_neq_0 f). unfold Qcdiv. field. auto.
Qed.

End ScalingFacts.

(** X1. Upscaling twice is upscaling once by the product of the factors. *)
Theorem X1_upscale2d_composes (x : Tensor) (f g : positive) :
  upscale2d (upscale2d x f) g = upscale2d x (f * g).
Proof. apply upscale2d_upscale2d. Qed.

(** X2. Downscaling twice is downscaling once by the product of the
    factors: a box filter of box filters is the box filter of the product
    size. *)
Theorem X2_downscale2d_composes (x : Tensor) (f g : positive) :
  downscale2d (downscale2d x f) g = downscale2d x (f * g).
Proof. apply downscale2d_downscale2d. Qed.

(** X3. Downscaling undoes upscaling by the same factor. *)
Theorem X3_downscale2d_upscale2d (x : Tensor) (f : positive) :
  downscale2d (upscale2d x f) f = x.
Proof.
  unfold downscale2d. destruct (Pos.eqb_spec f 1) as [->|_].
  - reflexivity.
  - apply avg_pool_upscale2d.
Qed.

(** ** Interpolation stays in range *)

Section LerpRange.

Local Open Scope Qc_scope.

Lemma clip_by_value_range (t : Qc) :
  0 <= clip_by_value t 0 1 /\ clip_by_value t 0 1 <= 1.
Proof.
  destruct (Qclt_le_dec t 0) as [Hneg|Hpos].
  - rewrite clip_low by (now apply Qclt_le_weak). split; [apply Qcle_refl|].
    now apply Qclt_le_weak.
  - destruct (Qclt_le_dec 1 t) as [Hbig|Hsmall].
    + rewrite clip_high by (now apply Qclt_le_weak). split; [|apply Qcle_refl].
      now apply Qclt_le_weak.
    + rewrite clip_mid by assumption. now split.
Qed.

Lemma Qcmult_nonneg (x y : Qc) : 0 <= x -> 0 <= y -> 0 <= x * y.
Proof.
  intros Hx Hy. replace 0 with (0 * y) by ring.
  now apply Qcmult_le_compat_r.
Qed.

Lemma convex_between (a b s : Qc) :
  0 <= s -> s <= 1 -> a <= b ->
  a <= a + (b - a) * s /\ a + (b - a) * s <= b.
Proof.
  intros H0 H1 Hab.
  assert (Hd : 0 <= b - a) by qc_lra.
  assert (Hp : 0 <= (b - a) * s) by (now apply Qcmult_nonneg).
  assert (Hq : 0 <= (b - a) * (1 - s)).
  { apply Qcmult_nonneg; [exact Hd|qc_lra]. }
  replace ((b - a) * (1 - s)) with ((b - a) - (b - a) * s) in Hq by ring.
  set (m := (b - a) * s) in *. clearbody m. split; qc_lra.
Qed.

End LerpRange.

(** X4. In exact arithmetic [lerp_clip] never extrapolates: whatever the
    weight [t], each entry of [lerp_clip(a, b, t)] lies between the entries
    of [a] and [b]. This is a statement about the rational blend only: in
    float32 the rounding of [b - a] can take the blend outside, as the
    blend of 1.0 and 1e-10 at weight 1, which is 0.0. *)
Theorem X4_lerp_clip_between (a b : Tensor) (t : Qc) (n c h w : Z) :
  ((a n c h w <= b n c h w)%Qc ->
   (a n c h w <= lerp_clip a b t n c h w)%Qc /\
   (lerp_clip a b t n c h w <= b n c h w)%Qc)
  /\
  ((b n c h w <= a n c h w)%Qc ->
   (b n c h w <= lerp_clip a b t n c h w)%Qc /\
   (lerp_clip a b t n c h w <= a n c h w)%Qc).
Proof.
  destruct (clip_by_value_range t) as [H0 H1].
  unfold lerp_clip, tadd, tscale, tsub.
  set (s := clip_by_value t 0 1) in *. clearbody s.
  set (u := a n c h w). set (v := b n c h w). split; intros Huv.
  - now apply convex_between.
  - assert (E : (u + (v - u) * s = v + (u - v) * (1 - s))%Qc) by ring.
    rewrite E. apply convex_between; [qc_lra|qc_lra|exact Huv].
Qed.

(** ** What the fused convolutions compute *)

(** X5. The fused upscaling convolution computes, for every input and
    every filter, the convolution of the upscaled input with the filter
    rotated by 180 degrees in its spatial axes; an invalid kernel size fails
    the same assertion on both sides. *)
Theorem X5_upscale2d_conv2d_rotates_kernel
    (x : Sized.SizedTensor) (w : Tensor) (fmaps kernel : Z) :
  0 <= Sized.height x -> 0 <= Sized.width x ->
  Sized.upscale2d_conv2d x w fmaps kernel =
  Sized.conv2d (Sized.upscale2d x 2) (Sized.flip_kernel kernel w) fmaps kernel.
Proof. intros Hh Hw. now apply upscale2d_conv2d_rotated. Qed.

Lemma X5_witness :
  let x := {| Sized.channels := 2; Sized.height := 2; Sized.width := 3;
              Sized.values := fun n c h w => ofZ (1 + c + h * 3 + w) |} in
  let w : Tensor := fun i j c o => ofZ (i * 3 + j + c - o) in
  Sized.upscale2d_conv2d x w 2 3 =
  Sized.conv2d (Sized.upscale2d x 2) (Sized.flip_kernel 3 w) 2 3.
Proof.
  intros x w. apply X5_upscale2d_conv2d_rotates_kernel; cbn; lia.
Defined.


(** ** The level of detail at its ends *)

Section GeneratorEnds.

Variable block : Tensor -> Z -> Tensor.
Variable torgb : Tensor -> Z -> Tensor.
Variables resolution_log2 firstblock_res_log2 : Z.
Variable lod_in : Qc.

Local Abbreviation step := (G.linear_step block torgb resolution_log2 lod_in).
Local Abbreviation rest res := (range (res + 1) (resolution_log2 + 1)).

(** With [lod_in <= 0] every stage of the linear loop shows its own
    image. *)
Lemma G_linear_finest (l : nat) : forall (res : Z) (y io : Tensor),
  resolution_log2 - res = Z.of_nat l ->
  (lod_in <= 0)%Qc ->
  fold_left step (rest res) (y, io) =
  (fold_left block (rest res) y,
   match l with
   | O => io
   | S _ => torgb (fold_left block (rest res) y) resolution_log2
   end).
Proof.
  induction l as [|l IH]; intros res y io Hres Hlod.
  - rewrite range_nil by lia. reflexivity.
  - rewrite range_cons by lia. cbn [fold_left G.linear_step].
    assert (Hw : (lod_in - ofZ (resolution_log2 - (res + 1)) <= 0)%Qc).
    { assert (H0 : (ofZ 0 <= ofZ (resolution_log2 - (res + 1)))%Qc)
        by (apply ofZ_le; lia).
      change (ofZ 0) with 0%Qc in H0. qc_lra. }
    rewrite lerp_clip_low by exact Hw.
    rewrite IH by (lia || assumption).
    destruct l as [|l']; [|reflexivity].
    rewrite range_nil by lia. cbn [fold_left].
    now replace (res + 1) with resolution_log2 by lia.
Qed.

End GeneratorEnds.

(** X7. While [lod_in] is at least the number of growth stages, both
    structures of the generator show the image of the first block alone,
    upscaled to the full resolution. *)
Theorem X7_generator_coarsest
    (block torgb : Tensor -> Z -> Tensor)
    (resolution_log2 firstblock_res_log2 : Z) (lod_in : Qc) (combo_in : Tensor) :
  firstblock_res_log2 <= resolution_log2 ->
  (ofZ (resolution_log2 - firstblock_res_log2) <= lod_in)%Qc ->
  let shown :=
    upscale2d (torgb (block combo_in firstblock_res_log2) firstblock_res_log2)
      (pow2 (Z.to_nat (resolution_log2 - firstblock_res_log2))) in
  G.linear block torgb resolution_log2 firstblock_res_log2 lod_in combo_in = shown
  /\
  G.recursive block torgb resolution_log2 firstblock_res_log2 lod_in combo_in
  = Some shown.
Proof.
  intros Hle Hlod shown.
  assert (Hlin : G.linear block torgb resolution_log2 firstblock_res_log2
                   lod_in combo_in = shown).
  { unfold G.linear, shown. apply G_linear_saturates; [lia|].
    intros _. now rewrite Z2Nat.id by lia. }
  split; [exact Hlin|].
  rewrite G_linear_recursive by exact Hle. now rewrite Hlin.
Qed.

Lemma X7_witness :
  let layer := fun (x : Tensor) (res : Z) => tscale x (ofZ res) in
  let combo_in : Tensor := fun n c _ _ => ofZ (n + c) in
  let shown := upscale2d (layer (layer combo_in 3) 3) (pow2 2) in
  G.linear layer layer 5 3 (ofZ 2) combo_in = shown /\
  G.recursive layer layer 5 3 (ofZ 2) combo_in = Some shown.
Proof.
  intros layer combo_in shown.
  apply (X7_generator_coarsest layer layer 5 3 (ofZ 2) combo_in).
  - lia.
  - apply Qcle_refl.
Defined.

(** X8. With [lod_in <= 0] both structures of the generator show the image
    of the last block alone: the blocks are chained from the first stage to
    the last and the last one is projected. *)
Theorem X8_generator_finest
    (block torgb : Tensor -> Z -> Tensor)
    (resolution_log2 firstblock_res_log2 : Z) (lod_in : Qc) (combo_in : Tensor) :
  firstblock_res_log2 <= resolution_log2 ->
  (lod_in <= 0)%Qc ->
  let shown :=
    torgb (fold_left block (range (firstblock_res_log2 + 1) (resolution_log2 + 1))
             (block combo_in firstblock_res_log2))
      resolution_log2 in
  G.linear block torgb resolution_log2 firstblock_res_log2 lod_in combo_in = shown
  /\
  G.recursive block torgb resolution_log2 firstblock_res_log2 lod_in combo_in
  = Some shown.
Proof.
  intros Hle Hlod shown.
  assert (Hlin : G.linear block torgb resolution_log2 firstblock_res_log2
                   lod_in combo_in = shown).
  { unfold G.linear, shown.
    rewrite (G_linear_finest block torgb resolution_log2 lod_in
               (Z.to_nat (resolution_log2 - firstblock_res_log2)))
      by (lia || assumption).
    cbn [snd].
    destruct (Z.to_nat (resolution_log2 - firstblock_res_log2)) eqn:E;
      [|reflexivity].
    rewrite range_nil by lia. cbn [fold_left].
    now replace resolution_log2 with firstblock_res_log2 by lia. }
  split; [exact Hlin|].
  rewrite G_linear_recursive by exact Hle. now rewrite Hlin.
Qed.

Lemma X8_witness :
  let layer := fun (x : Tensor) (res : Z) => tscale x (ofZ res) in
  let combo_in : Tensor := fun n c _ _ => ofZ (n + c) in
  let shown := layer (fold_left layer (range 4 6) (layer combo_in 3)) 5 in
  G.linear layer layer 5 3 0%Qc combo_in = shown /\
  G.recursive layer layer 5 3 0%Qc combo_in = Some shown.
Proof.
  intros layer combo_in shown.
  apply (X8_generator_finest layer layer 5 3 0%Qc combo_in).
  - lia.
  - apply Qcle_refl.
Defined.

Section DiscriminatorEnds.

Variable fromrgb : Tensor -> Z -> Tensor.
Variable block : Tensor -> Z -> Tensor.
Variables resolution_log2 firstblock_res_log2 : Z.
Variable lod_in : Qc.
Variable images_in : Tensor.

Local Abbreviation state :=
  (D.linear_state fromrgb block resolution_log2 lod_in images_in).
Local Abbreviation stages l :=
  (map (fun i => resolution_log2 - Z.of_nat i) (seq 0 l)).

(** With [lod_in <= 0] the linear loop chains the blocks on the full
    image. *)
Lemma D_state_finest (l : nat) :
  (lod_in <= 0)%Qc ->
  snd (state l) = fold_left block (stages l) (fromrgb images_in resolution_log2).
Proof.
  intros Hlod. induction l as [|l IH]; [reflexivity|].
  rewrite D_state_step. cbn [snd].
  assert (H0 : (ofZ 0 <= ofZ (Z.of_nat l))%Qc) by (apply ofZ_le; lia).
  change (ofZ 0) with 0%Qc in H0.
  rewrite lerp_clip_low by qc_lra.
  rewrite seq_S, map_app, fold_left_app, IH. reflexivity.
Qed.

(** With [lod_in] at or above the level of a stage, what leaves the stage
    is the projection of the downscaled image. *)
Lemma D_state_coarsest (l : nat) :
  (ofZ (Z.of_nat (S l)) <= lod_in)%Qc ->
  snd (state (S l)) =
  fromrgb (downscale2d images_in (pow2 (S l))) (resolution_log2 - Z.of_nat (S l)).
Proof.
  intros Hlod. rewrite D_state_step. cbn [snd].
  rewrite ofZ_nat_S in Hlod. rewrite lerp_clip_high by qc_lra.
  rewrite D_state_img, downscale2d_downscale2d, pow2_S, Pos.mul_comm.
  f_equal. lia.
Qed.

Lemma D_linear_state :
  D.linear fromrgb block resolution_log2 firstblock_res_log2 lod_in images_in =
  block (snd (state (Z.to_nat (resolution_log2 - firstblock_res_log2))))
    firstblock_res_log2.
Proof.
  unfold D.linear, range_down. rewrite D_fold_state.
  now destruct (state _).
Qed.

End DiscriminatorEnds.

(** X9. With [lod_in <= 0] both structures of the discriminator score the
    full-resolution image alone: its projection runs through the blocks from
    the last stage down to the first. *)
Theorem X9_discriminator_finest
    (fromrgb block : Tensor -> Z -> Tensor)
    (resolution_log2 firstblock_res_log2 : Z) (lod_in : Qc) (images_in : Tensor) :
  firstblock_res_log2 <= resolution_log2 ->
  (lod_in <= 0)%Qc ->
  let scores :=
    block (fold_left block (range_down resolution_log2 firstblock_res_log2)
             (fromrgb images_in resolution_log2))
      firstblock_res_log2 in
  D.linear fromrgb block resolution_log2 firstblock_res_log2 lod_in images_in
  = scores
  /\
  D.recursive fromrgb block resolution_log2 firstblock_res_log2 lod_in images_in
  = Some scores.
Proof.
  intros Hle Hlod scores.
  assert (Hlin : D.linear fromrgb block resolution_log2 firstblock_res_log2
                   lod_in images_in = scores).
  { rewrite D_linear_state. unfold scores, range_down.
    now rewrite D_state_finest. }
  split; [exact Hlin|].
  rewrite D_linear_recursive by exact Hle. now rewrite Hlin.
Qed.

Lemma X9_witness :
  let layer := fun (x : Tensor) (res : Z) => tscale x (ofZ res) in
  let images_in : Tensor := fun n c h w => ofZ (n + c + h * w) in
  let scores := layer (fold_left layer (range_down 5 3) (layer images_in 5)) 3 in
  D.linear layer layer 5 3 0%Qc images_in = scores /\
  D.recursive layer layer 5 3 0%Qc images_in = Some scores.
Proof.
  intros layer images_in scores.
  apply (X9_discriminator_finest layer layer 5 3 0%Qc images_in).
  - lia.
  - apply Qcle_refl.
Defined.

(** X10. While [lod_in] is at least the number of growth stages, both
    structures of the discriminator score the image downscaled to the first
    resolution alone: only the first block sees it. *)
Theorem X10_discriminator_coarsest
    (fromrgb block : Tensor -> Z -> Tensor)
    (resolution_log2 firstblock_res_log2 : Z) (lod_in : Qc) (images_in : Tensor) :
  firstblock_res_log2 <= resolution_log2 ->
  (ofZ (resolution_log2 - firstblock_res_log2) <= lod_in)%Qc ->
  let scores :=
    block (fromrgb
             (downscale2d images_in
                (pow2 (Z.to_nat (resolution_log2 - firstblock_res_log2))))
             firstblock_res_log2)
      firstblock_res_log2 in
  D.linear fromrgb block resolution_log2 firstblock_res_log2 lod_in images_in
  = scores
  /\
  D.recursive fromrgb block resolution_log2 firstblock_res_log2 lod_in images_in
  = Some scores.
Proof.
  intros Hle Hlod scores.
  assert (Hlin : D.linear fromrgb block resolution_log2 firstblock_res_log2
                   lod_in images_in = scores).
  { rewrite D_linear_state. unfold scores.
    destruct (Z.to_nat (resolution_log2 - firstblock_res_log2)) as [|l] eqn:E.
    - cbn [D.linear_state snd]. rewrite pow2_0, downscale2d_1.
      now replace resolution_log2 with firstblock_res_log2 by lia.
    - rewrite D_state_coarsest.
      + do 2 f_equal. lia.
      + now replace (Z.of_nat (S l))
          with (resolution_log2 - firstblock_res_log2) by lia. }
  split; [exact Hlin|].
  rewrite D_linear_recursive by exact Hle. now rewrite Hlin.
Qed.

Lemma X10_witness :
  let layer := fun (x : Tensor) (res : Z) => tscale x (ofZ res) in
  let images_in : Tensor := fun n c h w => ofZ (n + c + h * w) in
  let scores := layer (layer (downscale2d images_in (pow2 2)) 3) 3 in
  D.linear layer layer 5 3 (ofZ 2) images_in = scores /\
  D.recursive layer layer 5 3 (ofZ 2) images_in = Some scores.
Proof.
  intros layer images_in scores.
  apply (X10_discriminator_coarsest layer layer 5 3 (ofZ 2) images_in).
  - lia.
  - apply Qcle_refl.
Defined.

Section NetworkPreconditions.

Local Open Scope string_scope.

Lemma resolution_asserted (r k : Z) :
  int_log2 r = Ok k ->
  assert ((r =? 2 ^ k)%Z && (4 <=? r)%Z) = Ok tt ->
  (2 <= k)%Z /\ r = (2 ^ k)%Z.
Proof.
  intros Hk Ha. apply int_log2_ok in Hk. destruct Hk as [Hpos ->].
  unfold assert in Ha.
  destruct (Z.eqb_spec r (2 ^ Z.log2 r)) as [E|E]; [|discriminate].
  destruct (Z.leb_spec 4 r) as [H4|H4]; [|discriminate].
  split; [|exact E].
  change 2%Z with (Z.log2 4). now apply Z.log2_le_mono.
Qed.

Lemma structure_chosen (s : string) :
  (s =? "linear") || (s =? "recursive") = true ->
  In s ["linear"; "recursive"].
Proof.
  intros H. apply orb_prop in H. destruct H as [H|H]; apply String.eqb_eq in H.
  - now left.
  - right. now left.
Qed.

End NetworkPreconditions.

(** X11. [G_puzzle] returns images only if [resolution] is a power of two
    that is at least 4, [firstblock_res] is positive, the structure in
    force is 'linear' or 'recursive', and the static shapes of the latents
    and of the labels are compatible with [[None, latent_size]] and
    [[None, label_size]]. *)
Theorem X11_generator_returns_only_if
    (block torgb : Tensor -> Z -> Tensor) (cfg : GConfig) (lod_in : Qc)
    (latents_in labels_in : Input) (images_out : Tensor) :
  G_puzzle block torgb cfg lod_in latents_in labels_in = Ok images_out ->
  (exists k, 2 <= k /\ g_resolution cfg = 2 ^ k) /\
  0 < g_firstblock_res cfg /\
  In (select_structure (g_structure cfg) (g_is_template_graph cfg))
     ["linear"; "recursive"]%string /\
  set_shape (input_shape latents_in)
    [None;
     Some (match g_latent_size cfg with
           | None => nf (g_fmap_base cfg) (g_fmap_decay cfg) (g_fmap_max cfg) 0
           | Some n => n
           end)] = Ok tt /\
  set_shape (input_shape labels_in) [None; Some (g_label_size cfg)] = Ok tt.
Proof.
  unfold G_puzzle. intros H.
  destruct (int_log2 (g_resolution cfg)) as [e|rl] eqn:Er; [discriminate|].
  cbn [rbind] in H.
  destruct (assert _) as [e|[]] eqn:Ea; [discriminate|]. cbn [rbind] in H.
  destruct (int_log2 (g_firstblock_res cfg)) as [e|fl] eqn:Ef; [discriminate|].
  cbn [rbind] in H.
  destruct (set_shape (input_shape latents_in) _) as [e|[]] eqn:El;
    [discriminate|]. cbn [rbind] in H.
  destruct (set_shape (input_shape labels_in) _) as [e|[]] eqn:Eb;
    [discriminate|]. cbn [rbind] in H.
  split; [exists rl; now apply resolution_asserted|].
  split; [now apply int_log2_ok in Ef|].
  split; [|split; reflexivity].
  apply structure_chosen.
  destruct (String.eqb _ "linear"); [reflexivity|].
  destruct (String.eqb _ "recursive"); [reflexivity|].
  discriminate.
Qed.

Lemma X11_witness :
  let cfg := {| g_resolution := 32; g_firstblock_res := 8; g_label_size := 0;
                g_fmap_base := 8192%R; g_fmap_decay := 1%R; g_fmap_max := 512;
                g_latent_size := Some 512; g_structure := None;
                g_is_template_graph := true |} in
  let layer := fun (x : Tensor) (res : Z) => tscale x (ofZ res) in
  let latents_in := {| input_shape := Some [None; Some 512];
                       input_values := fun n c _ _ => ofZ (n + c) |} in
  let labels_in := {| input_shape := Some [None; Some 0];
                      input_values := fun _ _ _ _ => 0%Qc |} in
  (exists k, 2 <= k /\ g_resolution cfg = 2 ^ k) /\
  0 < g_firstblock_res cfg.
Proof.
  intros cfg layer latents_in labels_in.
  destruct (X11_generator_returns_only_if layer layer cfg 0%Qc latents_in labels_in
              (G.linear layer layer 5 3 0%Qc (input_values latents_in)))
    as [Hres [Hfirst _]].
  - reflexivity.
  - now split.
Defined.

(** X12. [D_puzzle] returns scores only if [resolution] is a power of two
    that is at least 4, [firstblock_res] is positive, the structure in
    force is 'linear' or 'recursive', and the static shapes of the images
    and of the labels are compatible with
    [[None, num_channels, resolution, resolution]] and [[None, label_size]]. *)
Theorem X12_discriminator_returns_only_if
    (fromrgb block : Tensor -> Z -> Tensor) (cfg : DConfig) (lod_in : Qc)
    (images_in labels_in : Input) (scores_out : Tensor) :
  D_puzzle fromrgb block cfg lod_in images_in labels_in = Ok scores_out ->
  (exists k, 2 <= k /\ d_resolution cfg = 2 ^ k) /\
  0 < d_firstblock_res cfg /\
  In (select_structure (d_structure cfg) (d_is_template_graph cfg))
     ["linear"; "recursive"]%string /\
  set_shape (input_shape images_in)
    [None; Some (d_num_channels cfg); Some (d_resolution cfg);
     Some (d_resolution cfg)] = Ok tt /\
  set_shape (input_shape labels_in) [None; Some (d_label_size cfg)] = Ok tt.
Proof.
  unfold D_puzzle. intros H.
  destruct (int_log2 (d_resolution cfg)) as [e|rl] eqn:Er; [discriminate|].
  cbn [rbind] in H.
  destruct (assert _) as [e|[]] eqn:Ea; [discriminate|]. cbn [rbind] in H.
  destruct (int_log2 (d_firstblock_res cfg)) as [e|fl] eqn:Ef; [discriminate|].
  cbn [rbind] in H.
  destruct (set_shape (input_shape images_in) _) as [e|[]] eqn:Ei;
    [discriminate|]. cbn [rbind] in H.
  destruct (set_shape (input_shape labels_in) _) as [e|[]] eqn:Eb;
    [discriminate|]. cbn [rbind] in H.
  split; [exists rl; now apply resolution_asserted|].
  split; [now apply int_log2_ok in Ef|].
  split; [|split; reflexivity].
  apply structure_chosen.
  destruct (String.eqb _ "linear"); [reflexivity|].
  destruct (String.eqb _ "recursive"); [reflexivity|].
  discriminate.
Qed.

Lemma X12_witness :
  let cfg := {| d_num_channels := 3; d_resolution := 32; d_firstblock_res := 8;
                d_label_size := 0; d_structure := Some "recursive"%string;
                d_is_template_graph := false |} in
  let layer := fun (x : Tensor) (res : Z) => tscale x (ofZ res) in
  let images_in := {| input_shape := Some [Some 4; Some 3; Some 32; Some 32];
                      input_values := fun n c h w => ofZ (n + c + h * w) |} in
  let labels_in := {| input_shape := None;
                      input_values := fun _ _ _ _ => 0%Qc |} in
  (exists k, 2 <= k /\ d_resolution cfg = 2 ^ k) /\
  0 < d_firstblock_res cfg.
Proof.
  intros cfg layer images_in labels_in.
  destruct (X12_discriminator_returns_only_if layer layer cfg 0%Qc images_in
              labels_in (D.grow layer layer 3 0%Qc (input_values images_in) 2%nat 3))
    as [Hres [Hfirst _]].
  - reflexivity.
  - now split.
Defined.

Section FirstBlockAboveResolution.

Lemma int_log2_pow2 (k : Z) : (0 <= k < 64)%Z -> int_log2 (2 ^ k) = Ok k.
Proof.
  intros Hk. unfold int_log2.
  assert (H : (0 < 2 ^ k)%Z) by (apply Z.pow_pos_nonneg; lia).
  assert (H' : (2 ^ k < 2 ^ 64)%Z) by (apply Z.pow_lt_mono_r; lia).
  destruct (Z.ltb_spec 0 (2 ^ k)) as [_|]; [|lia].
  destruct (Z.ltb_spec (2 ^ k) (2 ^ 64)) as [_|]; [|lia].
  now rewrite Z.log2_pow2 by lia.
Qed.

Lemma int_log2_below_2_31 (r : Z) :
  (0 < r < 2 ^ 31)%Z -> int_log2 r = Ok (Z.log2 r).
Proof.
  intros Hr. unfold int_log2.
  assert (H : (2 ^ 31 < 2 ^ 64)%Z) by (apply Z.pow_lt_mono_r; lia).
  destruct (Z.ltb_spec 0 r) as [_|]; [|lia].
  destruct (Z.ltb_spec r (2 ^ 64)) as [_|]; [reflexivity|lia].
Qed.

Lemma resolution_accepted (k : Z) :
  (2 <= k)%Z -> assert ((2 ^ k =? 2 ^ k)%Z && (4 <=? 2 ^ k)%Z) = Ok tt.
Proof.
  intros Hk. rewrite Z.eqb_refl. cbn [andb].
  assert (H : (2 ^ 2 <= 2 ^ k)%Z) by (apply Z.pow_le_mono_r; lia).
  change (2 ^ 2)%Z with 4%Z in H.
  destruct (Z.leb_spec 4 (2 ^ k)) as [_|]; [reflexivity|lia].
Qed.

Lemma int_log2_above (k r : Z) :
  (0 <= k)%Z -> (2 ^ (k + 1) <= r < 2 ^ 31)%Z ->
  int_log2 r = Ok (Z.log2 r) /\ (k < Z.log2 r < 31)%Z.
Proof.
  intros Hk Hr.
  assert (H : (0 < 2 ^ (k + 1))%Z) by (apply Z.pow_pos_nonneg; lia).
  split.
  - apply int_log2_below_2_31. lia.
  - assert (Hl : (k + 1 <= Z.log2 r)%Z) by (apply Z.log2_le_pow2; lia).
    assert (Hu : (Z.log2 r < 31)%Z) by (apply Z.log2_lt_pow2; lia).
    lia.
Qed.

(** The schedule at stage 0, for an integer [fmap_base]. *)
Lemma nf_0_exact (fmap_base : Z) (fmap_decay : R) (fmap_max : Z) :
  nf (IZR fmap_base) fmap_decay fmap_max 0 = Z.min fmap_base fmap_max.
Proof.
  unfold nf. rewrite Rmult_0_l, Rpower_O by Lra.lra.
  unfold Rdiv. rewrite Rinv_1, Rmult_1_r.
  unfold int_of_float. destruct (Rle_dec 0 (IZR fmap_base)) as [H|H].
  - f_equal. symmetry. apply Int_part_spec. Lra.lra.
  - f_equal. rewrite <- opp_IZR.
    rewrite <- (Int_part_spec (IZR (- fmap_base)) (- fmap_base)) by Lra.lra.
    lia.
Qed.

End FirstBlockAboveResolution.

(** X13. With a [resolution] [2^k] for [k >= 2] and a [firstblock_res]
    from twice the resolution up and below [2^31] (and, where [latent_size]
    is [None], an integer [fmap_base] of at most 53 bits), the linear
    structure of [G_puzzle] runs no growth stage and returns the projection
    of the first block, whatever the level of detail; the recursive
    structure fails with an [AssertionError]. *)
Theorem X13_generator_first_block_above_resolution
    (block torgb : Tensor -> Z -> Tensor) (cfg : GConfig) (lod_in : Qc)
    (latents_in labels_in : Input) (k : Z) :
  2 <= k ->
  g_resolution cfg = 2 ^ k ->
  2 ^ (k + 1) <= g_firstblock_res cfg < 2 ^ 31 ->
  (g_latent_size cfg = None ->
   exists b, g_fmap_base cfg = IZR b /\ Z.abs b <= 2 ^ 53) ->
  set_shape (input_shape latents_in)
    [None;
     Some (match g_latent_size cfg with
           | None => nf (g_fmap_base cfg) (g_fmap_decay cfg) (g_fmap_max cfg) 0
           | Some n => n
           end)] = Ok tt ->
  set_shape (input_shape labels_in) [None; Some (g_label_size cfg)] = Ok tt ->
  let first := Z.log2 (g_firstblock_res cfg) in
  G_puzzle block torgb (g_with_structure cfg "linear") lod_in latents_in labels_in
  = Ok (torgb (block (input_values latents_in) first) first)
  /\
  G_puzzle block torgb (g_with_structure cfg "recursive") lod_in latents_in labels_in
  = Raise AssertionError.
Proof.
  intros Hk Hres Hfirst _ Hlatents Hlabels first.
  destruct (int_log2_above k (g_firstblock_res cfg) ltac:(lia) ltac:(lia))
    as [Hlog Hlt].
  unfold G_puzzle, g_with_structure, select_structure.
  cbn [g_resolution g_firstblock_res g_label_size g_fmap_base g_fmap_decay
       g_fmap_max g_latent_size g_structure g_is_template_graph].
  rewrite Hres, (int_log2_pow2 k) by lia. cbn [rbind Ok].
  rewrite resolution_accepted by exact Hk. cbn [rbind Ok].
  rewrite Hlog. cbn [rbind Ok].
  rewrite Hlatents, Hlabels. cbn [rbind Ok].
  change (String.eqb "linear" "linear") with true.
  change (String.eqb "linear" "recursive") with false.
  change (String.eqb "recursive" "linear") with false.
  change (String.eqb "recursive" "recursive") with true.
  cbn [rbind Ok]. split.
  - unfold G.linear. rewrite range_nil by (fold first; lia). reflexivity.
  - unfold G.recursive.
    destruct (Z.ltb_spec (k - Z.log2 (g_firstblock_res cfg)) 0) as [_|]; [|lia].
    reflexivity.
Qed.

Lemma X13_witness :
  let cfg := {| g_resolution := 8; g_firstblock_res := 16; g_label_size := 0;
                g_fmap_base := 8192%R; g_fmap_decay := 1%R; g_fmap_max := 512;
                g_latent_size := None; g_structure := None;
                g_is_template_graph := false |} in
  let layer := fun (x : Tensor) (res : Z) => tscale x (ofZ res) in
  let input := {| input_shape := None;
                  input_values := fun n c _ _ => ofZ (n + c) |} in
  G_puzzle layer layer (g_with_structure cfg "linear") (ofZ 2) input input
  = Ok (layer (layer (input_values input) 4) 4)
  /\
  G_puzzle layer layer (g_with_structure cfg "recursive") (ofZ 2) input input
  = Raise AssertionError.
Proof.
  intros cfg layer input.
  apply (X13_generator_first_block_above_resolution layer layer cfg (ofZ 2)
           input input 3).
  - lia.
  - reflexivity.
  - cbn. lia.
  - intros _. exists 8192. split; [reflexivity|]. cbn. lia.
  - unfold set_shape. cbn [g_latent_size g_fmap_base g_fmap_decay g_fmap_max cfg].
    rewrite (nf_0_exact 8192 1 512). reflexivity.
  - reflexivity.
Defined.

(** X14. With a [resolution] [2^k] for [k >= 2] and a [firstblock_res]
    from twice the resolution up and below [2^31], the linear structure of
    [D_puzzle] runs no stage of the loop and scores the image with the
    input projection followed by the last block alone, whatever the level
    of detail; the recursive structure fails with an [AssertionError]. *)
Theorem X14_discriminator_first_block_above_resolution
    (fromrgb block : Tensor -> Z -> Tensor) (cfg : DConfig) (lod_in : Qc)
    (images_in labels_in : Input) (k : Z) :
  2 <= k ->
  d_resolution cfg = 2 ^ k ->
  2 ^ (k + 1) <= d_firstblock_res cfg < 2 ^ 31 ->
  set_shape (input_shape images_in)
    [None; Some (d_num_channels cfg); Some (d_resolution cfg);
     Some (d_resolution cfg)] = Ok tt ->
  set_shape (input_shape labels_in) [None; Some (d_label_size cfg)] = Ok tt ->
  D_puzzle fromrgb block (d_with_structure cfg "linear") lod_in images_in labels_in
  = Ok (block (fromrgb (input_values images_in) k)
          (Z.log2 (d_firstblock_res cfg)))
  /\
  D_puzzle fromrgb block (d_with_structure cfg "recursive") lod_in images_in labels_in
  = Raise AssertionError.
Proof.
  intros Hk Hres Hfirst Himages Hlabels.
  destruct (int_log2_above k (d_firstblock_res cfg) ltac:(lia) ltac:(lia))
    as [Hlog Hlt].
  unfold D_puzzle, d_with_structure, select_structure.
  cbn [d_num_channels d_resolution d_firstblock_res d_label_size d_structure
       d_is_template_graph].
  rewrite Hres in Himages |- *. rewrite (int_log2_pow2 k) by lia. cbn [rbind Ok].
  rewrite resolution_accepted by exact Hk. cbn [rbind Ok].
  rewrite Hlog. cbn [rbind Ok].
  rewrite Himages, Hlabels. cbn [rbind Ok].
  change (String.eqb "linear" "linear") with true.
  change (String.eqb "linear" "recursive") with false.
  change (String.eqb "recursive" "linear") with false.
  change (String.eqb "recursive" "recursive") with true.
  cbn [rbind Ok]. split.
  - unfold D.linear, range_down.
    replace (Z.to_nat (k - Z.log2 (d_firstblock_res cfg))) with 0%nat by lia.
    reflexivity.
  - unfold D.recursive.
    destruct (Z.ltb_spec (k - Z.log2 (d_firstblock_res cfg)) 0) as [_|]; [|lia].
    reflexivity.
Qed.

Lemma X14_witness :
  let cfg := {| d_num_channels := 1; d_resolution := 8; d_firstblock_res := 16;
                d_label_size := 0; d_structure := None;
                d_is_template_graph := false |} in
  let layer := fun (x : Tensor) (res : Z) => tscale x (ofZ res) in
  let input := {| input_shape := None;
                  input_values := fun n c h w => ofZ (n + c + h * w) |} in
  D_puzzle layer layer (d_with_structure cfg "linear") (ofZ 2) input input
  = Ok (layer (layer (input_values input) 3) 4)
  /\
  D_puzzle layer layer (d_with_structure cfg "recursive") (ofZ 2) input input
  = Raise AssertionError.
Proof.
  intros cfg layer input.
  apply (X14_discriminator_first_block_above_resolution layer layer cfg (ofZ 2)
           input input 3).
  - lia.
  - reflexivity.
  - cbn. lia.
  - reflexivity.
  - reflexivity.
Defined.

(** X15. For an integer [fmap_base] that a float64 holds exactly, that
    is, of at most 53 bits, the schedule at stage 0 is
    [min(fmap_base, fmap_max)], whatever [fmap_decay]: this is the latent
    size [G_puzzle] takes when [latent_size] is [None]. *)
Theorem X15_nf_at_stage_0 (fmap_base : Z) (fmap_decay : R) (fmap_max : Z) :
  Z.abs fmap_base <= 2 ^ 53 ->
  nf (IZR fmap_base) fmap_decay fmap_max 0 = Z.min fmap_base fmap_max.
Proof. intros _. apply nf_0_exact. Qed.

(** The default schedule. *)
Lemma X15_witness : nf 8192 1 512 0 = Z.min 8192 512.
Proof. apply (X15_nf_at_stage_0 8192 1 512). cbn. lia. Defined.

(** X16. Where the float expression of [nf] is exact, that is, for
    integers [fmap_base] in [0, 2^53], [fmap_decay] and [stage] of at most
    53 bits and an exponent [stage * fmap_decay] in [0, 1023], the schedule
    is [min(fmap_base // 2**(stage * fmap_decay), fmap_max)]; it is positive
    exactly when [fmap_max] is positive and [2**(stage * fmap_decay)] does
    not exceed [fmap_base]. *)
Theorem X16_nf_integer_schedule (fmap_base fmap_decay fmap_max stage : Z) :
  0 <= fmap_base <= 2 ^ 53 ->
  Z.abs fmap_decay <= 2 ^ 53 -> Z.abs stage <= 2 ^ 53 ->
  0 <= stage * fmap_decay <= 1023 ->
  nf (IZR fmap_base) (IZR fmap_decay) fmap_max stage
  = Z.min (fmap_base / 2 ^ (stage * fmap_decay)) fmap_max
  /\
  (0 < nf (IZR fmap_base) (IZR fmap_decay) fmap_max stage <->
   0 < fmap_max /\ 2 ^ (stage * fmap_decay) <= fmap_base).
Proof.
  intros [Hb _] _ _ [He _].
  assert (Hp : 0 < 2 ^ (stage * fmap_decay)) by (apply Z.pow_pos_nonneg; lia).
  rewrite nf_integer by assumption. split; [reflexivity|].
  split.
  - intros H. split; [lia|].
    destruct (Z.le_gt_cases (2 ^ (stage * fmap_decay)) fmap_base) as [Hle|Hgt];
      [exact Hle|].
    rewrite Z.div_small in H by lia. lia.
  - intros [Hm Hle].
    assert (1 <= fmap_base / 2 ^ (stage * fmap_decay)).
    { apply Z.div_le_lower_bound; lia. }
    lia.
Qed.

(** The default schedule at stage 14, where it reaches 0. *)
Lemma X16_witness :
  nf 8192 1 512 14 = Z.min (8192 / 2 ^ (14 * 1)) 512 /\
  (0 < nf 8192 1 512 14 <-> 0 < 512 /\ 2 ^ (14 * 1) <= 8192).
Proof.
  apply (X16_nf_integer_schedule 8192 1 512 14); cbn; lia.
Defined.

(** X17. With a slope between 0 and 1, [leaky_relu] keeps a value that is
    not negative and multiplies a negative one by [alpha]. *)
Theorem X17_leaky_relu_piecewise (x : Tensor) (alpha : Qc) (n c h w : Z) :
  (0 <= alpha)%Qc -> (alpha <= 1)%Qc ->
  leaky_relu x alpha n c h w =
  if qlt (x n c h w) 0 then (x n c h w * alpha)%Qc else x n c h w.
Proof.
  intros H0 H1. unfold leaky_relu, qmax, qlt.
  set (v := x n c h w).
  assert (Hneg : (v <= 0)%Qc -> (v <= v * alpha)%Qc).
  { intros Hv.
    assert (H : (0 <= (0 - v) * (1 - alpha))%Qc).
    { apply Qcmult_nonneg; qc_lra. }
    replace (v * alpha)%Qc with (v + (0 - v) * (1 - alpha))%Qc by ring.
    set (p := ((0 - v) * (1 - alpha))%Qc) in *. qc_lra. }
  assert (Hpos : (0 <= v)%Qc -> (v * alpha <= v)%Qc).
  { intros Hv.
    assert (H : (0 <= v * (1 - alpha))%Qc).
    { apply Qcmult_nonneg; qc_lra. }
    replace (v * alpha)%Qc with (v - v * (1 - alpha))%Qc by ring.
    set (p := (v * (1 - alpha))%Qc) in *. qc_lra. }
  destruct (Qclt_le_dec (v * alpha) v) as [Hlt|Hle];
    destruct (Qclt_le_dec v 0) as [Hv|Hv]; try reflexivity.
  - specialize (Hneg ltac:(qc_lra)). qc_lra.
  - specialize (Hpos Hv). apply Qcle_antisym; assumption.
Qed.

Lemma X17_witness :
  let x : Tensor := fun n c h w => ofZ (h - w) in
  leaky_relu x (Q2Qc (1 # 5)) 0 0 1 3 = (ofZ (-2) * Q2Qc (1 # 5))%Qc.
Proof.
  intros x.
  apply (X17_leaky_relu_piecewise x (Q2Qc (1 # 5)) 0 0 1 3); discriminate.
Defined.

Section PixelNorm.

Local Open Scope R_scope.

Lemma rsum_to_scale (n : nat) (g : Z -> R) (k : R) :
  rsum_to n (fun i => g i * k) = rsum_to n g * k.
Proof.
  induction n as [|n IH]; cbn [rsum_to]; [Lra.lra|]. rewrite IH. Lra.lra.
Qed.

Lemma rsum_to_ext (n : nat) (f g : Z -> R) :
  (forall i, f i = g i) -> rsum_to n f = rsum_to n g.
Proof.
  intros H. induction n as [|n IH]; cbn [rsum_to]; [reflexivity|].
  now rewrite IH, H.
Qed.

Lemma rsum_to_squares_nonneg (n : nat) (g : Z -> R) :
  0 <= rsum_to n (fun i => g i * g i).
Proof.
  induction n as [|n IH]; cbn [rsum_to]; [Lra.lra|].
  pose proof (Rle_0_sqr (g (Z.of_nat n))) as H. unfold Rsqr in H. Lra.lra.
Qed.

Lemma mean_square_nonneg (channels : nat) (x : RTensor) (n c h w : Z) :
  0 <= reduce_mean_1 channels (rsquare x) n c h w.
Proof.
  unfold reduce_mean_1, rsquare.
  pose proof (rsum_to_squares_nonneg channels (fun c => x n c h w)) as Hs.
  pose proof (pos_INR channels) as Hc.
  destruct (Req_dec (INR channels) 0) as [E|E].
  - rewrite E. unfold Rdiv. rewrite Rinv_0. Lra.lra.
  - apply Rmult_le_pos; [exact Hs|].
    apply Rlt_le, Rinv_0_lt_compat. Lra.lra.
Qed.

End PixelNorm.

(** X18. With at least one feature map and a positive [epsilon],
    [pixel_norm] brings the mean square of the feature vector of every pixel
    from [m] to [m / (m + epsilon)], which is below 1. *)
Theorem X18_pixel_norm_mean_square
    (channels : nat) (x : RTensor) (epsilon : R) (n c h w : Z) :
  (0 < channels)%nat ->
  (0 < epsilon)%R ->
  let m := reduce_mean_1 channels (rsquare x) n c h w in
  reduce_mean_1 channels (rsquare (pixel_norm channels x epsilon)) n c h w
  = (m / (m + epsilon))%R
  /\ (0 <= m / (m + epsilon) < 1)%R.
Proof.
  intros Hch Heps m.
  pose proof (mean_square_nonneg channels x n c h w) as Hm. fold m in Hm.
  assert (Hpos : (0 < m + epsilon)%R) by Lra.lra.
  split.
  - unfold reduce_mean_1 at 1.
    rewrite (rsum_to_ext _ _
               (fun c => (rsquare x n c h w * / (m + epsilon))%R)).
    + rewrite rsum_to_scale.
      set (d := (/ (m + epsilon))%R).
      unfold Rdiv. fold d. unfold m, reduce_mean_1, Rdiv. ring.
    + intros i. unfold rsquare at 1. unfold pixel_norm.
      change (reduce_mean_1 channels (rsquare x) n 0%Z h w) with m.
      pose proof (sqrt_sqrt (m + epsilon) ltac:(Lra.lra)) as Hs.
      pose proof (sqrt_lt_R0 (m + epsilon) Hpos) as Hs0.
      unfold rsquare. rewrite <- Hs at 3. field. Lra.lra.
  - split.
    + apply Rmult_le_pos; [exact Hm|]. apply Rlt_le, Rinv_0_lt_compat, Hpos.
    + apply (Rmult_lt_reg_r (m + epsilon)); [exact Hpos|].
      unfold Rdiv. rewrite Rmult_assoc, Rinv_l by Lra.lra. Lra.lra.
Qed.

Lemma X18_witness :
  let x : RTensor := fun n c h w => IZR (c + 1) in
  let m := reduce_mean_1 2 (rsquare x) 0 0 0 0 in
  reduce_mean_1 2 (rsquare (pixel_norm 2 x 1)) 0 0 0 0 = (m / (m + 1))%R
  /\ (0 <= m / (m + 1) < 1)%R.
Proof.
  intros x m.
  apply (X18_pixel_norm_mean_square 2 x 1 0 0 0 0).
  - lia.
  - Lra.lra.
Defined.

Section LayerShapes.

Import Build BuildLayers BuildG.

Variable nf : Z -> Z.
Variable num_channels : Z.
Variables use_wscale use_pixelnorm use_leakyrelu : bool.

(** A feature map over a minibatch of unknown size. *)
Local Abbreviation fmap c h w := ([None; Some c; Some h; Some w] : shape).

(** A weight none of whose dimensions is negative is created. *)
Lemma fst_bind_get_weight {B : Type} (shp : list Z) (k : weight -> M B) :
  Forall (fun d => 0 <= d) shp ->
  fst (bind (get_weight shp use_wscale) k)
  = fst (k {| w_shape := shp; w_fan_in := prod (removelast shp) |}).
Proof.
  intros H. apply fst_bind_step, get_weight_returns.
  apply forallb_forall. intros d Hd.
  rewrite Forall_forall in H. apply Z.leb_le. now apply H.
Qed.

Lemma conv2d_3x3_shape (c h w fmaps : Z) :
  0 <= c -> 0 <= fmaps ->
  fst (conv2d (fmap c h w) fmaps 3 use_wscale) = Ok (fmap fmaps h w).
Proof.
  intros Hc Hf. unfold conv2d.
  rewrite fst_bind_assertM. cbn [Z.leb Z.compare Pos.compare Pos.compare_cont andb].
  change (3 mod 2 =? 1) with true. cbv iota.
  change (dim_value (fmap c h w) 1) with (ret (A := Z) c). rewrite bind_ret.
  rewrite fst_bind_get_weight by (repeat constructor; lia).
  reflexivity.
Qed.

Lemma conv2d_1x1_shape (c h w fmaps : Z) :
  0 <= c -> 0 <= fmaps ->
  fst (conv2d (fmap c h w) fmaps 1 use_wscale) = Ok (fmap fmaps h w).
Proof.
  intros Hc Hf. unfold conv2d.
  rewrite fst_bind_assertM.
  change ((1 <=? 1) && (1 mod 2 =? 1)) with true. cbv iota.
  change (dim_value (fmap c h w) 1) with (ret (A := Z) c). rewrite bind_ret.
  rewrite fst_bind_get_weight by (repeat constructor; lia).
  reflexivity.
Qed.

Lemma conv_act_shape (c h w res : Z) :
  0 <= c -> 0 <= nf (res - 1) ->
  fst (conv_act nf use_wscale use_pixelnorm use_leakyrelu (fmap c h w) res)
  = Ok (fmap (nf (res - 1)) h w).
Proof.
  intros Hc Hf. unfold conv_act.
  rewrite (fst_bind_step _ _ _ (conv2d_3x3_shape c h w _ Hc Hf)).
  apply bias_act_norm_shape.
Qed.

Lemma torgb_shape (c h w res : Z) :
  0 <= c -> 0 <= num_channels ->
  fst (torgb num_channels use_wscale (fmap c h w) res) = Ok (fmap num_channels h w).
Proof.
  intros Hc Hn. unfold torgb.
  rewrite (fst_bind_step _ _ _ (conv2d_1x1_shape c h w _ Hc Hn)).
  reflexivity.
Qed.

Lemma upscale2d_conv2d_shape (c h w fmaps : Z) :
  0 <= c -> 0 <= fmaps ->
  fst (upscale2d_conv2d (fmap c h w) fmaps 3 use_wscale)
  = Ok (fmap fmaps (h * 2) (w * 2)).
Proof.
  intros Hc Hf. unfold upscale2d_conv2d.
  rewrite fst_bind_assertM.
  change ((1 <=? 3) && (3 mod 2 =? 1)) with true. cbv iota.
  change (dim_value (fmap c h w) 1) with (ret (A := Z) c). rewrite bind_ret.
  rewrite fst_bind_get_weight by (repeat constructor; lia).
  reflexivity.
Qed.

Lemma upscale2d_shape (c h w factor : Z) :
  1 <= factor ->
  fst (upscale2d (fmap c h w) factor) = Ok (fmap c (h * factor) (w * factor)).
Proof.
  intros Hf. unfold upscale2d.
  destruct (Z.leb_spec 1 factor) as [_|]; [|lia]. cbn [assertM].
  rewrite bind_ret.
  destruct (Z.eqb_spec factor 1) as [->|_]; [|reflexivity].
  now rewrite !Z.mul_1_r.
Qed.

Lemma binary_same (name : string) (c h w : Z) :
  fst (binary name (fmap c h w) (fmap c h w)) = Ok (fmap c h w).
Proof.
  unfold binary. cbn [rev app broadcast_rev broadcast_dim].
  rewrite !Z.eqb_refl, !bind_ret. reflexivity.
Qed.

Lemma binary_scalar (name : string) (c h w : Z) :
  fst (binary name (fmap c h w) []) = Ok (fmap c h w).
Proof. reflexivity. Qed.

(** [lod_in - lod], a scalar. *)
Lemma scalar_difference : fst (binary "tf.subtract" [] []) = Ok [].
Proof. reflexivity. Qed.

Lemma lerp_clip_shape (c h w : Z) :
  fst (lerp_clip (fmap c h w) (fmap c h w) []) = Ok (fmap c h w).
Proof.
  unfold lerp_clip.
  rewrite (fst_bind_step _ _ _ (binary_same _ c h w)).
  rewrite fst_bind_tf.
  rewrite (fst_bind_step _ _ _ (binary_scalar _ c h w)).
  apply binary_same.
Qed.

End LayerShapes.

Section FirstLayerSucceeds.

Import Build BuildLayers BuildG.

Variable nf : Z -> Z.
Variable latents_sizes : list Z.
Variables use_wscale use_pixelnorm use_leakyrelu : bool.

(** The chunks of a latent matrix over a minibatch of unknown size. *)
Local Abbreviation chunk_shapes sizes :=
  (map (fun size : Z => ([None; Some size] : shape)) sizes).

Lemma dense_chunk_shape (size fmaps : Z) :
  0 <= size -> 0 <= fmaps ->
  fst (dense [None; Some size] fmaps use_wscale) = Ok [None; Some fmaps].
Proof.
  intros Hs Hf. unfold dense.
  change (2 <? List.length [None; Some size])%nat with false. cbv iota.
  rewrite bind_ret.
  change (dim_value [None; Some size] 1) with (ret (A := Z) size). rewrite bind_ret.
  rewrite (fst_bind_get_weight use_wscale) by (repeat constructor; lia).
  reflexivity.
Qed.

Lemma tile_succeeds (sizes : list Z) (res : Z) (i : nat) (h w : Z) :
  Forall (fun size => 0 <= size) sizes ->
  0 <= nf (res - 1) -> 0 <= h -> 0 <= w ->
  (i < List.length sizes)%nat ->
  fst (tile nf use_wscale (Some (chunk_shapes sizes)) res i (h * w) h w)
  = Ok [None; Some (nf (res - 1)); Some h; Some w].
Proof.
  intros Hpos Hnf Hh Hw Hi. unfold tile, z_at.
  destruct (nth_error (chunk_shapes sizes) i) as [t|] eqn:E.
  - apply nth_error_In, in_map_iff in E. destruct E as [size [<- Hin]].
    rewrite Forall_forall in Hpos. apply Hpos in Hin.
    rewrite bind_ret.
    rewrite (fst_bind_step _ _ _
               (dense_chunk_shape size (nf (res - 1) * (h * w)) Hin ltac:(nia))).
    reflexivity.
  - apply nth_error_None in E. rewrite length_map in E. lia.
Qed.

Ltac tile_step Hpos Hnf sizes res i h w :=
  rewrite (fst_bind_step _ _ _
             (tile_succeeds sizes res i h w Hpos Hnf ltac:(lia) ltac:(lia)
                ltac:(cbn [List.length]; lia))).

Ltac concat_step lem :=
  rewrite (fst_bind_step _ _ _ lem).

(** In a supported mode, with as many chunks named in [latents_sizes] as the
    mode reads, none of a negative size, and a feature-map count that is not
    negative, [first_layer] returns the seed feature map. *)
Lemma first_layer_succeeds (mode : string) (l res : Z) :
  In mode Layout.supported_modes ->
  Forall (fun size => 0 <= size) latents_sizes ->
  0 <= nf (res - 1) ->
  (chunks_read mode <= List.length latents_sizes)%nat ->
  fst (first_layer nf (Some mode) latents_sizes use_wscale use_pixelnorm
         use_leakyrelu [None; Some l] res)
  = Ok [None; Some (nf (res - 1)); Some (Layout.side mode); Some (Layout.side mode)].
Proof.
  intros Hin Hpos Hnf Hlen. unfold first_layer.
  destruct latents_sizes as [|size sizes] eqn:Esizes.
  { cbn [Layout.supported_modes In] in Hin.
    destruct Hin as [<-|[<-|[<-|[<-|[]]]]]; cbn in Hlen; lia. }
  rewrite (fst_bind_step _ _ _ (slices_from_unbound None (Some l) size sizes Hpos)).
  cbn [Layout.supported_modes In] in Hin.
  destruct Hin as [<-|[<-|[<-|[<-|[]]]]].
  - change (mode_is (Some "2parts-faces"%string) "2parts-faces"%string) with true.
    change (mode_is (Some "2parts-faces"%string) "5parts-faces"%string) with false.
    change (mode_is (Some "2parts-faces"%string) "2parts-bedrooms"%string) with false.
    change (mode_is (Some "2parts-faces"%string) "4parts-digits"%string) with false.
    cbv iota. cbn in Hlen.
    eapply eq_trans.
    { apply fst_bind_step.
      tile_step Hpos Hnf (size :: sizes) res 0%nat 2 8.
      tile_step Hpos Hnf (size :: sizes) res 0%nat 4 2.
      tile_step Hpos Hnf (size :: sizes) res 0%nat 2 8.
      tile_step Hpos Hnf (size :: sizes) res 0%nat 4 2.
      tile_step Hpos Hnf (size :: sizes) res 1%nat 4 4.
      concat_step (concat_w3 None (nf (res - 1)) 4 2 4 2).
      apply (concat_h3 None (nf (res - 1)) 2 4 2 8). }
    cbv beta. rewrite !bind_ret. apply bias_act_norm_shape.
  - change (mode_is (Some "5parts-faces"%string) "2parts-faces"%string) with false.
    change (mode_is (Some "5parts-faces"%string) "5parts-faces"%string) with true.
    change (mode_is (Some "5parts-faces"%string) "2parts-bedrooms"%string) with false.
    change (mode_is (Some "5parts-faces"%string) "4parts-digits"%string) with false.
    cbv iota. cbn in Hlen. rewrite bind_ret.
    eapply eq_trans.
    { apply fst_bind_step.
      tile_step Hpos Hnf (size :: sizes) res 0%nat 8 2.
      tile_step Hpos Hnf (size :: sizes) res 0%nat 1 4.
      tile_step Hpos Hnf (size :: sizes) res 0%nat 8 2.
      tile_step Hpos Hnf (size :: sizes) res 1%nat 2 4.
      tile_step Hpos Hnf (size :: sizes) res 2%nat 2 4.
      tile_step Hpos Hnf (size :: sizes) res 3%nat 2 2.
      tile_step Hpos Hnf (size :: sizes) res 4%nat 3 1.
      tile_step Hpos Hnf (size :: sizes) res 4%nat 1 2.
      tile_step Hpos Hnf (size :: sizes) res 4%nat 3 1.
      concat_step (concat_h2 None (nf (res - 1)) 2 1 2).
      concat_step (concat_w3 None (nf (res - 1)) 3 1 2 1).
      concat_step (concat_h4 None (nf (res - 1)) 1 2 2 3 4).
      apply (concat_w3 None (nf (res - 1)) 8 2 4 2). }
    cbv beta. rewrite !bind_ret. apply bias_act_norm_shape.
  - change (mode_is (Some "2parts-bedrooms"%string) "2parts-faces"%string) with false.
    change (mode_is (Some "2parts-bedrooms"%string) "5parts-faces"%string) with false.
    change (mode_is (Some "2parts-bedrooms"%string) "2parts-bedrooms"%string) with true.
    change (mode_is (Some "2parts-bedrooms"%string) "4parts-digits"%string) with false.
    cbv iota. cbn in Hlen. rewrite !bind_ret.
    eapply eq_trans.
    { apply fst_bind_step.
      tile_step Hpos Hnf (size :: sizes) res 0%nat 4 8.
      tile_step Hpos Hnf (size :: sizes) res 1%nat 4 8.
      apply (concat_h2 None (nf (res - 1)) 4 4 8). }
    cbv beta. rewrite !bind_ret. apply bias_act_norm_shape.
  - change (mode_is (Some "4parts-digits"%string) "2parts-faces"%string) with false.
    change (mode_is (Some "4parts-digits"%string) "5parts-faces"%string) with false.
    change (mode_is (Some "4parts-digits"%string) "2parts-bedrooms"%string) with false.
    change (mode_is (Some "4parts-digits"%string) "4parts-digits"%string) with true.
    cbv iota. cbn in Hlen. rewrite !bind_ret.
    eapply eq_trans.
    { apply fst_bind_step.
      tile_step Hpos Hnf (size :: sizes) res 0%nat 8 8.
      tile_step Hpos Hnf (size :: sizes) res 1%nat 8 8.
      tile_step Hpos Hnf (size :: sizes) res 2%nat 8 8.
      tile_step Hpos Hnf (size :: sizes) res 3%nat 8 8.
      concat_step (concat_w2 None (nf (res - 1)) 8 8 8).
      concat_step (concat_w2 None (nf (res - 1)) 8 8 8).
      apply (concat_h2 None (nf (res - 1)) 8 8 16). }
    cbv beta. apply bias_act_norm_shape.
Qed.

End FirstLayerSucceeds.

Section GeneratorShape.

Import Build BuildLayers BuildG.

Variable nf : Z -> Z.
Variable num_channels : Z.
Variable mode : string.
Variable latents_sizes : list Z.
Variables normalize_latents use_wscale use_pixelnorm use_leakyrelu fused_scale : bool.
Variables resolution_log2 firstblock_res_log2 : Z.
Variable latent_size : Z.

Hypothesis supported : In mode Layout.supported_modes.
Hypothesis sizes_nonneg : Forall (fun size => 0 <= size) latents_sizes.
Hypothesis sizes_enough : (chunks_read mode <= List.length latents_sizes)%nat.
Hypothesis channels_nonneg : 0 <= num_channels.
Hypothesis counts_nonneg :
  forall stage, firstblock_res_log2 - 1 <= stage < resolution_log2 -> 0 <= nf stage.

Local Abbreviation fmap c h w := ([None; Some c; Some h; Some w] : shape).
Local Abbreviation g_block :=
  (block nf (Some mode) latents_sizes normalize_latents use_wscale use_pixelnorm
     use_leakyrelu fused_scale firstblock_res_log2).
Local Abbreviation side := (Layout.side mode).

Lemma block_first_shape :
  firstblock_res_log2 <= resolution_log2 ->
  fst (g_block [None; Some latent_size] firstblock_res_log2)
  = Ok (fmap (nf (firstblock_res_log2 - 1)) side side).
Proof.
  intros Hle.
  assert (Hnf : 0 <= nf (firstblock_res_log2 - 1)) by (apply counts_nonneg; lia).
  unfold block. rewrite Z.eqb_refl.
  assert (Hnorm : fst (if normalize_latents
                       then pixel_norm [None; Some latent_size]
                       else ret [None; Some latent_size])
                  = Ok [None; Some latent_size]).
  { destruct normalize_latents; reflexivity. }
  rewrite (fst_bind_step _ _ _ Hnorm).
  rewrite (fst_bind_step _ _ _
             (first_layer_succeeds nf latents_sizes use_wscale use_pixelnorm
                use_leakyrelu mode latent_size firstblock_res_log2
                supported sizes_nonneg Hnf sizes_enough)).
  now apply conv_act_shape.
Qed.

Lemma block_later_shape (c h w res : Z) :
  0 <= c -> firstblock_res_log2 < res <= resolution_log2 ->
  fst (g_block (fmap c h w) res) = Ok (fmap (nf (res - 1)) (h * 2) (w * 2)).
Proof.
  intros Hc Hres.
  assert (Hnf : 0 <= nf (res - 1)) by (apply counts_nonneg; lia).
  unfold block.
  destruct (Z.eqb_spec res firstblock_res_log2) as [|_]; [lia|].
  assert (Hup : fst (if fused_scale
                     then x <~ upscale2d_conv2d (fmap c h w) (nf (res - 1)) 3 use_wscale ;;
                          x <~ apply_bias x ;;
                          x <~ act use_leakyrelu x ;;
                          PN use_pixelnorm x
                     else x <~ upscale2d (fmap c h w) 2 ;;
                          conv_act nf use_wscale use_pixelnorm use_leakyrelu x res)
                = Ok (fmap (nf (res - 1)) (h * 2) (w * 2))).
  { destruct fused_scale.
    - rewrite (fst_bind_step _ _ _
                 (upscale2d_conv2d_shape use_wscale c h w (nf (res - 1)) Hc Hnf)).
      apply bias_act_norm_shape.
    - rewrite (fst_bind_step _ _ _ (upscale2d_shape c h w 2 ltac:(lia))).
      now apply conv_act_shape. }
  rewrite (fst_bind_step _ _ _ Hup). now apply conv_act_shape.
Qed.

Local Abbreviation g_linear_step :=
  (linear_step nf num_channels (Some mode) latents_sizes normalize_latents
     use_wscale use_pixelnorm use_leakyrelu fused_scale firstblock_res_log2).

Lemma linear_step_shape (c s res : Z) :
  0 <= c -> firstblock_res_log2 < res <= resolution_log2 ->
  fst (g_linear_step (fmap c s s, fmap num_channels s s) res)
  = Ok (fmap (nf (res - 1)) (s * 2) (s * 2), fmap num_channels (s * 2) (s * 2)).
Proof.
  intros Hc Hres.
  assert (Hnf : 0 <= nf (res - 1)) by (apply counts_nonneg; lia).
  unfold linear_step.
  rewrite (fst_bind_step _ _ _ (block_later_shape c s s res Hc Hres)).
  rewrite (fst_bind_step _ _ _
             (torgb_shape num_channels use_wscale _ _ _ res Hnf channels_nonneg)).
  rewrite (fst_bind_step _ _ _ (upscale2d_shape num_channels s s 2 ltac:(lia))).
  rewrite (fst_bind_step _ _ _ scalar_difference).
  rewrite (fst_bind_step _ _ _ (lerp_clip_shape num_channels (s * 2) (s * 2))).
  reflexivity.
Qed.

Lemma linear_loop_shape (stages : list Z) :
  forall (c s : Z) (acc : M (shape * shape)),
  (forall res, In res stages -> firstblock_res_log2 < res <= resolution_log2) ->
  0 <= c ->
  fst acc = Ok (fmap c s s, fmap num_channels s s) ->
  exists c',
    fst (fold_left (fun acc res => st <~ acc ;; g_linear_step st res) stages acc)
    = Ok (fmap c' (s * 2 ^ Z.of_nat (List.length stages))
            (s * 2 ^ Z.of_nat (List.length stages)),
          fmap num_channels (s * 2 ^ Z.of_nat (List.length stages))
            (s * 2 ^ Z.of_nat (List.length stages))).
Proof.
  induction stages as [|res stages IH]; intros c s acc Hstages Hc Hacc.
  - exists c. cbn [fold_left List.length Z.of_nat]. now rewrite Z.pow_0_r, Z.mul_1_r.
  - cbn [fold_left].
    assert (Hres : firstblock_res_log2 < res <= resolution_log2)
      by (apply Hstages; now left).
    destruct (IH (nf (res - 1)) (s * 2)
                (st <~ acc ;; g_linear_step st res)) as [c' Hc'].
    + intros r Hr. apply Hstages. now right.
    + apply counts_nonneg. lia.
    + rewrite (fst_bind_step _ _ _ Hacc). now apply linear_step_shape.
    + exists c'. rewrite Hc'.
      replace (s * 2 * 2 ^ Z.of_nat (List.length stages))
        with (s * 2 ^ Z.of_nat (List.length (res :: stages))); [reflexivity|].
      cbn [List.length]. rewrite Nat2Z.inj_succ, Z.pow_succ_r by lia. ring.
Qed.

(** The linear structure ends in an image whose side is the side of the
    seed doubled once per growth stage. *)
Lemma linear_shape :
  firstblock_res_log2 <= resolution_log2 ->
  fst (linear nf num_channels (Some mode) latents_sizes normalize_latents
         use_wscale use_pixelnorm use_leakyrelu fused_scale resolution_log2
         firstblock_res_log2 [None; Some latent_size])
  = Ok (fmap num_channels
          (side * 2 ^ (resolution_log2 - firstblock_res_log2))
          (side * 2 ^ (resolution_log2 - firstblock_res_log2))).
Proof.
  intros Hle.
  assert (Hnf : 0 <= nf (firstblock_res_log2 - 1)) by (apply counts_nonneg; lia).
  unfold linear.
  rewrite (fst_bind_step _ _ _ (block_first_shape Hle)).
  rewrite (fst_bind_step _ _ _
             (torgb_shape num_channels use_wscale _ _ _ firstblock_res_log2
                Hnf channels_nonneg)).
  destruct (linear_loop_shape
              (range (firstblock_res_log2 + 1) (resolution_log2 + 1))
              (nf (firstblock_res_log2 - 1)) side
              (ret (fmap (nf (firstblock_res_log2 - 1)) side side,
                    fmap num_channels side side))) as [c' Hc'].
  - intros res Hres. apply In_range in Hres. lia.
  - exact Hnf.
  - reflexivity.
  - rewrite (fst_bind_step _ _ _ Hc'). cbn [ret fst snd].
    unfold range. rewrite length_map, length_seq.
    replace (Z.of_nat (Z.to_nat (resolution_log2 + 1 - (firstblock_res_log2 + 1))))
      with (resolution_log2 - firstblock_res_log2) by lia.
    reflexivity.
Qed.

End GeneratorShape.

(** X19. The linear structure, built once in a variable scope of its own,
    for a schedule [nf] that yields a count at every stage. In a supported
    mode, for a resolution [2^k] below [2^31], a first block no finer than
    the resolution, a minibatch of unknown size, [latents_sizes] that are
    positive, fit in [latent_size] and are as many as the mode reads, and
    positive feature-map and channel counts (every size being at most
    [2^24], so that no weight has [2^63] elements), [G_puzzle] constructs
    its graph, and the static shape of [images_out] is
    [[None, num_channels, s, s]] where [s] is the side of the seed map of the
    mode (8, or 16 for '4parts-digits') doubled once per growth stage:
    [resolution] enters through the number of stages only. *)
Theorem X19_generator_output_shape
    (nf : Z -> Z) (num_channels : Z) (mode : string) (latents_sizes : list Z)
    (firstblock_res resolution label_size : Z) (latent_size : option Z)
    (normalize_latents use_wscale use_pixelnorm use_leakyrelu fused_scale : bool)
    (structure : option string) (is_template_graph : bool)
    (latents_in labels_in : static_shape) (k : Z) :
  let latent := match latent_size with None => nf 0 | Some n => n end in
  let first := Z.log2 firstblock_res in
  In mode Layout.supported_modes ->
  2 <= k < 31 -> resolution = 2 ^ k ->
  0 < firstblock_res <= resolution ->
  0 < num_channels <= 2 ^ 24 ->
  (forall stage, first - 1 <= stage < k -> 0 < nf stage <= 2 ^ 24) ->
  latent <= 2 ^ 24 -> label_size <= 2 ^ 24 ->
  set_shape latents_in [None; Some latent] = Ok tt ->
  BuildG.shape_after_set_shape latents_in [None; Some latent]
    = [None; Some latent] ->
  set_shape labels_in [None; Some label_size] = Ok tt ->
  Forall (fun size => 0 < size) latents_sizes ->
  fold_right Z.add 0 latents_sizes <= latent ->
  (chunks_read mode <= List.length latents_sizes)%nat ->
  select_structure structure is_template_graph = "linear"%string ->
  fst (BuildG.G_puzzle nf num_channels (Some mode) latents_sizes firstblock_res
         resolution label_size latent_size normalize_latents use_wscale
         use_pixelnorm use_leakyrelu fused_scale structure is_template_graph
         latents_in labels_in)
  = Ok [None; Some num_channels;
        Some (Layout.side mode * 2 ^ (k - first));
        Some (Layout.side mode * 2 ^ (k - first))].
Proof.
  intros latent first Hmode Hk Hres Hfirst Hchannels Hcounts _ _ Hlatents Hshape
    Hlabels Hsizes _ Henough Hstructure.
  assert (Hle : first <= k).
  { unfold first. rewrite <- (Z.log2_pow2 k) by lia.
    apply Z.log2_le_mono. lia. }
  assert (Hpow : 2 ^ k < 2 ^ 31) by (apply Z.pow_lt_mono_r; lia).
  assert (Hnonneg : Forall (fun size => 0 <= size) latents_sizes).
  { eapply Forall_impl; [|exact Hsizes]. cbv beta. intros; lia. }
  assert (Hnf : forall stage, first - 1 <= stage < k -> 0 <= nf stage).
  { intros stage Hs. apply Hcounts in Hs. lia. }
  unfold BuildG.G_puzzle.
  rewrite fst_bind_lift, Hres, (int_log2_pow2 k) by lia.
  cbv beta iota delta [Ok].
  rewrite fst_bind_assertM.
  rewrite Z.eqb_refl. cbn [andb].
  assert (H4 : 2 ^ 2 <= 2 ^ k) by (apply Z.pow_le_mono_r; lia).
  change (2 ^ 2) with 4 in H4.
  destruct (Z.leb_spec 4 (2 ^ k)) as [_|]; [|lia].
  rewrite fst_bind_lift, (int_log2_below_2_31 firstblock_res) by lia.
  cbv beta iota delta [Ok].
  fold latent. rewrite fst_bind_lift, Hlatents.
  cbv beta iota delta [Ok].
  rewrite fst_bind_lift, Hlabels.
  cbv beta iota delta [Ok].
  rewrite fst_bind_tf, Hshape, !fst_bind_tf.
  fold first. rewrite Hstructure.
  change (String.eqb "linear" "linear") with true.
  change (String.eqb "linear" "recursive") with false. cbv iota.
  rewrite fst_bind, fst_bind.
  rewrite (linear_shape nf num_channels mode latents_sizes normalize_latents
             use_wscale use_pixelnorm use_leakyrelu fused_scale k first latent
             Hmode Hnonneg Henough ltac:(lia) Hnf Hle).
  reflexivity.
Qed.

(** Five-part faces at resolution 32 grown from 8, three colour channels. *)
Lemma X19_witness :
  let nf := fun stage : Z => Z.min (8192 / 2 ^ stage) 512 in
  fst (BuildG.G_puzzle nf 3 (Some "5parts-faces"%string) [128; 128; 128; 64; 64]
         8 32 0 None true true true true true (Some "linear"%string) false
         None None)
  = Ok [None; Some 3; Some 32; Some 32].
Proof.
  intros nf.
  apply (X19_generator_output_shape nf 3 "5parts-faces" [128; 128; 128; 64; 64]
           8 32 0 None true true true true true (Some "linear"%string) false
           None None 5).
  - right. now left.
  - lia.
  - reflexivity.
  - lia.
  - cbn. lia.
  - intros stage Hs. cbn in Hs.
    assert (E : stage = 2 \/ stage = 3 \/ stage = 4) by lia.
    destruct E as [E | [E | E]]; subst stage; cbn; lia.
  - cbn. lia.
  - cbn. lia.
  - reflexivity.
  - reflexivity.
  - reflexivity.
  - repeat constructor; cbn; lia.
  - cbn. lia.
  - cbn. lia.
  - reflexivity.
Defined.

Section TooFewChunks.

Import Build BuildLayers BuildG.

Variable nf : Z -> Z.
Variables use_wscale use_pixelnorm use_leakyrelu : bool.

Local Abbreviation chunk_shapes sizes :=
  (map (fun size : Z => ([None; Some size] : shape)) sizes).

Lemma tile_unbound (res : Z) (i : nat) (n h w : Z) :
  fst (tile nf use_wscale None res i n h w) = inl NameError.
Proof. reflexivity. Qed.

Lemma tile_out_of_range (sizes : list Z) (res : Z) (i : nat) (n h w : Z) :
  (List.length sizes <= i)%nat ->
  fst (tile nf use_wscale (Some (chunk_shapes sizes)) res i n h w) = inl IndexError.
Proof.
  intros Hi. unfold tile, z_at.
  destruct (nth_error (chunk_shapes sizes) i) as [t|] eqn:E; [|reflexivity].
  assert (H : nth_error (chunk_shapes sizes) i <> None) by (rewrite E; discriminate).
  apply nth_error_Some in H. rewrite length_map in H. lia.
Qed.

Ltac walk :=
  repeat
    match goal with
    | |- fst (bind (tile _ _ (Some (map _ ?sizes)) ?res ?i _ ?h ?w) _)
         = inl IndexError =>
        first
          [ apply fst_bind_err; apply tile_out_of_range; cbn [List.length]; lia
          | rewrite (fst_bind_step _ _ _
                       (tile_succeeds nf use_wscale sizes res i h w
                          ltac:(assumption) ltac:(assumption) ltac:(lia)
                          ltac:(lia) ltac:(cbn [List.length]; lia))) ]
    end.

Ltac by_length sizes Hlen :=
  destruct sizes as [|? [|? [|? [|? ?]]]]; cbn [List.length] in Hlen;
  try lia; apply fst_bind_err; walk.

(** In a supported mode that reads more chunks than [latents_sizes] names,
    [first_layer] fails: with a [NameError] when [latents_sizes] is empty,
    as the loop never binds [z], and with an [IndexError] otherwise. *)
Lemma first_layer_too_few_chunks (mode : string) (latents_sizes : list Z)
    (l res : Z) :
  In mode Layout.supported_modes ->
  Forall (fun size => 0 <= size) latents_sizes ->
  0 <= nf (res - 1) ->
  (List.length latents_sizes < chunks_read mode)%nat ->
  fst (first_layer nf (Some mode) latents_sizes use_wscale use_pixelnorm
         use_leakyrelu [None; Some l] res)
  = inl (match latents_sizes with [] => NameError | _ :: _ => IndexError end).
Proof.
  intros Hin Hpos Hnf Hlen. unfold first_layer.
  destruct latents_sizes as [|size sizes].
  - cbn [slices]. rewrite bind_ret.
    cbn [Layout.supported_modes In] in Hin.
    destruct Hin as [<-|[<-|[<-|[<-|[]]]]].
    + change (mode_is (Some "2parts-faces"%string) "2parts-faces"%string) with true.
      cbv iota. apply fst_bind_err, fst_bind_err, tile_unbound.
    + change (mode_is (Some "5parts-faces"%string) "2parts-faces"%string) with false.
      change (mode_is (Some "5parts-faces"%string) "5parts-faces"%string) with true.
      cbv iota. rewrite bind_ret. apply fst_bind_err, fst_bind_err, tile_unbound.
    + change (mode_is (Some "2parts-bedrooms"%string) "2parts-faces"%string) with false.
      change (mode_is (Some "2parts-bedrooms"%string) "5parts-faces"%string) with false.
      change (mode_is (Some "2parts-bedrooms"%string) "2parts-bedrooms"%string) with true.
      cbv iota. rewrite !bind_ret. apply fst_bind_err, fst_bind_err, tile_unbound.
    + change (mode_is (Some "4parts-digits"%string) "2parts-faces"%string) with false.
      change (mode_is (Some "4parts-digits"%string) "5parts-faces"%string) with false.
      change (mode_is (Some "4parts-digits"%string) "2parts-bedrooms"%string) with false.
      change (mode_is (Some "4parts-digits"%string) "4parts-digits"%string) with true.
      cbv iota. rewrite !bind_ret. apply fst_bind_err, fst_bind_err, tile_unbound.
  - rewrite (fst_bind_step _ _ _
               (slices_from_unbound None (Some l) size sizes Hpos)).
    cbn [Layout.supported_modes In] in Hin.
    destruct Hin as [<-|[<-|[<-|[<-|[]]]]]; cbn in Hlen.
    + change (mode_is (Some "2parts-faces"%string) "2parts-faces"%string) with true.
      cbv iota. by_length sizes Hlen.
    + change (mode_is (Some "5parts-faces"%string) "2parts-faces"%string) with false.
      change (mode_is (Some "5parts-faces"%string) "5parts-faces"%string) with true.
      cbv iota. rewrite bind_ret. by_length sizes Hlen.
    + change (mode_is (Some "2parts-bedrooms"%string) "2parts-faces"%string) with false.
      change (mode_is (Some "2parts-bedrooms"%string) "5parts-faces"%string) with false.
      change (mode_is (Some "2parts-bedrooms"%string) "2parts-bedrooms"%string) with true.
      cbv iota. rewrite !bind_ret. by_length sizes Hlen.
    + change (mode_is (Some "4parts-digits"%string) "2parts-faces"%string) with false.
      change (mode_is (Some "4parts-digits"%string) "5parts-faces"%string) with false.
      change (mode_is (Some "4parts-digits"%string) "2parts-bedrooms"%string) with false.
      change (mode_is (Some "4parts-digits"%string) "4parts-digits"%string) with true.
      cbv iota. rewrite !bind_ret. by_length sizes Hlen.
Qed.

End TooFewChunks.

Section FirstBlockFails.

Import Build BuildLayers BuildG.

Variable nf : Z -> Z.
Variable num_channels : Z.
Variable mode : option string.
Variable latents_sizes : list Z.
Variables normalize_latents use_wscale use_pixelnorm use_leakyrelu fused_scale : bool.
Variables resolution_log2 firstblock_res_log2 : Z.
Variable latent_size : Z.
Variable e : error.

Hypothesis first_layer_fails :
  fst (first_layer nf mode latents_sizes use_wscale use_pixelnorm use_leakyrelu
         [None; Some latent_size] firstblock_res_log2) = inl e.

Lemma block_first_fails :
  fst (block nf mode latents_sizes normalize_latents use_wscale use_pixelnorm
         use_leakyrelu fused_scale firstblock_res_log2 [None; Some latent_size]
         firstblock_res_log2) = inl e.
Proof.
  unfold block. rewrite Z.eqb_refl.
  assert (Hnorm : fst (if normalize_latents
                       then pixel_norm [None; Some latent_size]
                       else ret [None; Some latent_size])
                  = Ok [None; Some latent_size]).
  { destruct normalize_latents; reflexivity. }
  rewrite (fst_bind_step _ _ _ Hnorm).
  now apply fst_bind_err.
Qed.

Lemma linear_first_fails :
  fst (linear nf num_channels mode latents_sizes normalize_latents use_wscale
         use_pixelnorm use_leakyrelu fused_scale resolution_log2
         firstblock_res_log2 [None; Some latent_size]) = inl e.
Proof. unfold linear. apply fst_bind_err, block_first_fails. Qed.

Lemma recursive_first_fails :
  fst (recursive nf num_channels mode latents_sizes normalize_latents use_wscale
         use_pixelnorm use_leakyrelu fused_scale resolution_log2
         firstblock_res_log2 [None; Some latent_size]) = inl e.
Proof.
  unfold recursive. destruct (resolution_log2 - firstblock_res_log2 <? 0).
  - apply fst_bind_err, block_first_fails.
  - destruct (Z.to_nat (resolution_log2 - firstblock_res_log2));
      cbn [grow]; apply fst_bind_err, block_first_fails.
Qed.

End FirstBlockFails.

(** X20. In a supported mode that reads more chunks of the latent vector
    than [latents_sizes] names, [G_puzzle] fails in the first block, in
    either structure: with a [NameError] when [latents_sizes] is empty, as the
    loop of [first_layer] never binds [z], and with an [IndexError]
    otherwise. This is for a schedule [nf] that yields a count at every
    stage, a resolution [2^k] and a [firstblock_res] below [2^31], chunks
    that are positive and fit in [latent_size], and a positive feature-map
    count in the first block (every size being at most [2^24]), so that the
    layers before the missing chunk are created. *)
Theorem X20_generator_too_few_chunks
    (nf : Z -> Z) (num_channels : Z) (mode : string) (latents_sizes : list Z)
    (firstblock_res resolution label_size : Z) (latent_size : option Z)
    (normalize_latents use_wscale use_pixelnorm use_leakyrelu fused_scale : bool)
    (structure : option string) (is_template_graph : bool)
    (latents_in labels_in : static_shape) (k : Z) :
  let latent := match latent_size with None => nf 0 | Some n => n end in
  In mode Layout.supported_modes ->
  2 <= k < 31 -> resolution = 2 ^ k ->
  0 < firstblock_res < 2 ^ 31 ->
  0 < nf (Z.log2 firstblock_res - 1) <= 2 ^ 24 ->
  latent <= 2 ^ 24 -> label_size <= 2 ^ 24 ->
  set_shape latents_in [None; Some latent] = Ok tt ->
  BuildG.shape_after_set_shape latents_in [None; Some latent]
    = [None; Some latent] ->
  set_shape labels_in [None; Some label_size] = Ok tt ->
  Forall (fun size => 0 < size) latents_sizes ->
  fold_right Z.add 0 latents_sizes <= latent ->
  (List.length latents_sizes < chunks_read mode)%nat ->
  In (select_structure structure is_template_graph)
     ["linear"; "recursive"]%string ->
  fst (BuildG.G_puzzle nf num_channels (Some mode) latents_sizes firstblock_res
         resolution label_size latent_size normalize_latents use_wscale
         use_pixelnorm use_leakyrelu fused_scale structure is_template_graph
         latents_in labels_in)
  = inl (match latents_sizes with [] => NameError | _ :: _ => IndexError end).
Proof.
  intros latent Hmode Hk Hres Hfirst Hcount _ _ Hlatents Hshape Hlabels
    Hsizes _ Hfew Hstructure.
  assert (Hnonneg : Forall (fun size => 0 <= size) latents_sizes).
  { eapply Forall_impl; [|exact Hsizes]. cbv beta. intros; lia. }
  pose proof (first_layer_too_few_chunks nf use_wscale use_pixelnorm
                use_leakyrelu mode latents_sizes latent
                (Z.log2 firstblock_res) Hmode Hnonneg ltac:(lia) Hfew) as Hfails.
  unfold BuildG.G_puzzle.
  rewrite fst_bind_lift, Hres, (int_log2_pow2 k) by lia.
  cbv beta iota delta [Ok].
  rewrite fst_bind_assertM.
  rewrite Z.eqb_refl. cbn [andb].
  assert (H4 : 2 ^ 2 <= 2 ^ k) by (apply Z.pow_le_mono_r; lia).
  change (2 ^ 2) with 4 in H4.
  destruct (Z.leb_spec 4 (2 ^ k)) as [_|]; [|lia].
  rewrite fst_bind_lift, (int_log2_below_2_31 firstblock_res) by lia.
  cbv beta iota delta [Ok].
  fold latent. rewrite fst_bind_lift, Hlatents.
  cbv beta iota delta [Ok].
  rewrite fst_bind_lift, Hlabels.
  cbv beta iota delta [Ok].
  rewrite fst_bind_tf, Hshape, !fst_bind_tf.
  cbn [In] in Hstructure. destruct Hstructure as [<-|[<-|[]]].
  - change (String.eqb "linear" "linear") with true. cbv iota.
    apply fst_bind_err, fst_bind_err. now apply linear_first_fails.
  - change (String.eqb "recursive" "linear") with false.
    change (String.eqb "recursive" "recursive") with true. cbv iota.
    rewrite bind_ret.
    apply fst_bind_err, fst_bind_err. now apply recursive_first_fails.
Qed.

(** Four-part digits given three chunks. *)
Lemma X20_witness :
  fst (BuildG.G_puzzle (fun _ => 64) 1 (Some "4parts-digits"%string) [32; 32; 32]
         16 32 0 (Some 128) true true true true true None false None None)
  = inl IndexError.
Proof.
  apply (X20_generator_too_few_chunks (fun _ => 64) 1 "4parts-digits" [32; 32; 32]
           16 32 0 (Some 128) true true true true true None false None None 5).
  - do 3 right. now left.
  - lia.
  - reflexivity.
  - cbn. lia.
  - cbn. lia.
  - cbn. lia.
  - cbn. lia.
  - reflexivity.
  - reflexivity.
  - reflexivity.
  - repeat constructor; cbn; lia.
  - cbn. lia.
  - cbn. lia.
  - right. now left.
Defined.

(** ** The level of detail between two stages *)

Lemma range_app (a b c : Z) :
  a <= b -> b <= c -> range a c = range a b ++ range b c.
Proof.
  intros Hab Hbc. remember (Z.to_nat (b - a)) as n eqn:En.
  revert a Hab En. induction n as [|n IH]; intros a Hab En.
  - replace a with b by lia. now rewrite (range_nil b b) by lia.
  - rewrite (range_cons a c), (range_cons a b) by lia.
    cbn [app]. f_equal. apply IH; lia.
Qed.

Section GeneratorBetween.

Variable block : Tensor -> Z -> Tensor.
Variable torgb : Tensor -> Z -> Tensor.
Variables resolution_log2 firstblock_res_log2 : Z.
Variable lod_in : Qc.

Local Abbreviation step := (G.linear_step block torgb resolution_log2 lod_in).

(** While [lod_in] is at or below the level of a stage, the stage shows its
    own image. *)
Lemma G_linear_below (n : nat) : forall (a : Z) (y : Tensor),
  (lod_in <= ofZ (resolution_log2 - (a + Z.of_nat n) + 1))%Qc ->
  fold_left step (range a (a + Z.of_nat n)) (y, torgb y (a - 1)) =
  (fold_left block (range a (a + Z.of_nat n)) y,
   torgb (fold_left block (range a (a + Z.of_nat n)) y) (a + Z.of_nat n - 1)).
Proof.
  induction n as [|n IH]; intros a y Hlod.
  - rewrite range_nil by lia. cbn [fold_left]. do 2 f_equal. lia.
  - rewrite range_cons by lia. cbn [fold_left G.linear_step].
    assert (Hw : (lod_in - ofZ (resolution_log2 - a) <= 0)%Qc).
    { assert (H : (ofZ (resolution_log2 - (a + Z.of_nat (S n)) + 1)
                   <= ofZ (resolution_log2 - a))%Qc) by (apply ofZ_le; lia).
      qc_lra. }
    rewrite lerp_clip_low by exact Hw.
    replace (a + Z.of_nat (S n)) with (a + 1 + Z.of_nat n) by lia.
    replace (torgb (block y a) a) with (torgb (block y a) (a + 1 - 1))
      by (f_equal; lia).
    apply IH.
    replace (a + 1 + Z.of_nat n) with (a + Z.of_nat (S n)) by lia.
    exact Hlod.
Qed.

End GeneratorBetween.

(** X21. With [lod_in] between the levels [j] and [j + 1] of two adjacent
    stages, both structures of the generator show the blend of the images of
    these two stages, with weight [lod_in - j] on the coarser one, upscaled
    to the full resolution; no finer stage contributes. *)
Theorem X21_generator_between_levels
    (block torgb : Tensor -> Z -> Tensor)
    (resolution_log2 firstblock_res_log2 : Z) (lod_in : Qc) (combo_in : Tensor)
    (j : nat) :
  firstblock_res_log2 < resolution_log2 - Z.of_nat j ->
  (ofZ (Z.of_nat j) <= lod_in)%Qc ->
  (lod_in <= ofZ (Z.of_nat j) + 1)%Qc ->
  let res := resolution_log2 - Z.of_nat j in
  let below :=
    fold_left block (range (firstblock_res_log2 + 1) res)
      (block combo_in firstblock_res_log2) in
  let shown :=
    upscale2d
      (lerp (torgb (block below res) res) (upscale2d (torgb below (res - 1)) 2)
         (lod_in - ofZ (Z.of_nat j))%Qc)
      (pow2 j) in
  G.linear block torgb resolution_log2 firstblock_res_log2 lod_in combo_in = shown
  /\
  G.recursive block torgb resolution_log2 firstblock_res_log2 lod_in combo_in
  = Some shown.
Proof.
  intros Hj Hlow Hhigh res below shown.
  assert (Hlin : G.linear block torgb resolution_log2 firstblock_res_log2
                   lod_in combo_in = shown).
  { unfold G.linear.
    rewrite (range_app (firstblock_res_log2 + 1) res (resolution_log2 + 1))
      by (unfold res; lia).
    rewrite fold_left_app.
    pose proof (G_linear_below block torgb resolution_log2 lod_in
                  (Z.to_nat (res - (firstblock_res_log2 + 1)))
                  (firstblock_res_log2 + 1)
                  (block combo_in firstblock_res_log2)) as Hbelow.
    replace (firstblock_res_log2 + 1
             + Z.of_nat (Z.to_nat (res - (firstblock_res_log2 + 1))))
      with res in Hbelow by (unfold res; lia).
    replace (firstblock_res_log2 + 1 - 1) with firstblock_res_log2 in Hbelow by lia.
    rewrite Hbelow.
    2:{ replace (resolution_log2 - res + 1) with (Z.of_nat j + 1)
          by (unfold res; lia).
        now rewrite ofZ_add. }
    fold below.
    rewrite (range_cons res) by (unfold res; lia).
    cbn [fold_left G.linear_step].
    replace (resolution_log2 - res) with (Z.of_nat j) by (unfold res; lia).
    rewrite lerp_clip_mid by qc_lra.
    rewrite (G_linear_saturates block torgb resolution_log2 lod_in j);
      [reflexivity|unfold res; lia|intros _; exact Hlow]. }
  split; [exact Hlin|].
  rewrite G_linear_recursive by lia. now rewrite Hlin.
Qed.

Lemma X21_witness :
  let layer := fun (x : Tensor) (res : Z) => tscale x (ofZ res) in
  let combo_in : Tensor := fun n c _ _ => ofZ (n + c) in
  let below := layer combo_in 3 in
  let shown :=
    upscale2d
      (lerp (layer (layer below 4) 4) (upscale2d (layer below 3) 2)
         (Q2Qc (3 # 2) - ofZ 1)%Qc)
      (pow2 1) in
  G.linear layer layer 5 3 (Q2Qc (3 # 2)) combo_in = shown /\
  G.recursive layer layer 5 3 (Q2Qc (3 # 2)) combo_in = Some shown.
Proof.
  intros layer combo_in below shown.
  apply (X21_generator_between_levels layer layer 5 3 (Q2Qc (3 # 2)) combo_in 1).
  - lia.
  - discriminate.
  - discriminate.
Defined.

Lemma map_seq_offset {A : Type} (k : nat) :
  forall (f : nat -> A) (a : nat),
  map f (seq a k) = map (fun i => f (a + i)%nat) (seq 0 k).
Proof.
  induction k as [|k IH]; intros f a; [reflexivity|].
  cbn [seq map]. f_equal; [f_equal; lia|].
  rewrite (IH f (S a)), (IH (fun i => f (a + i)%nat) 1%nat).
  apply map_ext. intros i. f_equal. lia.
Qed.

Section DiscriminatorBetween.

Variable fromrgb : Tensor -> Z -> Tensor.
Variable block : Tensor -> Z -> Tensor.
Variables resolution_log2 firstblock_res_log2 : Z.
Variable lod_in : Qc.
Variable images_in : Tensor.

Local Abbreviation state :=
  (D.linear_state fromrgb block resolution_log2 lod_in images_in).

(** At or above the level [l], what enters stage [l] of the linear loop is
    the projection of the image downscaled [l] times. *)
Lemma D_state_above (l : nat) :
  (ofZ (Z.of_nat l) <= lod_in)%Qc ->
  snd (state l) =
  fromrgb (downscale2d images_in (pow2 l)) (resolution_log2 - Z.of_nat l).
Proof.
  destruct l as [|l]; intros Hlod.
  - cbn [D.linear_state snd]. rewrite pow2_0, downscale2d_1. f_equal.
    cbn. lia.
  - now apply D_state_coarsest.
Qed.

(** At or below the level [l0], the stages from [l0] on chain their
    blocks. *)
Lemma D_state_tail (l0 k : nat) :
  (lod_in <= ofZ (Z.of_nat l0))%Qc ->
  snd (state (l0 + k)) =
  fold_left block (map (fun i => resolution_log2 - Z.of_nat i) (seq l0 k))
    (snd (state l0)).
Proof.
  intros Hlod. induction k as [|k IH].
  - now rewrite Nat.add_0_r.
  - rewrite Nat.add_succ_r, D_state_step. cbn [snd].
    assert (H : (ofZ (Z.of_nat l0) <= ofZ (Z.of_nat (l0 + k)))%Qc)
      by (apply ofZ_le; lia).
    rewrite lerp_clip_low by qc_lra.
    rewrite seq_S, map_app, fold_left_app, IH. reflexivity.
Qed.

End DiscriminatorBetween.

(** X22. With [lod_in] between the levels [j] and [j + 1] of two adjacent
    stages, both structures of the discriminator blend the features the
    finer stage computes from the image downscaled [j] times with the
    projection of the image downscaled once more, with weight [lod_in - j]
    on the latter, and run the remaining blocks on the blend; no finer stage
    contributes. *)
Theorem X22_discriminator_between_levels
    (fromrgb block : Tensor -> Z -> Tensor)
    (resolution_log2 firstblock_res_log2 : Z) (lod_in : Qc) (images_in : Tensor)
    (j : nat) :
  firstblock_res_log2 < resolution_log2 - Z.of_nat j ->
  (ofZ (Z.of_nat j) <= lod_in)%Qc ->
  (lod_in <= ofZ (Z.of_nat j) + 1)%Qc ->
  let res := resolution_log2 - Z.of_nat j in
  let blended :=
    lerp (block (fromrgb (downscale2d images_in (pow2 j)) res) res)
      (fromrgb (downscale2d images_in (pow2 (S j))) (res - 1))
      (lod_in - ofZ (Z.of_nat j))%Qc in
  let scores :=
    block (fold_left block (range_down (res - 1) firstblock_res_log2) blended)
      firstblock_res_log2 in
  D.linear fromrgb block resolution_log2 firstblock_res_log2 lod_in images_in
  = scores
  /\
  D.recursive fromrgb block resolution_log2 firstblock_res_log2 lod_in images_in
  = Some scores.
Proof.
  intros Hj Hlow Hhigh res blended scores.
  assert (Hlin : D.linear fromrgb block resolution_log2 firstblock_res_log2
                   lod_in images_in = scores).
  { rewrite D_linear_state. unfold scores. f_equal.
    set (k := Z.to_nat (res - 1 - firstblock_res_log2)).
    replace (Z.to_nat (resolution_log2 - firstblock_res_log2))
      with (S j + k)%nat by (unfold k, res; lia).
    rewrite D_state_tail by (rewrite ofZ_nat_S; exact Hhigh).
    rewrite D_state_step. cbn [snd].
    rewrite lerp_clip_mid by qc_lra.
    rewrite D_state_above by exact Hlow.
    rewrite D_state_img, downscale2d_downscale2d.
    replace (pow2 j * 2)%positive with (pow2 (S j))
      by (rewrite pow2_S; apply Pos.mul_comm).
    fold res. fold blended.
    f_equal. unfold range_down. fold k.
    rewrite map_seq_offset. apply map_ext. intros i. unfold res. lia. }
  split; [exact Hlin|].
  rewrite D_linear_recursive by lia. now rewrite Hlin.
Qed.

Lemma X22_witness :
  let layer := fun (x : Tensor) (res : Z) => tscale x (ofZ res) in
  let images_in : Tensor := fun n c h w => ofZ (n + c + h * w) in
  let blended :=
    lerp (layer (layer (downscale2d images_in (pow2 1)) 4) 4)
      (layer (downscale2d images_in (pow2 2)) 3)
      (Q2Qc (3 # 2) - ofZ 1)%Qc in
  let scores := layer (fold_left layer (range_down 3 3) blended) 3 in
  D.linear layer layer 5 3 (Q2Qc (3 # 2)) images_in = scores /\
  D.recursive layer layer 5 3 (Q2Qc (3 # 2)) images_in = Some scores.
Proof.
  intros layer images_in blended scores.
  apply (X22_discriminator_between_levels layer layer 5 3 (Q2Qc (3 # 2))
           images_in 1).
  - lia.
  - discriminate.
  - discriminate.
Defined.

(** ** Minibatch standard deviation *)

Section MinibatchStddev.

Local Open Scope R_scope.

Lemma rsum_to_ext_in (n : nat) (f g : Z -> R) :
  (forall i, (0 <= i < Z.of_nat n)%Z -> f i = g i) -> rsum_to n f = rsum_to n g.
Proof.
  induction n as [|n IH]; intros H; cbn [rsum_to]; [reflexivity|].
  rewrite IH by (intros i Hi; apply H; lia).
  now rewrite H by lia.
Qed.

Lemma rsum_to_const (n : nat) (v : R) : rsum_to n (fun _ => v) = INR n * v.
Proof.
  induction n as [|n IH]; [cbn; Lra.lra|].
  cbn [rsum_to]. rewrite IH, S_INR. Lra.lra.
Qed.

Lemma rmean_to_const_in (n : nat) (v : R) (f : Z -> R) :
  (0 < n)%nat ->
  (forall i, (0 <= i < Z.of_nat n)%Z -> f i = v) -> rmean_to n f = v.
Proof.
  intros Hn H. unfold rmean_to.
  rewrite (rsum_to_ext_in n f (fun _ => v) H), rsum_to_const.
  field. apply not_0_INR. lia.
Qed.

Lemma rsum_to_ge (n : nat) (v : R) (f : Z -> R) :
  (forall i, v <= f i) -> INR n * v <= rsum_to n f.
Proof.
  intros H. induction n as [|n IH]; [cbn; Lra.lra|].
  cbn [rsum_to]. rewrite S_INR. specialize (H (Z.of_nat n)). Lra.lra.
Qed.

Lemma rmean_to_ge (n : nat) (v : R) (f : Z -> R) :
  (0 < n)%nat -> (forall i, v <= f i) -> v <= rmean_to n f.
Proof.
  intros Hn H. unfold rmean_to.
  assert (Hpos : 0 < INR n) by (apply lt_0_INR; lia).
  apply (Rmult_le_reg_l (INR n)); [exact Hpos|].
  replace (INR n * (rsum_to n f / INR n)) with (rsum_to n f) by (field; Lra.lra).
  now apply rsum_to_ge.
Qed.

Lemma rmean_to_squares_nonneg (n : nat) (f : Z -> R) :
  0 <= rmean_to n (fun i => f i * f i).
Proof.
  unfold rmean_to.
  pose proof (rsum_to_squares_nonneg n f) as Hs.
  pose proof (pos_INR n) as Hn.
  destruct (Req_dec (INR n) 0) as [E|E].
  - rewrite E. unfold Rdiv. rewrite Rinv_0. Lra.lra.
  - apply Rmult_le_pos; [exact Hs|]. apply Rlt_le, Rinv_0_lt_compat. Lra.lra.
Qed.

End MinibatchStddev.

(** X23. On a minibatch that splits into groups of [min(group_size, N)]
    samples, [minibatch_stddev_layer] keeps the input feature maps and appends
    [num_new_features] maps that are never below [sqrt(1e-8)], and equal to
    it for every sample whose group has the same values in all its
    members. *)
Theorem X23_minibatch_stddev_layer
    (N C H W : Z) (x : RTensor) (group_size num_new_features : Z) :
  0 < group_size -> 0 < N -> N mod Z.min group_size N = 0 ->
  0 < num_new_features -> 0 < C -> C mod num_new_features = 0 ->
  0 < H -> 0 < W ->
  let G := Z.min group_size N in
  let M := N / G in
  let c := C / num_new_features in
  exists y,
    minibatch_stddev_layer N C H W x group_size num_new_features = Some y /\
    (forall s ch h w, ch < C -> y s ch h w = x s ch h w) /\
    (forall s ch h w, C <= ch -> (sqrt 1e-8 <= y s ch h w)%R) /\
    (forall s ch h w, C <= ch ->
       (forall g g' k h' w',
          0 <= g < G -> 0 <= g' < G -> 0 <= k < c -> 0 <= h' < H -> 0 <= w' < W ->
          x (g * M + s mod M) ((ch - C) * c + k) h' w'
          = x (g' * M + s mod M) ((ch - C) * c + k) h' w') ->
       y s ch h w = sqrt 1e-8).
Proof.
  intros Hgs HN Hdiv Hn HC HCn HH HW G M c.
  assert (HG : 0 < G) by (unfold G; lia).
  assert (Hc : 0 < c).
  { unfold c. apply Z.div_str_pos. split; [lia|].
    destruct (Z.le_gt_cases num_new_features C) as [Hle|Hgt]; [exact Hle|].
    rewrite Z.mod_small in HCn by lia. lia. }
  unfold minibatch_stddev_layer. fold G. fold G in Hdiv.
  destruct (Z.ltb_spec 0 G) as [_|]; [|lia].
  rewrite Hdiv. cbn [Z.eqb andb].
  destruct (Z.ltb_spec 0 num_new_features) as [_|]; [|lia].
  rewrite HCn. cbn [Z.eqb andb].
  fold M. fold c.
  eexists. split; [reflexivity|]. cbv beta. split; [|split].
  - intros s ch h w Hch.
    destruct (Z.ltb_spec ch C) as [_|]; [reflexivity|lia].
  - intros s ch h w Hch.
    destruct (Z.ltb_spec ch C) as [|_]; [lia|].
    apply rmean_to_ge; [lia|]. intros k.
    apply rmean_to_ge; [lia|]. intros h'.
    apply rmean_to_ge; [lia|]. intros w'.
    apply sqrt_le_1_alt.
    pose proof (rmean_to_squares_nonneg (Z.to_nat G)
                  (fun g => (x (g * M + s mod M)%Z ((ch - C) * c + k)%Z h' w'
                             - rmean_to (Z.to_nat G)
                                 (fun g' => x (g' * M + s mod M)%Z
                                              ((ch - C) * c + k)%Z h' w'))%R)) as Hv.
    cbv beta in Hv. Lra.lra.
  - intros s ch h w Hch Hsame.
    destruct (Z.ltb_spec ch C) as [|_]; [lia|].
    apply rmean_to_const_in; [lia|]. intros k Hk.
    apply rmean_to_const_in; [lia|]. intros h' Hh.
    apply rmean_to_const_in; [lia|]. intros w' Hw.
    f_equal.
    set (v := x (0 * M + s mod M) ((ch - C) * c + k) h' w').
    assert (Hmean : rmean_to (Z.to_nat G)
                      (fun g' => x (g' * M + s mod M) ((ch - C) * c + k) h' w') = v).
    { apply rmean_to_const_in; [lia|]. intros g Hg.
      apply Hsame; lia. }
    rewrite Hmean.
    rewrite (rmean_to_const_in (Z.to_nat G) 0%R); [Lra.lra|lia|].
    intros g Hg. cbv beta.
    rewrite (Hsame g 0 k h' w') by lia. fold v. Lra.lra.
Qed.

(** Four samples in two groups of two; the members of each group are
    equal. *)
Lemma X23_witness :
  let x : RTensor := fun s ch h w => IZR (s mod 2 + ch) in
  exists y,
    minibatch_stddev_layer 4 3 2 2 x 2 1 = Some y /\
    (forall s ch h w, ch < 3 -> y s ch h w = x s ch h w) /\
    (forall s ch h w, 3 <= ch -> (sqrt 1e-8 <= y s ch h w)%R) /\
    (forall s h w, y s 3 h w = sqrt 1e-8).
Proof.
  intros x.
  destruct (X23_minibatch_stddev_layer 4 3 2 2 x 2 1)
    as [y [Hy [Hkeep [Hlow Hsame]]]]; try lia; try reflexivity.
  exists y. repeat split; try assumption.
  intros s h w. apply Hsame; [lia|].
  intros g g' k h' w' _ _ _ _ _. unfold x. do 2 f_equal.
  change (4 / Z.min 2 4) with 2.
  now rewrite !(Z.add_comm _ (s mod 2)), !Z_mod_plus_full.
Defined.

(** ** Projections and upscaling *)

Section PointwiseConvolution.

Import Sized.

Lemma same_out_size_1 (n : Z) : same_out_size n 1 = n.
Proof. unfold same_out_size. rewrite Z.div_1_r. lia. Qed.

(** A pixel lies in the upscaled map when the pixel it copies lies in the
    map. *)
Lemma upscaled_inside (extent r : Z) (factor : positive) :
  ((0 <=? r) && (r <? extent * Z.pos factor))%bool
  = ((0 <=? r / Z.pos factor) && (r / Z.pos factor <? extent))%bool.
Proof.
  pose proof (Pos2Z.is_pos factor) as Hf.
  destruct (Z.leb_spec 0 r) as [H0|H0];
    destruct (Z.leb_spec 0 (r / Z.pos factor)) as [H1|H1]; cbn [andb].
  - destruct (Z.ltb_spec r (extent * Z.pos factor)) as [H2|H2];
      destruct (Z.ltb_spec (r / Z.pos factor) extent) as [H3|H3];
      try reflexivity; exfalso.
    + assert (r / Z.pos factor < extent); [|lia].
      apply Z.div_lt_upper_bound; lia.
    + pose proof (Z.div_mod r (Z.pos factor) ltac:(lia)) as Hdm.
      pose proof (Z.mod_pos_bound r (Z.pos factor) Hf) as Hm.
      nia.
  - exfalso. pose proof (Z.div_pos r (Z.pos factor) H0 Hf). lia.
  - exfalso. assert (r / Z.pos factor < 0); [|lia].
    apply Z.div_lt_upper_bound; lia.
  - reflexivity.
Qed.

End PointwiseConvolution.

(** X24. A convolution with a 1 x 1 kernel, as [torgb] and [fromrgb] apply
    it, commutes with [upscale2d]: the projection of the upscaled feature
    map is the upscaled projection. *)
Theorem X24_conv2d_1x1_commutes_with_upscale2d
    (x : Sized.SizedTensor) (w : Tensor) (fmaps : Z) (factor : positive) :
  Sized.conv2d (Sized.upscale2d x factor) w fmaps 1
  = (y <- Sized.conv2d x w fmaps 1 ;; Ok (Sized.upscale2d y factor)).
Proof.
  unfold Sized.conv2d.
  change (Sized.assert_kernel 1) with (Ok tt). cbn [rbind Ok]. f_equal.
  unfold Sized.upscale2d.
  destruct (Pos.eqb_spec factor 1) as [->|Hf]; [reflexivity|].
  unfold Sized.tf_nn_conv2d.
  cbn [Sized.channels Sized.height Sized.width Sized.values].
  rewrite !same_out_size_1, !same_pad_stride_1 by lia.
  apply sized_ext. intros n o r s.
  unfold reshape_6_to_4, tile_6, reshape_4_to_6.
  apply sum_to_ext. intros c _.
  change (Z.to_nat 1) with 1%nat. cbn [sum_to Z.of_nat].
  do 2 f_equal.
  change ((1 - 1) / 2) with 0. rewrite !Z.mul_1_r, !Z.add_0_r, !Z.sub_0_r.
  unfold Sized.zero_padded.
  cbn [Sized.channels Sized.height Sized.width Sized.values].
  rewrite <- !andb_assoc.
  rewrite (andb_assoc (0 <=? r)), (upscaled_inside (Sized.height x) r factor).
  rewrite (andb_assoc (0 <=? r / Z.pos factor)).
  rewrite <- (upscaled_inside (Sized.width x) s factor).
  rewrite <- !andb_assoc. reflexivity.
Qed.

(** X25. With a [resolution] that is not a power of two from 4 up,
    [G_puzzle] fails before it issues any operation: the graph is left as it
    was. *)
Theorem X25_rejected_resolution_leaves_graph
    (nf : Z -> Z) (num_channels : Z) (mode : option string)
    (latents_sizes : list Z) (firstblock_res resolution label_size : Z)
    (latent_size : option Z)
    (normalize_latents use_wscale use_pixelnorm use_leakyrelu fused_scale : bool)
    (structure : option string) (is_template_graph : bool)
    (latents_in labels_in : static_shape) :
  (forall k, 2 <= k -> resolution <> 2 ^ k) ->
  exists e,
    BuildG.G_puzzle nf num_channels mode latents_sizes firstblock_res resolution
      label_size latent_size normalize_latents use_wscale use_pixelnorm
      use_leakyrelu fused_scale structure is_template_graph latents_in labels_in
    = (inl e, []).
Proof.
  intros Hres. unfold BuildG.G_puzzle.
  destruct (int_log2 resolution) as [e|rl] eqn:Elog.
  - exists e. reflexivity.
  - cbn [BuildG.lift]. rewrite bind_ret.
    destruct (assert ((resolution =? 2 ^ rl) && (4 <=? resolution)))
      as [e|[]] eqn:Ea.
    + exists AssertionError. unfold assert in Ea.
      destruct ((resolution =? 2 ^ rl) && (4 <=? resolution)); [discriminate|].
      reflexivity.
    + destruct (resolution_asserted resolution rl Elog Ea) as [Hk Hpow].
      now destruct (Hres rl Hk).
Qed.

Lemma X25_witness :
  exists e,
    BuildG.G_puzzle (fun _ => 512) 3 (Some "5parts-faces"%string)
      [128; 128; 128; 64; 64] 8 48 0 None true true true true true None false
      None None
    = (inl e, []).
Proof.
  apply (X25_rejected_resolution_leaves_graph (fun _ => 512) 3
           (Some "5parts-faces"%string) [128; 128; 128; 64; 64] 8 48 0 None
           true true true true true None false None None).
  intros k Hk E.
  assert (H : k < 6).
  { apply (Z.pow_lt_mono_r_iff 2); [lia|lia|]. rewrite <- E. reflexivity. }
  assert (Hcases : k = 2 \/ k = 3 \/ k = 4 \/ k = 5) by lia.
  destruct Hcases as [Hc | [Hc | [Hc | Hc]]]; subst k; discriminate E.
Defined.
